(** * langstream_grpc.grpc_service: the agent protocol bridge

    A shallow embedding of [grpc_service.py]: the value codec
    ([to_grpc_value], [from_grpc_value]), the record marshaller
    ([to_grpc_record], [from_grpc_record]), the capability dispatch
    ([call_method_if_exists]), the main-hook executor and the three
    streaming handlers ([read], [process], [write]) of [AgentService].

    Python objects are values of the inductive types below; exceptions are
    an explicit [Raise] outcome; generator [yield]s are an output list; the
    mutable attributes of the service and of the agent are threaded through
    a small state/output/exception monad. *)

From Stdlib Require Import ZArith List Ascii String Lia.
From stdpp Require Import base option list gmap strings pretty.

Set Default Proof Using "Type".
#[global] Set Warnings "-clear-no-such-hyp".

(** ** Python basics *)

Definition bytes : Type := list Byte.byte.

(** An exception object (an instance of [Exception]): its class name and
    [str(e)]. *)
Inductive PyExc : Type :=
  | Exc (cls : string) (msg : string).

(** [str(e)] *)
Definition str_exc (e : PyExc) : string := let 'Exc _ m := e in m.

Inductive Result (A : Type) : Type :=
  | Ok (a : A)
  | Raise (e : PyExc).
Arguments Ok {A} a.
Arguments Raise {A} e.

(** [str(KeyError(k))] is the repr of the key. *)
Definition KeyError (k : Z) : PyExc := Exc "KeyError" (pretty k).
Definition TypeError (msg : string) : PyExc := Exc "TypeError" msg.
Definition ValueError (msg : string) : PyExc := Exc "ValueError" msg.
Definition AttributeError (msg : string) : PyExc := Exc "AttributeError" msg.
Definition RuntimeError (msg : string) : PyExc := Exc "RuntimeError" msg.

(** [s.encode("utf-8")] and its inverse; a [string] is its UTF-8 text. *)
Definition encode_utf8 (s : string) : bytes := list_byte_of_string s.
Definition decode_utf8 (b : bytes) : string := string_of_list_byte b.

Definition INT64_MIN : Z := - 2 ^ 63.
Definition INT64_MAX : Z := 2 ^ 63 - 1.
Definition in_int64 (z : Z) : bool := (INT64_MIN <=? z)%Z && (z <=? INT64_MAX)%Z.

(** ** The objects of the libraries the bridge calls

    [fastavro] schemas and datums, IEEE doubles and the contents of
    [dict]/[list] objects are opaque to the bridge: it only hands them to
    [fastavro] and [json]. *)
Class PyTypes : Type := {
  AvroSchema : Type;
  AvroDatum : Type;
  double : Type;
  DictObj : Type;
  ListObj : Type;
}.

Section Bridge.
Context `{PyTypes}.

(** The domain values an agent puts in a record. [PyObject] is an object
    of any other type, tagged with [type(value).__name__]. *)
Inductive PyValue : Type :=
  | PyNone
  | PyBytes (b : bytes)
  | PyStr (s : string)
  | PyBool (b : bool)
  | PyInt (z : Z)
  | PyFloat (d : double)
  | PyAvroValue (schema : AvroSchema) (value : AvroDatum)
  | PyDict (d : DictObj)
  | PyList (l : ListObj)
  | PyObject (type_name : string).

(** [fastavro] and [json], as the bridge uses them. *)
Class PyLibs : Type := {
  to_parsing_canonical_form : AvroSchema -> string;
  parse_schema : PyValue -> Result AvroSchema;
  schemaless_writer : AvroSchema -> AvroDatum -> Result bytes;
  schemaless_reader : bytes -> AvroSchema -> Result AvroDatum;
  json_dumps : PyValue -> Result string;
  json_loads : string -> Result PyValue;
}.
Context `{PyLibs}.

(** ** Wire messages (agent_pb2)

    The members of [type_oneof] that [grpc_service.py] names, and
    [other_value] for any further member of the oneof, which
    [from_grpc_value] reads with [getattr]. [schema_id] lies outside the
    oneof. *)
Inductive TypeOneof : Type :=
  | bytes_value (b : bytes)
  | string_value (s : string)
  | boolean_value (b : bool)
  | long_value (z : Z)
  | double_value (d : double)
  | json_value (s : string)
  | avro_value (b : bytes)
  | other_value (field : string) (v : PyValue).

Record Value : Type := mkValue {
  Value_schema_id : Z;
  Value_type_oneof : option TypeOneof;
}.

(** [Value()] *)
Definition Value_empty : Value := mkValue 0 None.

Record Schema : Type := mkSchema {
  Schema_schema_id : Z;
  Schema_value : bytes;
}.

Record Header : Type := mkHeader {
  Header_name : string;
  Header_value : option Value;
}.

(** [None] in a message field is "not set": reading an unset message field
    gives the empty message, an unset string gives the empty string. *)
Record GrpcRecord : Type := mkGrpcRecord {
  GrpcRecord_record_id : Z;
  GrpcRecord_key : option Value;
  GrpcRecord_value : option Value;
  GrpcRecord_headers : list Header;
  GrpcRecord_origin : string;
  GrpcRecord_timestamp : option Z;
}.

Definition read_value_field (f : option Value) : Value :=
  default Value_empty f.

(** ** Domain records *)

(** Modelled from the spec: [SimpleRecord] of [langstream_grpc.util] (value,
    optional key, ordered headers, optional origin, optional timestamp). *)
Record SimpleRecord : Type := mkSimpleRecord {
  rec_value : PyValue;
  rec_key : PyValue;
  rec_headers : list (string * PyValue);
  rec_origin : option string;
  rec_timestamp : option Z;
}.

Record RecordWithId : Type := mkRecordWithId {
  rec_record_id : Z;
  rec_base : SimpleRecord;
}.

(** What an agent hands back where a record is expected. *)
Inductive AgentItem : Type :=
  | ItemRecord (r : SimpleRecord)
  | ItemSequence (r : SimpleRecord)   (* tuple or list: SimpleRecord( *record ) *)
  | ItemDict (r : SimpleRecord)       (* dict: SimpleRecord( **record ) *)
  | ItemOther (type_name : string).

(** The result of [wrap_in_record]: a record, or the object unchanged. *)
Inductive RecordObj : Type :=
  | IsRecord (r : SimpleRecord)
  | NotRecord (type_name : string).

Definition wrap_in_record (record : AgentItem) : RecordObj :=
  match record with
  | ItemSequence r => IsRecord r
  | ItemDict r => IsRecord r
  | ItemRecord r => IsRecord r
  | ItemOther t => NotRecord t
  end.

(** ** The service object *)

Record AgentService : Type := mkAgentService {
  schema_id : Z;
  schemas : gmap string Z;
  client_schemas : gmap Z AvroSchema;
}.

(** [AgentService.__init__] *)
Definition AgentService_init : AgentService :=
  mkAgentService 0 ∅ ∅.

Definition set_schemas (self : AgentService) (id : Z) (m : gmap string Z)
  : AgentService :=
  mkAgentService id m (client_schemas self).

Definition set_client_schema (self : AgentService) (id : Z) (s : AvroSchema)
  : AgentService :=
  mkAgentService (schema_id self) (schemas self) (<[id := s]> (client_schemas self)).

(** ** Value codec *)

Definition from_grpc_value (self : AgentService) (value : option Value)
  : Result PyValue :=
  match value with
  | None => Ok PyNone
  | Some value =>
    match Value_type_oneof value with
    | None => Ok PyNone
    | Some (avro_value payload) =>
      match client_schemas self !! Value_schema_id value with
      | None => Raise (KeyError (Value_schema_id value))
      | Some schema =>
        match schemaless_reader payload schema with
        | Ok datum => Ok (PyAvroValue schema datum)
        | Raise e => Raise e
        end
      end
    | Some (json_value s) => json_loads s
    | Some (bytes_value b) => Ok (PyBytes b)
    | Some (string_value s) => Ok (PyStr s)
    | Some (boolean_value b) => Ok (PyBool b)
    | Some (long_value z) => Ok (PyInt z)
    | Some (double_value d) => Ok (PyFloat d)
    | Some (other_value _ v) => Ok v
    end
  end.

Definition scalar (self : AgentService) (v : TypeOneof)
  : AgentService * Result (option Schema * option Value) :=
  (self, Ok (None, Some (mkValue 0 (Some v)))).

Definition to_grpc_value (self : AgentService) (value : PyValue)
  : AgentService * Result (option Schema * option Value) :=
  match value with
  | PyNone => (self, Ok (None, None))
  | PyBytes b => scalar self (bytes_value b)
  | PyStr s => scalar self (string_value s)
  | PyBool b => scalar self (boolean_value b)
  | PyInt z =>
    (* an int64 field refuses a value outside its range *)
    if in_int64 z then scalar self (long_value z)
    else (self, Raise (ValueError "Value out of range"))
  | PyFloat d => scalar self (double_value d)
  | PyAvroValue schema datum =>
    let schema_str := to_parsing_canonical_form schema in
    let '(self, grpc_schema) :=
      match schemas self !! schema_str with
      | None =>
        let id := (schema_id self + 1)%Z in
        (set_schemas self id (<[schema_str := id]> (schemas self)),
         Some (mkSchema id (encode_utf8 schema_str)))
      | Some _ => (self, None)
      end in
    match schemaless_writer schema datum with
    | Ok payload =>
      (self, Ok (grpc_schema,
                 Some (mkValue (schema_id self) (Some (avro_value payload)))))
    | Raise e => (self, Raise e)
    end
  | PyDict _ | PyList _ =>
    match json_dumps value with
    | Ok s => scalar self (json_value s)
    | Raise e => (self, Raise e)
    end
  | PyObject t =>
    (self, Raise (TypeError ("Got unsupported type <class '" ++ t ++ "'>")))
  end.

(** ** Record marshaller: inbound *)

Definition Result_bind {A B} (r : Result A) (k : A -> Result B) : Result B :=
  match r with
  | Ok a => k a
  | Raise e => Raise e
  end.

(** The list comprehension over [record.headers]. *)
Fixpoint from_grpc_headers (self : AgentService) (hs : list Header)
  : Result (list (string * PyValue)) :=
  match hs with
  | [] => Ok []
  | h :: hs =>
    Result_bind (from_grpc_value self (Some (read_value_field (Header_value h))))
      (fun v => Result_bind (from_grpc_headers self hs)
         (fun rest => Ok ((Header_name h, v) :: rest)))
  end.

Definition from_grpc_record (self : AgentService) (record : GrpcRecord)
  : Result RecordWithId :=
  Result_bind (from_grpc_value self (Some (read_value_field (GrpcRecord_value record))))
    (fun value =>
  Result_bind (from_grpc_value self (Some (read_value_field (GrpcRecord_key record))))
    (fun key =>
  Result_bind (from_grpc_headers self (GrpcRecord_headers record))
    (fun headers =>
  Ok (mkRecordWithId (GrpcRecord_record_id record)
        (mkSimpleRecord value key headers
           (if decide (GrpcRecord_origin record = "") then None
            else Some (GrpcRecord_origin record))
           (GrpcRecord_timestamp record)))))).

(** ** A monad for the stateful, yielding, raising code

    A computation runs on a state [S], yields outputs [O] and ends with a
    value or a raised exception; the state reached and the outputs yielded
    before a [raise] are kept, as they are in Python. *)
Definition M (S O A : Type) : Type := S -> S * list O * Result A.

Definition ret {S O A} (a : A) : M S O A := fun s => (s, [], Ok a).

Definition bind {S O A B} (m : M S O A) (k : A -> M S O B) : M S O B :=
  fun s =>
    match m s with
    | (s1, o1, Ok a) => let '(s2, o2, r) := k a s1 in (s2, o1 ++ o2, r)
    | (s1, o1, Raise e) => (s1, o1, Raise e)
    end.

#[global] Instance M_ret {S O} : MRet (M S O) := fun A => @ret S O A.
#[global] Instance M_bind {S O} : MBind (M S O) := fun A B k m => bind m k.

Definition raise {S O A} (e : PyExc) : M S O A := fun s => (s, [], Raise e).

(** [try: m  except Exception as e: handler e] *)
Definition try_except {S O A} (m : M S O A) (handler : PyExc -> M S O A)
  : M S O A :=
  fun s =>
    match m s with
    | (s1, o1, Ok a) => (s1, o1, Ok a)
    | (s1, o1, Raise e) => let '(s2, o2, r) := handler e s1 in (s2, o1 ++ o2, r)
    end.

Definition gets {S O A} (f : S -> A) : M S O A := fun s => (s, [], Ok (f s)).
Definition modify {S O} (f : S -> S) : M S O unit := fun s => (f s, [], Ok tt).
Definition yield {S O} (o : O) : M S O unit := fun s => (s, [o], Ok tt).
Definition of_result {S O A} (r : Result A) : M S O A := fun s => (s, [], r).

(** Run a computation on a component [T] of the state [S]. *)
Definition zoom {S T O A} (view : S -> T) (update : T -> S -> S) (m : M T O A)
  : M S O A :=
  fun s => let '(t, o, r) := m (view s) in (update t s, o, r).

(** [for x in l: body x] *)
Fixpoint for_each {S O A} (l : list A) (body : A -> M S O unit) : M S O unit :=
  match l with
  | [] => ret tt
  | x :: l => bind (body x) (fun _ => for_each l body)
  end.

(** ** Record marshaller: outbound *)

Definition to_grpc_value_m {O} (value : PyValue)
  : M AgentService O (option Schema * option Value) :=
  fun self => let '(self, r) := to_grpc_value self value in (self, [], r).

Definition schema_list (schema : option Schema) : list Schema :=
  match schema with
  | Some s => [s]
  | None => []
  end.

(** The loop over [record.headers()]. *)
Fixpoint to_grpc_headers {O} (hs : list (string * PyValue))
  : M AgentService O (list Schema * list Header) :=
  match hs with
  | [] => ret ([], [])
  | (name, header_value) :: hs =>
    '(schema, grpc_header_value) ← to_grpc_value_m header_value;
    '(schemas, headers) ← to_grpc_headers hs;
    ret (schema_list schema ++ schemas, mkHeader name grpc_header_value :: headers)
  end.

(** [GrpcRecord(..., timestamp=t)]: [None] leaves the optional int64 field
    unset; the field refuses an integer outside the int64 range. *)
Definition timestamp_field (t : option Z) : Result (option Z) :=
  match t with
  | None => Ok None
  | Some z =>
    if in_int64 z then Ok (Some z) else Raise (ValueError "Value out of range")
  end.

(** The message is built last, after every value was encoded: a timestamp
    the field refuses raises then, with the schemas already registered. *)
Definition to_grpc_record {O} (record : RecordObj)
  : M AgentService O (list Schema * GrpcRecord) :=
  match record with
  | NotRecord t =>
    raise (AttributeError ("'" ++ t ++ "' object has no attribute 'value'"))
  | IsRecord record =>
    '(schema_v, value) ← to_grpc_value_m (rec_value record);
    '(schema_k, key) ← to_grpc_value_m (rec_key record);
    '(schemas_h, headers) ← to_grpc_headers (rec_headers record);
    timestamp ← of_result (timestamp_field (rec_timestamp record));
    ret (schema_list schema_v ++ schema_list schema_k ++ schemas_h,
         mkGrpcRecord 0 key value headers
           (default "" (rec_origin record)) timestamp)
  end.

(** ** The agent and the process around the bridge *)

Inductive ProcessStatus : Type :=
  | Running
  | Exited (code : Z).

(** Objects passed to and returned by the optional hooks. *)
Inductive PyObj : Type :=
  | ObjNone
  | ObjValue (v : PyValue)
  | ObjRecord (r : RecordObj)
  | ObjException (e : PyExc)
  | ObjFunction (name : string).

Inductive ParameterKind : Type :=
  | POSITIONAL_ONLY
  | POSITIONAL_OR_KEYWORD
  | VAR_POSITIONAL
  | KEYWORD_ONLY
  | VAR_KEYWORD.

Record Param : Type := mkParam {
  Param_name : string;
  Param_kind : ParameterKind;
}.

(** The parameters that take a positional argument. *)
Definition is_positional (p : Param) : bool :=
  match Param_kind p with
  | POSITIONAL_ONLY | POSITIONAL_OR_KEYWORD => true
  | _ => false
  end.

Record Invocation : Type := mkInvocation {
  inv_method : string;
  inv_args : list PyObj;
  inv_kwargs : list (string * PyObj);
}.

(** The mutable state of the agent object. *)
Context {AgentState : Type}.

(** A callable attribute: [inspect.signature(method).parameters] (for a
    bound method, without [self]) and what calling it does. *)
Record PyCallable : Type := mkPyCallable {
  signature_parameters : list Param;
  call : list PyObj -> list (string * PyObj) -> AgentState
         -> AgentState * Result PyObj;
}.

Inductive Attr : Type :=
  | Callable (m : PyCallable)
  | NotCallable (o : PyObj).

(** An object as [getattr] sees it. *)
Definition Klass : Type := string -> option Attr.

(** What [agent.process] hands back: a sequence of records, or a
    [concurrent.futures.Future] that resolves to one or fails. *)
Inductive ProcessReturn : Type :=
  | ProcessValue (records : list AgentItem)
  | ProcessFuture (resolved : Result (list AgentItem)).

Inductive WriteReturn : Type :=
  | WriteValue
  | WriteFuture (resolved : Result unit).

Record Agent : Type := mkAgent {
  agent_attrs : Klass;
  agent_read : AgentState -> AgentState * Result (list AgentItem);
  agent_process : RecordWithId -> AgentState -> AgentState * Result ProcessReturn;
  agent_write : RecordWithId -> AgentState -> AgentState * Result WriteReturn;
}.

Record World : Type := mkWorld {
  w_service : AgentService;
  w_agent : AgentState;
  w_calls : list Invocation;
  w_log : list (string * string);
  w_status : ProcessStatus;
}.

Definition set_service (self : AgentService) (w : World) : World :=
  mkWorld self (w_agent w) (w_calls w) (w_log w) (w_status w).
Definition set_agent (a : AgentState) (w : World) : World :=
  mkWorld (w_service w) a (w_calls w) (w_log w) (w_status w).
Definition add_call (c : Invocation) (w : World) : World :=
  mkWorld (w_service w) (w_agent w) (w_calls w ++ [c]) (w_log w) (w_status w).
Definition add_log (level msg : string) (w : World) : World :=
  mkWorld (w_service w) (w_agent w) (w_calls w) (w_log w ++ [(level, msg)])
    (w_status w).
Definition set_status (st : ProcessStatus) (w : World) : World :=
  mkWorld (w_service w) (w_agent w) (w_calls w) (w_log w) st.

Definition on_service {O A} (m : M AgentService O A) : M World O A :=
  zoom w_service set_service m.

(** Run a method of the agent on the agent's state. *)
Definition on_agent {O A} (f : AgentState -> AgentState * Result A)
  : M World O A :=
  fun w => let '(a, r) := f (w_agent w) in (set_agent a w, [], r).

Definition logging_info {O} (msg : string) : M World O unit :=
  modify (add_log "INFO" msg).
Definition logging_error {O} (msg : string) : M World O unit :=
  modify (add_log "ERROR" msg).

(** ** Capability dispatch *)

(** [method( *args, **kwargs)], recorded in [w_calls]. *)
Definition invoke {O} (name : string) (method : PyCallable)
    (args : list PyObj) (kwargs : list (string * PyObj)) : M World O PyObj :=
  modify (add_call (mkInvocation name args kwargs));;
  on_agent (call method args kwargs).

Definition call_method_if_exists {O} (klass : Klass) (method : string)
    (args : list PyObj) (kwargs : list (string * PyObj)) : M World O PyObj :=
  match klass method with
  | Some (Callable m) =>
    let defined_positional_parameters_count := length (signature_parameters m) in
    if decide (length args <= defined_positional_parameters_count)
    then invoke method m args kwargs
    else invoke method m (take defined_positional_parameters_count args) kwargs
  | _ => ret ObjNone
  end.

(** [asyncio.to_thread] runs the call on a worker and awaits it. *)
Definition acall_method_if_exists {O} (klass : Klass) (method : string)
    (args : list PyObj) (kwargs : list (string * PyObj)) : M World O PyObj :=
  call_method_if_exists klass method args kwargs.

(** ** The main hook *)

(** [os._exit(code)] ends the process. *)
Definition os__exit {O} (code : Z) : M World O unit :=
  modify (set_status (Exited code)).

(** Attribute lookup on Python's [os] module, for the functions that end
    the process: the module has [_exit] and no attribute named [exit]. *)
Definition os_getattr {O} (name : string) : M World O (Z -> M World O unit) :=
  if decide (name = "_exit") then ret os__exit
  else raise (AttributeError ("module 'os' has no attribute '" ++ name ++ "'")).

Definition crash_process {O} : M World O unit :=
  logging_error "Main method with an error. Exiting process.";;
  f ← os_getattr "exit";
  f 1%Z.

(** [MainExecutor.run], the body of the thread: an exception that leaves
    it ends the thread, not the process. *)
Definition MainExecutor_run {O} (onError : M World O unit) (klass : Klass)
    (method : string) (args : list PyObj) (kwargs : list (string * PyObj))
  : M World O unit :=
  try_except
    (logging_info "Starting main method from thread";;
     call_method_if_exists klass method args kwargs;;
     ret tt)
    (fun e => logging_error (str_exc e);; onError).

(** The body of the thread that [call_method_new_thread_if_exists] starts,
    when the attribute is callable. *)
Definition call_method_new_thread_if_exists {O} (klass : Klass)
    (method_name : string) (args : list PyObj) (kwargs : list (string * PyObj))
  : option (M World O unit) :=
  match klass method_name with
  | Some (Callable _) =>
    Some (MainExecutor_run crash_process klass method_name args kwargs)
  | _ => None
  end.

(** ** The streaming handlers of [AgentService] *)

(** [self.agent] *)
Context (agent : Agent).

(** The [if request.HasField("schema")] block of [process] and [write]. *)
Definition apply_schema {O} (schema : option Schema) : M World O unit :=
  match schema with
  | None => ret tt
  | Some s =>
    json ← of_result (json_loads (decode_utf8 (Schema_value s)));
    schema ← of_result (parse_schema json);
    modify (fun w =>
      set_service (set_client_schema (w_service w) (Schema_schema_id s) schema) w)
  end.

Definition decode_record {O} (record : GrpcRecord) : M World O RecordWithId :=
  self ← gets w_service;
  of_result (from_grpc_record self record).

(** *** Processor *)

Record ProcessorResult : Type := mkProcessorResult {
  ProcessorResult_record_id : Z;
  ProcessorResult_error : option string;
  ProcessorResult_records : list GrpcRecord;
}.

Inductive ProcessorResponse : Type :=
  | ProcessorResponse_schema (schema : Schema)
  | ProcessorResponse_results (results : list ProcessorResult).

Record ProcessorRequest : Type := mkProcessorRequest {
  ProcessorRequest_schema : option Schema;
  ProcessorRequest_records : list GrpcRecord;
}.

(** The handler state while one record is processed: the world and the
    local [grpc_result], which the [try] body mutates and the [except]
    clause reads. *)
Definition Frame : Type := World * ProcessorResult.

Definition in_world {O A} (m : M World O A) : M Frame O A :=
  zoom fst (fun w (f : Frame) => (w, f.2)) m.

Definition append_record (g : GrpcRecord) (f : Frame) : Frame :=
  (f.1, mkProcessorResult (ProcessorResult_record_id f.2)
          (ProcessorResult_error f.2) (ProcessorResult_records f.2 ++ [g])).

Definition set_error (msg : string) (f : Frame) : Frame :=
  (f.1, mkProcessorResult (ProcessorResult_record_id f.2) (Some msg)
          (ProcessorResult_records f.2)).

Definition yield_result : M Frame ProcessorResponse unit :=
  grpc_result ← gets snd;
  yield (ProcessorResponse_results [grpc_result]).

(** [await asyncio.to_thread(self.agent.process, record)], then the
    [Future] awaited when the agent returned one. *)
Definition await_process (record : RecordWithId)
  : M World ProcessorResponse (list AgentItem) :=
  processed_records ← on_agent (agent_process agent record);
  match processed_records with
  | ProcessValue records => ret records
  | ProcessFuture resolved => of_result resolved
  end.

Definition process_try (source_record : GrpcRecord)
  : M Frame ProcessorResponse unit :=
  record ← in_world (decode_record source_record);
  processed_records ← in_world (await_process record);
  for_each processed_records (fun record =>
    '(schemas, grpc_record) ←
       in_world (on_service (to_grpc_record (wrap_in_record record)));
    for_each schemas (fun schema => yield (ProcessorResponse_schema schema));;
    modify (append_record grpc_record));;
  yield_result.

Definition process_record (source_record : GrpcRecord)
  : M World ProcessorResponse unit :=
  fun w =>
    let grpc_result :=
      mkProcessorResult (GrpcRecord_record_id source_record) None [] in
    let '(f, o, r) :=
      try_except (process_try source_record)
        (fun e => modify (set_error (str_exc e));; yield_result)
        (w, grpc_result) in
    (f.1, o, r).

Definition process_request (request : ProcessorRequest)
  : M World ProcessorResponse unit :=
  apply_schema (ProcessorRequest_schema request);;
  for_each (ProcessorRequest_records request) process_record.

Definition process (requests : list ProcessorRequest)
  : M World ProcessorResponse unit :=
  for_each requests process_request.

(** *** Sink *)

Record SinkResponse : Type := mkSinkResponse {
  SinkResponse_record_id : Z;
  SinkResponse_error : option string;
}.

Record SinkRequest : Type := mkSinkRequest {
  SinkRequest_schema : option Schema;
  SinkRequest_record : option GrpcRecord;
}.

Definition await_write (record : RecordWithId) : M World SinkResponse unit :=
  result ← on_agent (agent_write agent record);
  match result with
  | WriteValue => ret tt
  | WriteFuture resolved => of_result resolved
  end.

Definition write_record (record : GrpcRecord) : M World SinkResponse unit :=
  try_except
    (r ← decode_record record;
     await_write r;;
     yield (mkSinkResponse (GrpcRecord_record_id record) None))
    (fun e =>
     yield (mkSinkResponse (GrpcRecord_record_id record) (Some (str_exc e)))).

Definition write_request (request : SinkRequest) : M World SinkResponse unit :=
  apply_schema (SinkRequest_schema request);;
  match SinkRequest_record request with
  | Some record => write_record record
  | None => ret tt
  end.

Definition write (requests : list SinkRequest) : M World SinkResponse unit :=
  for_each requests write_request.

(** *** Source *)

Inductive SourceResponse : Type :=
  | SourceResponse_schema (schema : Schema)
  | SourceResponse_records (records : list GrpcRecord).

Record PermanentFailure : Type := mkPermanentFailure {
  PermanentFailure_record_id : Z;
  PermanentFailure_error_message : string;
}.

Record SourceRequest : Type := mkSourceRequest {
  SourceRequest_committed_records : list Z;
  SourceRequest_permanent_failure : option PermanentFailure;
}.

(** An element of [op_result]: [True] or an exception. *)
Inductive OpResult : Type :=
  | OpTrue
  | OpException (e : PyExc).

(** The locals of one [read] call, shared with its
    [handle_read_requests] task. *)
Record ReadState : Type := mkReadState {
  rs_world : World;
  read_records : gmap Z RecordObj;
  op_result : list OpResult;
  last_record_id : Z;
}.

Definition in_read_world {O A} (m : M World O A) : M ReadState O A :=
  zoom rs_world
    (fun w s => mkReadState w (read_records s) (op_result s) (last_record_id s)) m.

(** [read_records.pop(record_id, None)] *)
Definition pop {O} (record_id : Z) : M ReadState O (option RecordObj) :=
  fun s =>
    (mkReadState (rs_world s) (delete record_id (read_records s)) (op_result s)
       (last_record_id s),
     [], Ok (read_records s !! record_id)).

Definition append_op_result {O} (r : OpResult) : M ReadState O unit :=
  modify (fun s =>
    mkReadState (rs_world s) (read_records s) (op_result s ++ [r])
      (last_record_id s)).

(** The body of the loop over [request.committed_records]. *)
Definition commit_record {O} (record_id : Z) : M ReadState O unit :=
  record ← pop record_id;
  match record with
  | Some record =>
    in_read_world
      (acall_method_if_exists (agent_attrs agent) "commit" [ObjRecord record] []);;
    ret tt
  | None => ret tt
  end.

(** The [if request.HasField("permanent_failure")] block. *)
Definition report_permanent_failure {O} (failure : PermanentFailure)
  : M ReadState O unit :=
  record ← pop (PermanentFailure_record_id failure);
  in_read_world
    (acall_method_if_exists (agent_attrs agent) "permanent_failure"
       [from_option ObjRecord ObjNone record;
        ObjException (RuntimeError (PermanentFailure_error_message failure))]
       []);;
  ret tt.

Definition handle_request {O} (request : SourceRequest) : M ReadState O unit :=
  for_each (SourceRequest_committed_records request) commit_record;;
  match SourceRequest_permanent_failure request with
  | Some failure => report_permanent_failure failure
  | None => ret tt
  end.

Definition handle_read_requests {O} (requests : list SourceRequest)
  : M ReadState O unit :=
  try_except
    (for_each requests handle_request;;
     append_op_result OpTrue)
    (fun e => append_op_result (OpException e)).

(** The first [for] loop of a batch: marshal, announce, collect. *)
Fixpoint marshal_records (records : list RecordObj)
  : M ReadState SourceResponse (list GrpcRecord) :=
  match records with
  | [] => ret []
  | record :: records =>
    '(schemas, grpc_record) ← in_read_world (on_service (to_grpc_record record));
    for_each schemas (fun schema => yield (SourceResponse_schema schema));;
    grpc_records ← marshal_records records;
    ret (grpc_record :: grpc_records)
  end.

Definition set_record_id (g : GrpcRecord) (record_id : Z) : GrpcRecord :=
  mkGrpcRecord record_id (GrpcRecord_key g) (GrpcRecord_value g)
    (GrpcRecord_headers g) (GrpcRecord_origin g) (GrpcRecord_timestamp g).

Definition track (record : RecordObj) (s : ReadState) : ReadState :=
  let last_record_id := (last_record_id s + 1)%Z in
  mkReadState (rs_world s) (<[last_record_id := record]> (read_records s))
    (op_result s) last_record_id.

(** The second [for] loop of a batch, over [enumerate(records)]. *)
Fixpoint assign_record_ids {O} (records : list RecordObj)
    (grpc_records : list GrpcRecord) : M ReadState O (list GrpcRecord) :=
  match records, grpc_records with
  | [], _ => ret grpc_records
  | record :: records, g :: grpc_records =>
    modify (track record);;
    record_id ← gets last_record_id;
    rest ← assign_record_ids records grpc_records;
    ret (set_record_id g record_id :: rest)
  | _ :: _, [] => raise (Exc "IndexError" "list index out of range")
  end.

Inductive LoopControl : Type :=
  | Continue
  | Break.

(** One turn of the [while True] loop of [read]. *)
Definition read_iteration : M ReadState SourceResponse LoopControl :=
  op ← gets op_result;
  match op with
  | OpTrue :: _ => ret Break
  | OpException e :: _ => raise e
  | [] =>
    records ← in_read_world (on_agent (agent_read agent));
    match records with
    | [] => ret Continue
    | _ :: _ =>
      let records := map wrap_in_record records in
      grpc_records ← marshal_records records;
      grpc_records ← assign_record_ids records grpc_records;
      yield (SourceResponse_records grpc_records);;
      ret Continue
    end
  end.

(** The two coroutines of one [read] call, interleaved by the event loop.
    The emit loop advances one turn at a time; the acknowledgement task
    advances one commit or one failure report at a time, appends to
    [op_result] when the inbound stream ends or a hook raises, and is then
    finished. *)
Inductive EmitStatus : Type :=
  | Emitting
  | Emit_done
  | Emit_failed (e : PyExc).

Record ReadCall : Type := mkReadCall {
  rc_state : ReadState;
  rc_emit : EmitStatus;
  rc_out : list SourceResponse;
}.

Inductive ReadEvent : Type :=
  | EvIteration
  | EvCommit (record_id : Z)
  | EvPermanentFailure (failure : PermanentFailure)
  | EvEndOfRequests.

(** The locals at the start of [read]. *)
Definition read_init (w : World) : ReadCall :=
  mkReadCall (mkReadState w ∅ [] 0) Emitting [].

Definition emit_step (c : ReadCall) : ReadCall :=
  match rc_emit c with
  | Emitting =>
    let '(s, o, r) := read_iteration (rc_state c) in
    mkReadCall s
      match r with
      | Ok Continue => Emitting
      | Ok Break => Emit_done
      | Raise e => Emit_failed e
      end
      (rc_out c ++ o)
  | _ => c
  end.

Definition ack_step (m : M ReadState SourceResponse unit) (c : ReadCall)
  : ReadCall :=
  match op_result (rc_state c) with
  | [] =>
    let '(s, o, _) :=
      try_except m (fun e => append_op_result (OpException e)) (rc_state c) in
    mkReadCall s (rc_emit c) (rc_out c ++ o)
  | _ :: _ => c
  end.

Definition read_step (c : ReadCall) (ev : ReadEvent) : ReadCall :=
  match ev with
  | EvIteration => emit_step c
  | EvCommit record_id => ack_step (commit_record record_id) c
  | EvPermanentFailure failure => ack_step (report_permanent_failure failure) c
  | EvEndOfRequests => ack_step (append_op_result OpTrue) c
  end.

Definition read (w : World) (events : list ReadEvent) : ReadCall :=
  fold_left read_step events (read_init w).

(** The acknowledgement task's part of an event. *)
Definition ack_of_event (ev : ReadEvent) : M ReadState SourceResponse unit :=
  match ev with
  | EvIteration => ret tt
  | EvCommit record_id => commit_record record_id
  | EvPermanentFailure failure => report_permanent_failure failure
  | EvEndOfRequests => append_op_result OpTrue
  end.

Definition is_ack (ev : ReadEvent) : Prop :=
  match ev with
  | EvIteration => False
  | _ => True
  end.

(** The events one inbound request stands for. *)
Definition request_events (request : SourceRequest) : list ReadEvent :=
  map EvCommit (SourceRequest_committed_records request) ++
  match SourceRequest_permanent_failure request with
  | Some failure => [EvPermanentFailure failure]
  | None => []
  end.

(** The record ids on the wire, in the order emitted. *)
Definition emitted_ids (out : list SourceResponse) : list Z :=
  flat_map (fun r =>
    match r with
    | SourceResponse_records records => map GrpcRecord_record_id records
    | SourceResponse_schema _ => []
    end) out.

(** ** Vocabulary of the properties *)

(** The values [to_grpc_value] accepts: every kind but a foreign object,
    an integer inside the int64 range, and payloads the serializer takes. *)
Definition encodable (v : PyValue) : Prop :=
  match v with
  | PyObject _ => False
  | PyInt z => in_int64 z = true
  | PyAvroValue schema datum => exists b, schemaless_writer schema datum = Ok b
  | PyDict _ | PyList _ => exists s, json_dumps v = Ok s
  | _ => True
  end.

(** The kinds that travel in a field of their own, without schema. *)
Definition scalar_kind (v : PyValue) : Prop :=
  match v with
  | PyNone | PyBytes _ | PyStr _ | PyBool _ | PyFloat _ => True
  | PyInt z => in_int64 z = true
  | _ => False
  end.

(** The schema-less mappings and sequences, which travel as JSON text. *)
Definition json_kind (v : PyValue) : Prop :=
  match v with
  | PyDict _ | PyList _ => True
  | _ => False
  end.

(** What the decoder makes of a payload under the schema it has cached. *)
Definition read_with (cached : AvroSchema) (payload : bytes) : Result PyValue :=
  match schemaless_reader payload cached with
  | Ok datum => Ok (PyAvroValue cached datum)
  | Raise e => Raise e
  end.

(** The number of positional parameters a signature declares: what the
    local [defined_positional_parameters_count] of the dispatch helper is
    named after. *)
Definition declared_positional_count (parameters : list Param) : nat :=
  length (List.filter is_positional parameters).

(** [agent.process] raises, or the [Future] it returned fails. *)
Definition process_fails (record : RecordWithId) (a a' : AgentState)
    (e : PyExc) : Prop :=
  agent_process agent record a = (a', Raise e) \/
  agent_process agent record a = (a', Ok (ProcessFuture (Raise e))).

Definition write_fails (record : RecordWithId) (a a' : AgentState)
    (e : PyExc) : Prop :=
  agent_write agent record a = (a', Raise e) \/
  agent_write agent record a = (a', Ok (WriteFuture (Raise e))).

Definition write_succeeds (record : RecordWithId) (a a' : AgentState) : Prop :=
  agent_write agent record a = (a', Ok WriteValue) \/
  agent_write agent record a = (a', Ok (WriteFuture (Ok tt))).

(** A schema announcement (or none) that [json] and [fastavro] parse. *)
Definition parses (schema : option Schema) : Prop :=
  match schema with
  | None => True
  | Some s =>
    exists json parsed,
      json_loads (decode_utf8 (Schema_value s)) = Ok json /\
      parse_schema json = Ok parsed
  end.

(** The result message of a failed record. *)
Definition error_result (source_record : GrpcRecord) (e : PyExc)
  : ProcessorResponse :=
  ProcessorResponse_results
    [mkProcessorResult (GrpcRecord_record_id source_record) (Some (str_exc e)) []].

(** An acknowledgement yields nothing and leaves the counter alone. *)
Definition quiet (m : M ReadState SourceResponse unit) : Prop :=
  forall s, (m s).1.2 = [] /\ last_record_id (m s).1.1 = last_record_id s.

(** The invariant of a [read] call: the ids on the wire are [1 .. last]. *)
Definition ids_sequential (c : ReadCall) : Prop :=
  (0 <= last_record_id (rc_state c))%Z /\
  emitted_ids (rc_out c) = seqZ 1 (last_record_id (rc_state c)).

(** ** [init_agent]: the class path *)

(** [s.split(sep)] for a one-character separator. *)
Fixpoint str_split (sep : ascii) (s : string) : list string :=
  match s with
  | EmptyString => [EmptyString]
  | String c s =>
    if decide (c = sep) then EmptyString :: str_split sep s
    else match str_split sep s with
         | piece :: pieces => String c piece :: pieces
         | [] => [String c EmptyString]
         end
  end.

(** [s[:-k]] for [k > 0]: a stop before the start of [s] is clamped. *)
Definition str_drop_last (k : nat) (s : string) : string :=
  substring 0 (String.length s - k) s.

(** The first lines of [init_agent]: [(module_name, class_name)]. *)
Definition init_agent_names (full_class_name : string) : string * string :=
  let class_name := default EmptyString (last (str_split "."%char full_class_name)) in
  let module_name :=
    str_drop_last (String.length class_name + 1) full_class_name in
  (module_name, class_name).

(** ** Further vocabulary *)

(** A computation keeps a property of the state, however it ends. *)
Definition keeps {S O A} (P : S -> Prop) (m : M S O A) : Prop :=
  forall s, P s -> P (m s).1.1.

(** The outbound registry maps the registered schemas one-to-one onto the
    ids [1 .. schema_id]. *)
Definition registry_ok (self : AgentService) : Prop :=
  (0 <= schema_id self)%Z /\
  (forall s id, schemas self !! s = Some id -> (1 <= id <= schema_id self)%Z) /\
  (forall s1 s2 id,
     schemas self !! s1 = Some id -> schemas self !! s2 = Some id -> s1 = s2) /\
  (forall id, (1 <= id <= schema_id self)%Z ->
     exists s, schemas self !! s = Some id).

(** The registry of [self'] extends the one of [self]. *)
Definition registry_extends (self self' : AgentService) : Prop :=
  schemas self ⊆ schemas self' /\ (schema_id self <= schema_id self')%Z.

(** A property of the service that encoding a value and caching an
    announced schema keep. *)
Definition stable (Q : AgentService -> Prop) : Prop :=
  (forall self v, Q self -> Q (to_grpc_value self v).1) /\
  (forall self id s, Q self -> Q (set_client_schema self id s)).

(** The announcements [l], made between the states [self] and [self'] of
    the service, carry the ids after [schema_id self] in a row and account
    for the whole advance of the counter; each is filed in the registry of
    [self'] under the schema it carries. *)
Definition announced (self : AgentService) (l : list Schema)
    (self' : AgentService) : Prop :=
  map Schema_schema_id l = seqZ (schema_id self + 1) (Z.of_nat (length l)) /\
  schema_id self' = (schema_id self + Z.of_nat (length l))%Z /\
  schemas self ⊆ schemas self' /\
  forall a, a ∈ l ->
    schemas self' !! decode_utf8 (Schema_value a) = Some (Schema_schema_id a).

(** A record of scalars whose timestamp, if it has one, fits the int64
    field of the wire record. *)
Definition scalar_record (r : SimpleRecord) : Prop :=
  scalar_kind (rec_value r) /\ scalar_kind (rec_key r) /\
  Forall (fun h => scalar_kind h.2) (rec_headers r) /\
  match rec_timestamp r with
  | Some t => in_int64 t = true
  | None => True
  end.

(** The canonical schema of a structured value; none for any other kind. *)
Definition structured_schema (v : PyValue) : list string :=
  match v with
  | PyAvroValue schema _ => [to_parsing_canonical_form schema]
  | _ => []
  end.

(** The canonical schemas of the structured values of a record, in the
    order value, key, headers. *)
Definition structured_schemas (r : SimpleRecord) : list string :=
  structured_schema (rec_value r) ++ structured_schema (rec_key r) ++
  flat_map (fun h => structured_schema h.2) (rec_headers r).

(** The elements of [l] that are not in [seen], each once, where it comes
    first. *)
Fixpoint first_seen (seen : gset string) (l : list string) : list string :=
  match l with
  | [] => []
  | s :: l =>
    if decide (s ∈ seen) then first_seen seen l
    else s :: first_seen ({[s]} ∪ seen) l
  end.

(** The schema text an announcement carries. *)
Definition announced_text (a : Schema) : string := decode_utf8 (Schema_value a).

(** The members of the oneof that [to_grpc_value] fills for a scalar. *)
Definition scalar_variant (v : TypeOneof) : Prop :=
  match v with
  | bytes_value _ | string_value _ | boolean_value _ | double_value _ => True
  | long_value z => in_int64 z = true
  | _ => False
  end.

(** The record as it comes back from the wire: an empty origin is no
    origin. *)
Definition normalize_origin (r : SimpleRecord) : SimpleRecord :=
  mkSimpleRecord (rec_value r) (rec_key r) (rec_headers r)
    match rec_origin r with
    | Some o => if decide (o = "") then None else Some o
    | None => None
    end
    (rec_timestamp r).

(** An item an agent returned is the scalar record [r]. *)
Definition wraps (item : AgentItem) (r : SimpleRecord) : Prop :=
  wrap_in_record item = IsRecord r /\ scalar_record r.

(** The wire record [g] decodes, by any peer, to the record [item] is. *)
Definition carries (g : GrpcRecord) (item : AgentItem) : Prop :=
  exists r, wraps item r /\
    forall peer, from_grpc_record peer g = Ok (mkRecordWithId 0 (normalize_origin r)).

(** [agent.process] returns the items, at once or through a [Future]. *)
Definition process_returns (record : RecordWithId) (a a' : AgentState)
    (items : list AgentItem) : Prop :=
  agent_process agent record a = (a', Ok (ProcessValue items)) \/
  agent_process agent record a = (a', Ok (ProcessFuture (Ok items))).

(** The record ids of the results on a Processor stream, in order. *)
Definition result_ids (out : list ProcessorResponse) : list Z :=
  flat_map (fun r =>
    match r with
    | ProcessorResponse_results results =>
      map ProcessorResult_record_id results
    | ProcessorResponse_schema _ => []
    end) out.

(** The ids of the records a Sink stream received, in order. *)
Definition sink_request_ids (requests : list SinkRequest) : list Z :=
  flat_map (fun q =>
    match SinkRequest_record q with
    | Some record => [GrpcRecord_record_id record]
    | None => []
    end) requests.

(** From [s] to [s'] the next [n] ids were given out: each is tracked
    with a record, and what was tracked still is. *)
Definition tracks_more (s s' : ReadState) (n : nat) : Prop :=
  last_record_id s' = (last_record_id s + Z.of_nat n)%Z /\
  (forall id r, read_records s' !! id = Some r ->
     read_records s !! id = Some r \/
     ((last_record_id s < id <= last_record_id s + Z.of_nat n)%Z /\
      exists record, r = IsRecord record)) /\
  (forall id,
     is_Some (read_records s !! id) \/
     (last_record_id s < id <= last_record_id s + Z.of_nat n)%Z ->
     is_Some (read_records s' !! id)).

(** The state of [read] after the hook of an acknowledgement raised [e]. *)
Definition failed_with (e : PyExc) (s : ReadState) : ReadState :=
  mkReadState (rs_world s) (read_records s) (op_result s ++ [OpException e])
    (last_record_id s).

(** [lo < x1 < x2 < ... <= hi] for the elements [x1, x2, ...] of [l]. *)
Fixpoint rising (lo : Z) (l : list Z) (hi : Z) : Prop :=
  match l with
  | [] => (lo <= hi)%Z
  | x :: l => (lo < x)%Z /\ rising x l hi
  end.

(** The schema id a message announces, if it is an announcement. *)
Definition announced_by_processor (r : ProcessorResponse) : list Z :=
  match r with
  | ProcessorResponse_schema a => [Schema_schema_id a]
  | ProcessorResponse_results _ => []
  end.

Definition announced_by_source (r : SourceResponse) : list Z :=
  match r with
  | SourceResponse_schema a => [Schema_schema_id a]
  | SourceResponse_records _ => []
  end.

(** The ids a computation announces rise from the counter it starts with
    to the counter it ends with. *)
Definition rises {S O A} (ids : O -> list Z) (ctr : S -> Z) (m : M S O A)
  : Prop :=
  forall s, rising (ctr s) (flat_map ids (m s).1.2) (ctr (m s).1.1).

(** The event acknowledges [record_id]. *)
Definition names_id (record_id : Z) (ev : ReadEvent) : Prop :=
  match ev with
  | EvCommit id => id = record_id
  | EvPermanentFailure failure => PermanentFailure_record_id failure = record_id
  | _ => False
  end.

(** Committing [record_id] at [c] removes that entry and no other, puts
    nothing on the wire, and calls the agent's [commit], when it is
    callable and takes a parameter, once: with [record] as its argument,
    on the state the agent was in. *)
Definition commit_passes (c : ReadCall) (record_id : Z) (record : RecordObj)
  : Prop :=
  let c' := read_step c (EvCommit record_id) in
  read_records (rc_state c') = delete record_id (read_records (rc_state c)) /\
  rc_out c' = rc_out c /\
  forall m, agent_attrs agent "commit" = Some (Callable m) ->
    1 <= length (signature_parameters m) ->
    w_calls (rs_world (rc_state c')) =
      w_calls (rs_world (rc_state c)) ++
      [mkInvocation "commit" [ObjRecord record] []] /\
    w_agent (rs_world (rc_state c')) =
      (call m [ObjRecord record] [] (w_agent (rs_world (rc_state c)))).1.

(** The announcement of a request does not parse, with error [e]. *)
Definition announcement_fails (schema : option Schema) (e : PyExc) : Prop :=
  exists s, schema = Some s /\
    (json_loads (decode_utf8 (Schema_value s)) = Raise e \/
     exists json, json_loads (decode_utf8 (Schema_value s)) = Ok json /\
                  parse_schema json = Raise e).

End Bridge.

(** ** Concrete libraries and a concrete agent

    Used to evaluate the bridge on explicit inputs. Schemas and datums are
    their own serial forms; a [dict] or [list] is its JSON text. *)

Definition sample_types : PyTypes := {|
  AvroSchema := string;
  AvroDatum := bytes;
  double := Z;
  DictObj := string;
  ListObj := string;
|}.

Section Sample.
#[local] Existing Instance sample_types.

Definition sample_json_loads (s : string) : Result PyValue :=
  match s with
  | String "{"%char _ => Ok (PyDict s)
  | String "["%char _ => Ok (PyList s)
  | _ => Ok (PyStr s)
  end.

Definition sample_libs : PyLibs := {|
  to_parsing_canonical_form := fun s => s;
  parse_schema := fun v =>
    match v with
    | PyStr s | PyDict s => Ok s
    | _ => Raise (Exc "SchemaParseException" "not a schema")
    end;
  schemaless_writer := fun _ d => Ok d;
  schemaless_reader := fun b _ => Ok b;
  json_dumps := fun v =>
    match v with
    | PyDict s | PyList s => Ok s
    | _ => Raise (TypeError "Object is not JSON serializable")
    end;
  json_loads := sample_json_loads;
|}.
#[local] Existing Instance sample_libs.

Definition record_of (value : PyValue) : SimpleRecord :=
  mkSimpleRecord value PyNone [] None None.

Definition positional (name : string) : Param :=
  mkParam name POSITIONAL_OR_KEYWORD.

(** [def commit(self, record)]: counts the commits. *)
Definition sample_commit : PyCallable (AgentState := nat) :=
  mkPyCallable [positional "record"] (fun _ _ n => (S n, Ok ObjNone)).

(** [def permanent_failure(self, record, error)]: reads [record.value()]. *)
Definition sample_permanent_failure : PyCallable (AgentState := nat) :=
  mkPyCallable [positional "record"; positional "error"]
    (fun args _ n =>
       match args with
       | ObjRecord (IsRecord _) :: _ => (n, Ok ObjNone)
       | _ =>
         (n, Raise (AttributeError "'NoneType' object has no attribute 'value'"))
       end).

(** [def main(self)]: raises. *)
Definition sample_main : PyCallable (AgentState := nat) :=
  mkPyCallable [] (fun _ _ n => (n, Raise (Exc "Exception" "boom"))).

Definition sample_attrs : Klass (AgentState := nat) :=
  fun name =>
    if decide (name = "commit") then Some (Callable sample_commit)
    else if decide (name = "permanent_failure")
         then Some (Callable sample_permanent_failure)
    else if decide (name = "main") then Some (Callable sample_main)
    else if decide (name = "version") then Some (NotCallable (ObjValue (PyInt 1)))
    else None.

(** [process] and [write] fail with a bare [assert] on a record without a
    value, and pass any other record on. *)
Definition sample_agent : Agent (AgentState := nat) :=
  mkAgent sample_attrs
    (fun n => (S n, Ok [ItemRecord (record_of (PyInt (Z.of_nat n)));
                        ItemSequence (record_of (PyStr "b"))]))
    (fun r n =>
       match rec_value (rec_base r) with
       | PyNone => (n, Raise (Exc "AssertionError" ""))
       | _ => (n, Ok (ProcessValue [ItemRecord (rec_base r)]))
       end)
    (fun r n =>
       match rec_value (rec_base r) with
       | PyNone => (n, Raise (Exc "AssertionError" ""))
       | _ => (S n, Ok WriteValue)
       end).

Definition sample_world : World (AgentState := nat) :=
  mkWorld AgentService_init 0 [] [] Running.

Definition wire_record (record_id : Z) (value : option Value) : GrpcRecord :=
  mkGrpcRecord record_id None value [] "" None.

Definition schema_a : string := "{type:record,name:A}".
Definition schema_b : string := "{type:record,name:B}".
Definition payload : bytes := [Byte.x01; Byte.x02].

Definition encode3 (v1 v2 v3 : PyValue)
  : AgentService * list (Result (option Schema * option Value)) :=
  let '(s1, r1) := to_grpc_value AgentService_init v1 in
  let '(s2, r2) := to_grpc_value s1 v2 in
  let '(s3, r3) := to_grpc_value s2 v3 in
  (s3, [r1; r2; r3]).

Definition os_exit_error : PyExc :=
  AttributeError "module 'os' has no attribute 'exit'".

Definition failure_42 : PermanentFailure := mkPermanentFailure 42 "gone".

(** A structured value whose schema id 5 was never announced. *)
Definition unannounced_value : Value := mkValue 5 (Some (avro_value payload)).

Definition avro_a : PyValue := PyAvroValue schema_a payload.

(** A decoder that was told schema A under id 1. *)
Definition peer_knows_a : AgentService :=
  set_client_schema AgentService_init 1 schema_a.

Definition full_wire_record : GrpcRecord :=
  mkGrpcRecord 9 None (Some (mkValue 0 (Some (string_value "v"))))
    [mkHeader "h" (Some (mkValue 0 (Some (long_value 3))))] "" (Some 0%Z).

(** Record 7 has no value, so the sample agent fails on it; record 8 has. *)
Definition record_7 : GrpcRecord := wire_record 7 None.
Definition record_8 : GrpcRecord :=
  wire_record 8 (Some (mkValue 0 (Some (string_value "ok")))).

Definition decoded (record_id : Z) (value : PyValue) : RecordWithId :=
  mkRecordWithId record_id (record_of value).

Definition assertion_error : PyExc := Exc "AssertionError" "".

Definition two_args : list PyObj := [ObjValue (PyInt 1); ObjValue (PyInt 2)].

(** Libraries whose Avro writer refuses an empty payload. *)
Definition strict_libs : PyLibs := {|
  to_parsing_canonical_form := fun s => s;
  parse_schema := fun v =>
    match v with
    | PyStr s | PyDict s => Ok s
    | _ => Raise (Exc "SchemaParseException" "not a schema")
    end;
  schemaless_writer := fun _ d =>
    match d with
    | [] => Raise (ValueError "no payload")
    | _ => Ok d
    end;
  schemaless_reader := fun b _ => Ok b;
  json_dumps := fun v =>
    match v with
    | PyDict s | PyList s => Ok s
    | _ => Raise (TypeError "Object is not JSON serializable")
    end;
  json_loads := sample_json_loads;
|}.

(** An agent that hands back a number between two records. *)
Definition sloppy_agent : Agent (AgentState := nat) :=
  mkAgent sample_attrs
    (fun n => (S n, Ok [ItemRecord (record_of (PyStr "a")); ItemOther "int"]))
    (fun r n =>
       (n, Ok (ProcessValue [ItemRecord (rec_base r); ItemOther "int";
                             ItemRecord (rec_base r)])))
    (fun r n => (n, Ok WriteValue)).

(** The announcement of schema A under id 1, and one that is a JSON list. *)
Definition announce_a : Schema := mkSchema 1 (encode_utf8 schema_a).
Definition announce_list : Schema := mkSchema 2 (encode_utf8 "[]").

(** A record whose value is structured, under schema id 1. *)
Definition avro_record_1 : GrpcRecord :=
  wire_record 1 (Some (mkValue 1 (Some (avro_value payload)))).

Definition avro_request : ProcessorRequest :=
  mkProcessorRequest (Some announce_a) [avro_record_1].

Definition two_schema_record : SimpleRecord :=
  mkSimpleRecord avro_a (PyAvroValue schema_b payload) [] None None.

(** A world in which schema A is registered under id 1. *)
Definition registered_world : World (AgentState := nat) :=
  mkWorld (mkAgentService 1 {[schema_a := 1%Z]} ∅) 0 [] [] Running.

Definition unannounced_record : GrpcRecord :=
  wire_record 3 (Some unannounced_value).

Definition scalar_sample : SimpleRecord :=
  mkSimpleRecord (PyInt 5) (PyStr "k") [("h", PyBool true)] (Some "") (Some 9%Z).

Definition avro_b : PyValue := PyAvroValue schema_b payload.
Definition announce_b : Schema := mkSchema 2 (encode_utf8 schema_b).

(** The service of a peer that applied the announcements of A and of B,
    through the announcement block of [process]. *)
Definition peer_ab : AgentService :=
  w_service
    (for_each [announce_a; announce_b]
       (fun a => apply_schema (O := unit) (Some a)) sample_world).1.1.

(** [def init(self, config, *, strict=False)] of a class [EchoAgent]: the
    call binds one positional argument after [self]; given more, Python
    raises [TypeError] and the body does not run. *)
Definition strict_init : PyCallable (AgentState := nat) :=
  mkPyCallable [positional "config"; mkParam "strict" KEYWORD_ONLY]
    (fun args _ n =>
       match args with
       | [_] => (S n, Ok ObjNone)
       | [] =>
         (n, Raise (TypeError
            "EchoAgent.init() missing 1 required positional argument: 'config'"))
       | _ =>
         (n, Raise (TypeError
            ("EchoAgent.init() takes 2 positional arguments but " ++
             pretty (S (length args)) ++ " were given")))
       end).

Definition echo_attrs : Klass (AgentState := nat) :=
  fun name => if decide (name = "init") then Some (Callable strict_init) else None.

(** What [init_agent] passes to [init]: the configuration and the context. *)
Definition init_args : list PyObj :=
  [ObjValue (PyDict "{}"); ObjValue (PyObject "DefaultAgentContext")].

End Sample.

(** ** A fragment of [json]

    Dicts whose keys are [str] or [int] and whose values are [str], the
    strings without quote or backslash: enough to run [json.dumps] and
    [json.loads] on them. [dumps] writes an [int] key as its decimal text
    between quotes, as it writes a [str] key; [loads] reads every key as a
    [str]. *)

Inductive DictKey : Type :=
  | KeyStr (s : string)
  | KeyInt (z : Z).

Definition json_types : PyTypes := {|
  AvroSchema := string;
  AvroDatum := bytes;
  double := Z;
  DictObj := list (DictKey * string);
  ListObj := Empty_set;
|}.

Definition quote : ascii := "034"%char.

Definition quoted (s : string) : string :=
  String quote (s ++ String quote EmptyString).

Definition json_key (k : DictKey) : string :=
  match k with
  | KeyStr s => s
  | KeyInt z => pretty z
  end.

Definition json_member (kv : DictKey * string) : string :=
  (quoted (json_key kv.1) ++ ": " ++ quoted kv.2)%string.

Fixpoint json_members (d : list (DictKey * string)) : string :=
  match d with
  | [] => EmptyString
  | [kv] => json_member kv
  | kv :: d => (json_member kv ++ ", " ++ json_members d)%string
  end.

(** [json.dumps(d)] *)
Definition json_object (d : list (DictKey * string)) : string :=
  ("{" ++ json_members d ++ "}")%string.

(** The reader of an object, one character at a time. *)
Inductive JsonState : Type :=
  | JStart
  | JMember (first : bool) (acc : list (string * string))
  | JKey (acc : list (string * string)) (key : string)
  | JColon (acc : list (string * string)) (key : string)
  | JValueOpen (acc : list (string * string)) (key : string)
  | JValue (acc : list (string * string)) (key value : string)
  | JNext (acc : list (string * string))
  | JEnd (acc : list (string * string))
  | JError.

Definition push (s : string) (c : ascii) : string :=
  (s ++ String c EmptyString)%string.

Definition json_step (st : JsonState) (c : ascii) : JsonState :=
  match st with
  | JStart => if decide (c = "{"%char) then JMember true [] else JError
  | JMember first acc =>
    if decide (c = " "%char) then st
    else if decide (c = quote) then JKey acc EmptyString
    else if decide (c = "}"%char) then (if first then JEnd acc else JError)
    else JError
  | JKey acc key =>
    if decide (c = quote) then JColon acc key else JKey acc (push key c)
  | JColon acc key =>
    if decide (c = " "%char) then st
    else if decide (c = ":"%char) then JValueOpen acc key
    else JError
  | JValueOpen acc key =>
    if decide (c = " "%char) then st
    else if decide (c = quote) then JValue acc key EmptyString
    else JError
  | JValue acc key value =>
    if decide (c = quote) then JNext (acc ++ [(key, value)])
    else JValue acc key (push value c)
  | JNext acc =>
    if decide (c = " "%char) then st
    else if decide (c = ","%char) then JMember false acc
    else if decide (c = "}"%char) then JEnd acc
    else JError
  | JEnd acc => if decide (c = " "%char) then st else JError
  | JError => JError
  end.

Section JsonFragment.
#[local] Existing Instance json_types.

(** [json.loads(s)] *)
Definition json_fragment_loads (s : string) : Result PyValue :=
  match fold_left json_step (list_ascii_of_string s) JStart with
  | JEnd acc => Ok (PyDict (map (fun kv => (KeyStr kv.1, kv.2)) acc))
  | _ => Raise (Exc "JSONDecodeError" "Expecting value")
  end.

Definition json_libs : PyLibs := {|
  to_parsing_canonical_form := fun s => s;
  parse_schema := fun v =>
    match v with
    | PyStr s => Ok s
    | _ => Raise (Exc "SchemaParseException" "not a schema")
    end;
  schemaless_writer := fun _ d => Ok d;
  schemaless_reader := fun b _ => Ok b;
  json_dumps := fun v =>
    match v with
    | PyDict d => Ok (json_object d)
    | _ => Raise (TypeError "Object is not JSON serializable")
    end;
  json_loads := json_fragment_loads;
|}.

(** [{1: 'a'}] and [{'1': 'a'}] *)
Definition int_key_dict : PyValue := PyDict [(KeyInt 1, "a")].
Definition str_key_dict : PyValue := PyDict [(KeyStr "1", "a")].

End JsonFragment.

(** * Properties *)

Section Properties.
Context {T : PyTypes} {L : PyLibs}.
Context {AgentState : Type} (agent : Agent (AgentState := AgentState)).
#[local] Abbreviation World := (World (AgentState := AgentState)).
#[local] Abbreviation Klass := (Klass (AgentState := AgentState)).
#[local] Abbreviation PyCallable := (PyCallable (AgentState := AgentState)).
#[local] Abbreviation ReadState := (ReadState (AgentState := AgentState)).
#[local] Abbreviation ReadCall := (ReadCall (AgentState := AgentState)).

(** ** Value codec *)

(** C6: a wire value whose populated variant is [avro_value] and whose
    schema id is not in the inbound schema cache makes [from_grpc_value]
    raise [KeyError] for that id; it returns no value of any kind. *)
Theorem from_grpc_value_unannounced_schema (self : AgentService) (v : Value)
    (payload : bytes) :
  Value_type_oneof v = Some (avro_value payload) ->
  client_schemas self !! Value_schema_id v = None ->
  from_grpc_value self (Some v) = Raise (KeyError (Value_schema_id v)) /\
  forall x, from_grpc_value self (Some v) <> Ok x.
Proof.
  intros Hv Hc. unfold from_grpc_value. rewrite Hv, Hc.
  split; [reflexivity | discriminate].
Qed.

(** C3 (as amended): every value of a supported kind that the serializers
    accept is encoded. A scalar decodes to the original, by any peer. A
    mapping or sequence decodes to what [json.loads] makes of its
    [json.dumps] text. A structured value is decoded with the schema that
    the peer's cache holds under the id on the wire value, and comes back
    as the original exactly when that schema is the value's own and
    [fastavro] reads back the datum it wrote. *)
Theorem decode_encode (self peer : AgentService) (v : PyValue) :
  encodable v ->
  exists self' schema wire,
    to_grpc_value self v = (self', Ok (schema, wire)) /\
    (scalar_kind v -> from_grpc_value peer wire = Ok v) /\
    (json_kind v ->
     exists text, json_dumps v = Ok text /\
       from_grpc_value peer wire = json_loads text) /\
    (forall own datum cached,
       v = PyAvroValue own datum ->
       client_schemas peer !! Value_schema_id (read_value_field wire) = Some cached ->
       exists payload,
         schemaless_writer own datum = Ok payload /\
         from_grpc_value peer wire = read_with cached payload /\
         (from_grpc_value peer wire = Ok v <->
          cached = own /\ schemaless_reader payload own = Ok datum)).
Proof.
  intros Henc.
  destruct v; cbn [encodable] in Henc; try contradiction;
    try (eexists _, _, _; split; [reflexivity |];
         split; [intros _; reflexivity |];
         split; [intros [] | intros own datum cached; discriminate]).
  - cbn [to_grpc_value]. rewrite Henc. eexists _, _, _. split; [reflexivity |].
    split; [intros _; reflexivity |].
    split; [intros [] | intros own datum cached; discriminate].
  - destruct Henc as [b Hb]. cbn [to_grpc_value].
    assert (Hiff : forall cached,
              read_with cached b = Ok (PyAvroValue schema value) <->
              cached = schema /\ schemaless_reader b schema = Ok value).
    { intros cached. unfold read_with. split.
      - destruct (schemaless_reader b cached) as [d|e] eqn:Hr; [| discriminate].
        intros [= -> ->]. split; [reflexivity | exact Hr].
      - intros [-> ->]. reflexivity. }
    destruct (schemas self !! to_parsing_canonical_form schema);
      rewrite Hb; eexists _, _, _; (split; [reflexivity |]);
      (split; [intros [] |]); (split; [intros [] |]);
      intros own datum cached [= <- <-] Hc; exists b;
      (split; [exact Hb |]);
      match goal with |- context [from_grpc_value peer ?w] =>
        assert (Heq : from_grpc_value peer w = read_with cached b)
          by (unfold from_grpc_value, read_with; cbn in *; rewrite Hc; reflexivity)
      end;
      rewrite Heq; (split; [reflexivity | apply Hiff]).
  - destruct Henc as [s Hs]. cbn [to_grpc_value]. rewrite Hs. eexists _, _, _.
    split; [reflexivity |]. split; [intros [] |].
    split; [intros _; exists s; split; reflexivity |].
    intros own datum cached; discriminate.
  - destruct Henc as [s Hs]. cbn [to_grpc_value]. rewrite Hs. eexists _, _, _.
    split; [reflexivity |]. split; [intros [] |].
    split; [intros _; exists s; split; reflexivity |].
    intros own datum cached; discriminate.
Qed.

(** ** Record marshaller *)

Lemma Result_bind_Ok {A B} (r : Result A) (k : A -> Result B) (b : B) :
  Result_bind r k = Ok b -> exists a, r = Ok a /\ k a = Ok b.
Proof. destruct r; simpl; [eauto | discriminate]. Qed.

Lemma from_grpc_headers_total (self : AgentService) (hs : list Header) :
  Forall (fun h => exists v,
            from_grpc_value self (Some (read_value_field (Header_value h))) = Ok v) hs ->
  exists l, from_grpc_headers self hs = Ok l.
Proof.
  induction 1 as [|h hs [v Hv] _ [l Hl]]; cbn [from_grpc_headers]; [eauto |].
  rewrite Hv; cbn [Result_bind]. rewrite Hl; cbn [Result_bind]. eauto.
Qed.

(** C8: the record [from_grpc_record] builds carries the wire record's
    id; its origin is the wire origin, or [None] when that is the empty
    string; its timestamp is exactly the wire field, [None] when unset. A
    record is built whenever value, key and header values decode. *)
Theorem from_grpc_record_fields (self : AgentService) (record : GrpcRecord) :
  (forall r, from_grpc_record self record = Ok r ->
     rec_record_id r = GrpcRecord_record_id record /\
     rec_origin (rec_base r) =
       (if decide (GrpcRecord_origin record = "") then None
        else Some (GrpcRecord_origin record)) /\
     rec_timestamp (rec_base r) = GrpcRecord_timestamp record) /\
  ((exists v, from_grpc_value self (Some (read_value_field (GrpcRecord_value record))) = Ok v) ->
   (exists k, from_grpc_value self (Some (read_value_field (GrpcRecord_key record))) = Ok k) ->
   Forall (fun h => exists v,
      from_grpc_value self (Some (read_value_field (Header_value h))) = Ok v)
     (GrpcRecord_headers record) ->
   exists r, from_grpc_record self record = Ok r).
Proof.
  split.
  - intros r Hr. unfold from_grpc_record in Hr.
    apply Result_bind_Ok in Hr as (value & _ & Hr).
    apply Result_bind_Ok in Hr as (key & _ & Hr).
    apply Result_bind_Ok in Hr as (headers & _ & Hr).
    injection Hr as <-. simpl. auto.
  - intros [v Hv] [k Hk] Hhs.
    destruct (from_grpc_headers_total self _ Hhs) as [l Hl].
    unfold from_grpc_record. rewrite Hv; cbn [Result_bind].
    rewrite Hk; cbn [Result_bind]. rewrite Hl; cbn [Result_bind]. eauto.
Qed.

(** ** Capability dispatch *)

Lemma invoke_run {O} name (m : PyCallable) args kwargs (w : World) :
  invoke (O := O) name m args kwargs w =
  let w1 := add_call (mkInvocation name args kwargs) w in
  let '(a, r) := call m args kwargs (w_agent w1) in
  (set_agent a w1, [], r).
Proof.
  unfold invoke, mbind, M_bind, bind, modify, on_agent. simpl.
  destruct (call m args kwargs (w_agent w)); reflexivity.
Qed.

(** ** Running the monad *)

Lemma bind_run {S O A B} (m : M S O A) (k : A -> M S O B) (s : S) :
  (m ≫= k) s =
  match m s with
  | (s1, o1, Ok a) => let '(s2, o2, r) := k a s1 in (s2, o1 ++ o2, r)
  | (s1, o1, Raise e) => (s1, o1, Raise e)
  end.
Proof. reflexivity. Qed.

Lemma for_each_cons {S O A} (x : A) (l : list A) (body : A -> M S O unit) s :
  for_each (x :: l) body s =
  match body x s with
  | (s1, o1, Ok _) => let '(s2, o2, r) := for_each l body s1 in (s2, o1 ++ o2, r)
  | (s1, o1, Raise e) => (s1, o1, Raise e)
  end.
Proof. reflexivity. Qed.

Ltac run :=
  unfold mbind, M_bind, mret, M_ret, bind, ret, raise, try_except, gets, modify,
    yield, of_result, zoom, on_agent, on_service in *;
  cbn beta iota zeta in *.

(** ** Processor and Sink: a failing record stays local *)

Lemma process_record_never_raises (source_record : GrpcRecord) (w : World) :
  exists w' o, process_record agent source_record w = (w', o, Ok tt).
Proof.
  unfold process_record, try_except.
  destruct (process_try agent source_record _) as [[f o] [[]|e]].
  - eauto.
  - unfold yield_result. run. eauto.
Qed.

Lemma process_record_error (source_record : GrpcRecord) (w : World)
    (record : RecordWithId) (a' : AgentState) (e : PyExc) :
  from_grpc_record (w_service w) source_record = Ok record ->
  process_fails agent record (w_agent w) a' e ->
  process_record agent source_record w =
    (set_agent a' w, [error_result source_record e], Ok tt).
Proof.
  intros Hdec Hfail.
  unfold process_record, process_try, in_world, decode_record, await_process,
    yield_result, error_result.
  run. cbn [fst snd]. rewrite Hdec.
  destruct Hfail as [-> | ->]; reflexivity.
Qed.

Lemma apply_schema_parses {O} (schema : option Schema) (w : World) :
  parses schema -> exists w', apply_schema (O := O) schema w = (w', [], Ok tt).
Proof.
  destruct schema as [s|]; cbn [parses apply_schema]; [| eauto].
  intros (json & parsed & Hj & Hp). run. rewrite Hj, Hp. eauto.
Qed.

Lemma process_request_no_schema (records : list GrpcRecord) (w : World) :
  process_request agent (mkProcessorRequest None records) w =
  for_each records (process_record agent) w.
Proof.
  unfold process_request. rewrite bind_run. cbn.
  destruct (for_each records _ w) as [[w1 o1] x]. reflexivity.
Qed.

Lemma process_records_never_raise (records : list GrpcRecord) (w : World) :
  exists w' o, for_each records (process_record agent) w = (w', o, Ok tt).
Proof.
  revert w. induction records as [|r records IH]; intros w.
  - eexists _, _. reflexivity.
  - rewrite for_each_cons.
    destruct (process_record_never_raises r w) as (w1 & o1 & ->).
    destruct (IH w1) as (w2 & o2 & ->). eauto.
Qed.

(** No agent failure ends a Processor stream: only an announcement that
    does not parse can. *)
Lemma process_never_raises (requests : list ProcessorRequest) (w : World) :
  Forall (fun q => parses (ProcessorRequest_schema q)) requests ->
  exists w' o, process agent requests w = (w', o, Ok tt).
Proof.
  intros Hok. revert w. unfold process.
  induction Hok as [|q requests Hq _ IH]; intros w.
  - eexists _, _. reflexivity.
  - rewrite for_each_cons. unfold process_request at 1. rewrite bind_run.
    destruct (apply_schema_parses (O := ProcessorResponse) _ w Hq) as (w0 & ->).
    destruct (process_records_never_raise (ProcessorRequest_records q) w0)
      as (w1 & o1 & ->).
    destruct (IH w1) as (w2 & o2 & ->). eauto.
Qed.

(** C4 (as amended): when [agent.process] fails on a record that decodes,
    the bridge yields exactly one result for that record's id, whose error
    is [str(e)] and whose record list is empty; the records after it in
    the request are handled from the state the failure left, and no
    failure of the agent ends the stream. *)
Theorem process_failure_is_local (source_record : GrpcRecord) (w : World)
    (record : RecordWithId) (a' : AgentState) (e : PyExc)
    (rest : list GrpcRecord) :
  from_grpc_record (w_service w) source_record = Ok record ->
  process_fails agent record (w_agent w) a' e ->
  process_record agent source_record w =
    (set_agent a' w, [error_result source_record e], Ok tt) /\
  (str_exc e <> "" ->
   exists msg, msg <> "" /\
     (process_record agent source_record w).1.2 =
       [ProcessorResponse_results
          [mkProcessorResult (GrpcRecord_record_id source_record) (Some msg) []]]) /\
  process_request agent (mkProcessorRequest None (source_record :: rest)) w =
    (let '(w2, o2, r2) :=
       process_request agent (mkProcessorRequest None rest) (set_agent a' w) in
     (w2, error_result source_record e :: o2, r2)) /\
  (forall requests w0,
     Forall (fun q => parses (ProcessorRequest_schema q)) requests ->
     exists w1 o1, process agent requests w0 = (w1, o1, Ok tt)).
Proof.
  intros Hdec Hfail.
  pose proof (process_record_error _ _ _ _ _ Hdec Hfail) as Hrun.
  split; [exact Hrun |]. split; [| split].
  - intros Hne. exists (str_exc e). rewrite Hrun. split; [exact Hne | reflexivity].
  - rewrite !process_request_no_schema, for_each_cons, Hrun.
    destruct (for_each rest _ _) as [[w2 o2] r2]. reflexivity.
  - intros requests w0. apply process_never_raises.
Qed.

Lemma write_record_never_raises (record : GrpcRecord) (w : World) :
  exists w' o, write_record agent record w = (w', o, Ok tt).
Proof.
  unfold write_record, try_except.
  match goal with |- context [mbind ?k ?m w] =>
    destruct (mbind k m w) as [[w' o] [[]|e]] end; eauto.
Qed.

(** No agent failure ends a Sink stream. *)
Lemma write_never_raises (requests : list SinkRequest) (w : World) :
  Forall (fun q => parses (SinkRequest_schema q)) requests ->
  exists w' o, write agent requests w = (w', o, Ok tt).
Proof.
  intros Hok. revert w. unfold write.
  induction Hok as [|q requests Hq _ IH]; intros w.
  - eexists _, _. reflexivity.
  - rewrite for_each_cons. unfold write_request at 1. rewrite bind_run.
    destruct (apply_schema_parses (O := SinkResponse) _ w Hq) as (w0 & ->).
    destruct (SinkRequest_record q) as [record|].
    + destruct (write_record_never_raises record w0) as (w1 & o1 & ->).
      destruct (IH w1) as (w2 & o2 & ->). eauto.
    + cbn. destruct (IH w0) as (w2 & o2 & ->). eauto.
Qed.

(** C7 (as amended): for a Sink record that decodes, a failing
    [agent.write] yields one response with the record's id and error
    [str(e)]; a succeeding one yields one response with the id and no
    error; no failure of the agent ends the stream. *)
Theorem write_record_response (record : GrpcRecord) (w : World)
    (r : RecordWithId) :
  from_grpc_record (w_service w) record = Ok r ->
  (forall a' e, write_fails agent r (w_agent w) a' e ->
     write_record agent record w =
       (set_agent a' w,
        [mkSinkResponse (GrpcRecord_record_id record) (Some (str_exc e))],
        Ok tt) /\
     (str_exc e <> "" ->
      exists msg, msg <> "" /\
        (write_record agent record w).1.2 =
          [mkSinkResponse (GrpcRecord_record_id record) (Some msg)])) /\
  (forall a', write_succeeds agent r (w_agent w) a' ->
     write_record agent record w =
       (set_agent a' w, [mkSinkResponse (GrpcRecord_record_id record) None],
        Ok tt)) /\
  (forall requests w0,
     Forall (fun q => parses (SinkRequest_schema q)) requests ->
     exists w1 o1, write agent requests w0 = (w1, o1, Ok tt)).
Proof.
  intros Hdec.
  assert (Hfail : forall a' e, write_fails agent r (w_agent w) a' e ->
            write_record agent record w =
              (set_agent a' w,
               [mkSinkResponse (GrpcRecord_record_id record) (Some (str_exc e))],
               Ok tt)).
  { intros a' e Hfail. unfold write_record, decode_record, await_write. run.
    rewrite Hdec. destruct Hfail as [-> | ->]; reflexivity. }
  split; [| split].
  - intros a' e Hf. split; [exact (Hfail a' e Hf) |].
    intros Hne. exists (str_exc e). rewrite (Hfail a' e Hf).
    split; [exact Hne | reflexivity].
  - intros a' Hok. unfold write_record, decode_record, await_write. run.
    rewrite Hdec. destruct Hok as [-> | ->]; reflexivity.
  - intros requests w0. apply write_never_raises.
Qed.

(** ** Source: correlation ids and acknowledgements *)

#[local] Arguments emitted_ids : simpl never.

Lemma emitted_ids_app (o1 o2 : list SourceResponse) :
  emitted_ids (o1 ++ o2) = emitted_ids o1 ++ emitted_ids o2.
Proof. apply flat_map_app. Qed.

Lemma call_method_if_exists_out {O} (klass : Klass) method args kwargs (w : World) :
  (call_method_if_exists (O := O) klass method args kwargs w).1.2 = [].
Proof.
  unfold call_method_if_exists.
  destruct (klass method) as [[m|o]|]; try reflexivity.
  destruct (decide _); rewrite invoke_run; cbn zeta;
    destruct (call m _ kwargs _); reflexivity.
Qed.

Lemma to_grpc_value_m_out {O} (v : PyValue) (self : AgentService) :
  (to_grpc_value_m (O := O) v self).1.2 = [].
Proof. unfold to_grpc_value_m. destruct (to_grpc_value self v). reflexivity. Qed.

Lemma bind_out_nil {S O A B} (m : M S O A) (k : A -> M S O B) (s : S) :
  (m s).1.2 = [] -> (forall a s1, (k a s1).1.2 = []) -> ((m ≫= k) s).1.2 = [].
Proof.
  intros Hm Hk. rewrite bind_run.
  destruct (m s) as [[s1 o1] [a|e]]; simpl in *; subst o1; [| reflexivity].
  specialize (Hk a s1). destruct (k a s1) as [[s2 o2] r]. simpl in *. now subst.
Qed.

Lemma to_grpc_headers_out {O} (hs : list (string * PyValue)) (self : AgentService) :
  (to_grpc_headers (O := O) hs self).1.2 = [].
Proof.
  revert self. induction hs as [|[name v] hs IH]; intros self; [reflexivity |].
  cbn [to_grpc_headers]. apply bind_out_nil; [apply to_grpc_value_m_out |].
  intros [schema g] s1. apply bind_out_nil; [apply IH |].
  intros [schemas headers] s2. reflexivity.
Qed.

Lemma to_grpc_record_out {O} (record : RecordObj) (self : AgentService) :
  (to_grpc_record (O := O) record self).1.2 = [].
Proof.
  destruct record as [r|t]; [| reflexivity]. cbn [to_grpc_record].
  apply bind_out_nil; [apply to_grpc_value_m_out |]. intros [s1 v1] self1.
  apply bind_out_nil; [apply to_grpc_value_m_out |]. intros [s2 v2] self2.
  apply bind_out_nil; [apply to_grpc_headers_out |]. intros [s3 v3] self3.
  apply bind_out_nil; [reflexivity |]. intros timestamp self4. reflexivity.
Qed.

Lemma yield_schemas_run (schemas : list Schema) (s : ReadState) :
  for_each schemas (fun schema => yield (SourceResponse_schema schema)) s =
  (s, map SourceResponse_schema schemas, Ok tt).
Proof.
  induction schemas as [|x l IH]; [reflexivity |].
  rewrite for_each_cons. unfold yield at 1. rewrite IH. reflexivity.
Qed.

Lemma emitted_ids_schemas (schemas : list Schema) :
  emitted_ids (map SourceResponse_schema schemas) = [].
Proof. induction schemas; [reflexivity | assumption]. Qed.

(** Marshalling a batch announces schemas only, leaves the counter alone
    and returns one wire record per record. *)
Lemma marshal_records_spec (records : list RecordObj) (s : ReadState) :
  emitted_ids (marshal_records records s).1.2 = [] /\
  last_record_id (marshal_records records s).1.1 = last_record_id s /\
  read_records (marshal_records records s).1.1 = read_records s /\
  op_result (marshal_records records s).1.1 = op_result s /\
  forall gs, (marshal_records records s).2 = Ok gs -> length gs = length records.
Proof.
  revert s. induction records as [|record records IH]; intros s.
  { cbn. repeat split. intros gs [= <-]. reflexivity. }
  cbn [marshal_records]. rewrite bind_run.
  unfold in_read_world, on_service, zoom.
  pose proof (to_grpc_record_out (O := SourceResponse) record
                (w_service (rs_world s))) as Hout.
  destruct (to_grpc_record record (w_service (rs_world s))) as [[self o] r].
  cbn in Hout. subst o. destruct r as [[schemas g]|e]; [| cbn; repeat split; discriminate].
  rewrite bind_run, yield_schemas_run. rewrite bind_run.
  match goal with |- context [marshal_records records ?s1] =>
    specialize (IH s1); destruct (marshal_records records s1) as [[s2 o2] r2] end.
  cbn in IH. destruct IH as (Ho & Hl & Hr & Hop & Hlen).
  destruct r2 as [gs|e]; cbn.
  - rewrite app_nil_r, emitted_ids_app, emitted_ids_schemas, Ho.
    repeat split; try assumption.
    intros gs' [= <-]. cbn. f_equal. apply Hlen. reflexivity.
  - rewrite emitted_ids_app, emitted_ids_schemas, Ho.
    repeat split; try assumption. discriminate.
Qed.

(** Assigning ids to a batch: the ids are the next [length records]
    integers, each record is stored under its id, nothing is yielded. *)
Lemma assign_record_ids_spec (records : list RecordObj) :
  forall (gs : list GrpcRecord) (s : ReadState),
  length gs = length records ->
  exists s' gs',
    assign_record_ids (O := SourceResponse) records gs s = (s', [], Ok gs') /\
    map GrpcRecord_record_id gs' =
      seqZ (last_record_id s + 1) (Z.of_nat (length records)) /\
    last_record_id s' = (last_record_id s + Z.of_nat (length records))%Z /\
    op_result s' = op_result s.
Proof.
  induction records as [|record records IH]; intros gs s Hlen.
  { destruct gs; [| discriminate]. exists s, [].
    split; [reflexivity |]. split; [reflexivity |].
    split; [cbn; lia | reflexivity]. }
  destruct gs as [|g gs]; [discriminate |]. injection Hlen as Hlen.
  cbn [assign_record_ids]. run.
  destruct (IH gs (track record s) Hlen) as (s' & gs' & -> & Hids & Hlast & Hop).
  exists s', (set_record_id g (last_record_id (track record s)) :: gs').
  split; [reflexivity |]. unfold track in *.
  cbn [last_record_id op_result length] in *.
  split; [| split; [lia | assumption]].
  cbn [map set_record_id GrpcRecord_record_id].
  rewrite Hids, (seqZ_cons _ (Z.of_nat (S _))) by lia.
  f_equal. f_equal; lia.
Qed.

(** One turn of the emit loop puts the next [n] ids on the wire, for some
    [n], and advances the counter by [n]. *)
Lemma read_iteration_spec (s : ReadState) :
  exists n : nat,
    emitted_ids (read_iteration agent s).1.2 =
      seqZ (last_record_id s + 1) (Z.of_nat n) /\
    last_record_id (read_iteration agent s).1.1 =
      (last_record_id s + Z.of_nat n)%Z.
Proof.
  unfold read_iteration, in_read_world. run.
  destruct (op_result s) as [|[|e] ops];
    try (exists 0; cbn; split; [reflexivity | lia]).
  destruct (agent_read agent (w_agent (rs_world s))) as [a [items|e]];
    [| exists 0; cbn; split; [reflexivity | lia]].
  destruct items as [|item items]; [exists 0; cbn; split; [reflexivity | lia] |].
  set (records := map wrap_in_record (item :: items)).
  match goal with |- context [marshal_records records ?s1] => set (s0 := s1) end.
  destruct (marshal_records_spec records s0) as (Ho & Hl & _ & _ & Hlen).
  destruct (marshal_records records s0) as [[s1 o1] [gs|e]]; cbn in Ho, Hl, Hlen;
    [| exists 0; cbn; rewrite Ho; split; [reflexivity | subst s0; cbn in *; lia]].
  destruct (assign_record_ids_spec records gs s1 (Hlen gs eq_refl))
    as (s2 & gs' & -> & Hids & Hlast & _).
  exists (length records). cbn.
  rewrite emitted_ids_app, Ho. cbn. unfold emitted_ids at 1. cbn.
  rewrite app_nil_r, Hids, Hlast, Hl.
  subst s0. cbn. split; reflexivity.
Qed.

(** What one commit does to the locals of [read]. *)
Lemma commit_record_run (record_id : Z) (s : ReadState) :
  commit_record (O := SourceResponse) agent record_id s =
  match read_records s !! record_id with
  | None =>
    (mkReadState (rs_world s) (delete record_id (read_records s)) (op_result s)
       (last_record_id s), [], Ok tt)
  | Some record =>
    let '(w, _, r) :=
      call_method_if_exists (O := SourceResponse) (agent_attrs agent) "commit"
        [ObjRecord record] [] (rs_world s) in
    (mkReadState w (delete record_id (read_records s)) (op_result s)
       (last_record_id s), [],
     match r with Ok _ => Ok tt | Raise e => Raise e end)
  end.
Proof.
  unfold commit_record, pop, in_read_world, acall_method_if_exists. run.
  destruct (read_records s !! record_id) as [record|]; [| reflexivity].
  cbn [rs_world read_records op_result last_record_id].
  pose proof (call_method_if_exists_out (O := SourceResponse) (agent_attrs agent)
                "commit" [ObjRecord record] [] (rs_world s)) as Hout.
  destruct (call_method_if_exists _ _ _ _ _) as [[w o] r]. cbn in Hout. subst o.
  destruct r; reflexivity.
Qed.

Lemma report_permanent_failure_run (failure : PermanentFailure) (s : ReadState) :
  report_permanent_failure (O := SourceResponse) agent failure s =
  let '(w, _, r) :=
    call_method_if_exists (O := SourceResponse) (agent_attrs agent)
      "permanent_failure"
      [from_option ObjRecord ObjNone
         (read_records s !! PermanentFailure_record_id failure);
       ObjException (RuntimeError (PermanentFailure_error_message failure))]
      [] (rs_world s) in
  (mkReadState w (delete (PermanentFailure_record_id failure) (read_records s))
     (op_result s) (last_record_id s), [],
   match r with Ok _ => Ok tt | Raise e => Raise e end).
Proof.
  unfold report_permanent_failure, pop, in_read_world, acall_method_if_exists. run.
  cbn [rs_world read_records op_result last_record_id].
  match goal with |- context [call_method_if_exists ?k ?n ?a ?kw ?w] =>
    pose proof (call_method_if_exists_out (O := SourceResponse) k n a kw w) as Hout;
    destruct (call_method_if_exists (O := SourceResponse) k n a kw w) as [[w' o] r]
  end.
  cbn in Hout. subst o. destruct r; reflexivity.
Qed.

Lemma commit_record_quiet record_id : quiet (commit_record agent record_id).
Proof.
  intros s. rewrite commit_record_run.
  destruct (read_records s !! record_id); [| split; reflexivity].
  destruct (call_method_if_exists _ _ _ _ _) as [[w o] x]. split; reflexivity.
Qed.

Lemma report_permanent_failure_quiet failure :
  quiet (report_permanent_failure agent failure).
Proof.
  intros s. rewrite report_permanent_failure_run.
  destruct (call_method_if_exists _ _ _ _ _) as [[w o] x]. split; reflexivity.
Qed.

Lemma append_op_result_quiet (x : OpResult) :
  quiet (AgentState := AgentState) (append_op_result x).
Proof. intros s. split; reflexivity. Qed.

Lemma ack_step_quiet m (c : ReadCall) :
  quiet m ->
  rc_out (ack_step m c) = rc_out c /\
  last_record_id (rc_state (ack_step m c)) = last_record_id (rc_state c).
Proof.
  intros Hq. unfold ack_step. destruct (op_result (rc_state c)); [| split; reflexivity].
  unfold try_except. destruct (Hq (rc_state c)) as [Ho Hl].
  destruct (m (rc_state c)) as [[s o] [[]|e]]; cbn in *; subst o.
  - rewrite app_nil_r. split; [reflexivity | assumption].
  - rewrite app_nil_r. split; [reflexivity | assumption].
Qed.

Lemma read_step_sequential (c : ReadCall) (ev : ReadEvent) :
  ids_sequential c -> ids_sequential (read_step agent c ev).
Proof.
  intros [Hpos Hids]. unfold ids_sequential.
  destruct ev as [| record_id | failure |]; cbn [read_step].
  - unfold emit_step. destruct (rc_emit c); try (split; assumption).
    destruct (read_iteration_spec (rc_state c)) as (n & Ho & Hl).
    destruct (read_iteration agent (rc_state c)) as [[s o] r]. cbn in *.
    rewrite emitted_ids_app, Hids, Ho, Hl. split; [lia |].
    rewrite seqZ_app by lia. f_equal. f_equal. lia.
  - destruct (ack_step_quiet _ c (commit_record_quiet record_id)) as [-> ->].
    split; assumption.
  - destruct (ack_step_quiet _ c (report_permanent_failure_quiet failure)) as [-> ->].
    split; assumption.
  - destruct (ack_step_quiet _ c (append_op_result_quiet OpTrue)) as [-> ->].
    split; assumption.
Qed.

Lemma read_sequential (w : World) (events : list ReadEvent) :
  ids_sequential (read agent w events).
Proof.
  unfold read. induction events as [|ev events IH] using rev_ind.
  - split; [cbn; lia | reflexivity].
  - rewrite fold_left_app. cbn. apply read_step_sequential, IH.
Qed.

(** *** [handle_read_requests] is the acknowledgement events in a row *)

Lemma bind_assoc {S O A B C} (m : M S O A) (f : A -> M S O B) (g : B -> M S O C) s :
  ((m ≫= f) ≫= g) s = (m ≫= (fun a => f a ≫= g)) s.
Proof.
  rewrite !bind_run. destruct (m s) as [[s1 o1] [a|e]]; [| reflexivity].
  rewrite bind_run. destruct (f a s1) as [[s2 o2] [b|e]]; [| reflexivity].
  destruct (g b s2) as [[s3 o3] r]. rewrite app_assoc. reflexivity.
Qed.

Lemma bind_ext {S O A B} (m1 m2 : M S O A) (f1 f2 : A -> M S O B) s :
  m1 s = m2 s -> (forall a s1, f1 a s1 = f2 a s1) ->
  (m1 ≫= f1) s = (m2 ≫= f2) s.
Proof.
  intros Hm Hf. rewrite !bind_run, Hm.
  destruct (m2 s) as [[s1 o1] [a|e]]; [| reflexivity]. rewrite Hf. reflexivity.
Qed.

Lemma bind_ret_r {S O} (m : M S O unit) s : (m ≫= fun _ => ret tt) s = m s.
Proof.
  rewrite bind_run. destruct (m s) as [[s1 o1] [[]|e]]; [| reflexivity].
  cbn. rewrite app_nil_r. reflexivity.
Qed.

Lemma for_each_app {S O A} (l1 l2 : list A) (body : A -> M S O unit) s :
  for_each (l1 ++ l2) body s = (for_each l1 body ≫= fun _ => for_each l2 body) s.
Proof.
  revert s. induction l1 as [|x l1 IH]; intros s.
  - rewrite bind_run. cbn. destruct (for_each l2 body s) as [[s2 o2] r]. reflexivity.
  - cbn [app for_each]. change (bind ?m ?k) with (m ≫= k).
    rewrite bind_assoc. apply bind_ext; [reflexivity |]. intros _ s1. apply IH.
Qed.

Lemma for_each_map {S O A B} (f : A -> B) (l : list A) (body : B -> M S O unit) s :
  for_each (map f l) body s = for_each l (fun x => body (f x)) s.
Proof.
  revert s. induction l as [|x l IH]; intros s; [reflexivity |].
  cbn [map for_each]. change (bind ?m ?k) with (m ≫= k).
  apply bind_ext; [reflexivity |]. intros _ s1. apply IH.
Qed.

Lemma handle_request_events (request : SourceRequest) (s : ReadState) :
  handle_request agent request s =
  for_each (request_events request) (ack_of_event agent) s.
Proof.
  unfold handle_request, request_events. rewrite for_each_app.
  apply bind_ext; [rewrite for_each_map; reflexivity |]. intros _ s1.
  destruct (SourceRequest_permanent_failure request) as [failure|]; [| reflexivity].
  cbn [for_each ack_of_event]. change (bind ?m ?k) with (m ≫= k).
  symmetry. apply bind_ret_r.
Qed.

Lemma handle_requests_events (requests : list SourceRequest) (s : ReadState) :
  for_each requests (handle_request agent) s =
  for_each (flat_map request_events requests) (ack_of_event agent) s.
Proof.
  revert s. induction requests as [|request requests IH]; intros s; [reflexivity |].
  cbn [flat_map for_each]. change (bind ?m ?k) with (m ≫= k).
  rewrite for_each_app. apply bind_ext; [apply handle_request_events |].
  intros _ s1. apply IH.
Qed.

Lemma ack_of_event_alive (ev : ReadEvent) (s s1 : ReadState) o :
  is_ack ev -> ev <> EvEndOfRequests ->
  ack_of_event agent ev s = (s1, o, Ok tt) -> op_result s1 = op_result s.
Proof.
  destruct ev as [| record_id | failure |]; intros Hack Hne; try contradiction.
  - cbn [ack_of_event]. rewrite commit_record_run.
    destruct (read_records s !! record_id).
    + destruct (call_method_if_exists _ _ _ _ _) as [[w o'] x].
      intros [= <- _ _]. reflexivity.
    + intros [= <- _]. reflexivity.
  - cbn [ack_of_event]. rewrite report_permanent_failure_run.
    destruct (call_method_if_exists _ _ _ _ _) as [[w o'] x].
    intros [= <- _ _]. reflexivity.
Qed.

Lemma read_step_ack (c : ReadCall) (ev : ReadEvent) :
  is_ack ev -> read_step agent c ev = ack_step (ack_of_event agent ev) c.
Proof. destruct ev; [contradiction | reflexivity ..]. Qed.

(** Once [op_result] is filled the acknowledgement task is over. *)
Lemma acks_after_end (evs : list ReadEvent) (c : ReadCall) :
  Forall is_ack evs -> op_result (rc_state c) <> [] ->
  fold_left (read_step agent) evs c = c.
Proof.
  intros Hacks Hdone. induction Hacks as [|ev evs Hack _ IH]; [reflexivity |].
  cbn [fold_left]. rewrite read_step_ack by assumption. unfold ack_step.
  destruct (op_result (rc_state c)); [contradiction | exact IH].
Qed.

Lemma ack_events_run (evs : list ReadEvent) :
  Forall (fun ev => is_ack ev /\ ev <> EvEndOfRequests) evs ->
  forall c : ReadCall, op_result (rc_state c) = [] ->
  fold_left (read_step agent) (evs ++ [EvEndOfRequests]) c =
  let '(s, o, _) :=
    try_except
      (for_each evs (ack_of_event agent) ≫= fun _ => append_op_result OpTrue)
      (fun e => append_op_result (OpException e)) (rc_state c) in
  mkReadCall s (rc_emit c) (rc_out c ++ o).
Proof.
  induction 1 as [|ev evs [Hack Hne] Hacks IH]; intros c Halive.
  - cbn. unfold ack_step. rewrite Halive. reflexivity.
  - cbn [app fold_left for_each]. change (bind ?m ?k) with (m ≫= k).
    rewrite read_step_ack by assumption.
    unfold try_except at 1. rewrite bind_assoc, bind_run.
    destruct (ack_of_event agent ev (rc_state c)) as [[s1 o1] [[]|e]] eqn:Hev.
    + assert (Hc1 : ack_step (ack_of_event agent ev) c =
                    mkReadCall s1 (rc_emit c) (rc_out c ++ o1))
        by (unfold ack_step, try_except; rewrite Halive, Hev; reflexivity).
      rewrite Hc1, IH
        by (cbn; rewrite (ack_of_event_alive _ _ _ _ Hack Hne Hev); exact Halive).
      cbn [rc_state rc_emit rc_out]. unfold try_except.
      match goal with |- context [mbind ?k ?m s1] =>
        destruct (mbind k m s1) as [[s2 o2] [x|e]] end.
      * rewrite app_assoc. reflexivity.
      * cbn. rewrite !app_assoc. reflexivity.
    + assert (Hc1 : ack_step (ack_of_event agent ev) c =
                    mkReadCall
                      (append_op_result (O := SourceResponse) (OpException e) s1).1.1
                      (rc_emit c) (rc_out c ++ o1 ++ []))
        by (unfold ack_step, try_except; rewrite Halive, Hev; reflexivity).
      rewrite Hc1, acks_after_end.
      * reflexivity.
      * apply Forall_app. split; [| repeat constructor].
        eapply Forall_impl; [exact Hacks |]. intros ev' [Hack' _]. exact Hack'.
      * cbn. destruct (op_result s1); discriminate.
Qed.

Lemma request_events_acks (requests : list SourceRequest) :
  Forall (fun ev => is_ack ev /\ ev <> EvEndOfRequests)
    (flat_map request_events requests).
Proof.
  apply Forall_flat_map, Forall_forall. intros request _.
  unfold request_events. apply Forall_app. split.
  - apply Forall_map, Forall_forall. intros record_id _. split; [exact I | discriminate].
  - destruct (SourceRequest_permanent_failure request); repeat constructor; discriminate.
Qed.

(** Running [handle_read_requests] on the inbound requests, with the emit
    loop never scheduled in between, is the run of their events. *)
Lemma handle_read_requests_events (requests : list SourceRequest) (c : ReadCall) :
  op_result (rc_state c) = [] ->
  fold_left (read_step agent)
    (flat_map request_events requests ++ [EvEndOfRequests]) c =
  let '(s, o, _) := handle_read_requests agent requests (rc_state c) in
  mkReadCall s (rc_emit c) (rc_out c ++ o).
Proof.
  intros Halive. rewrite ack_events_run by (apply request_events_acks || assumption).
  unfold handle_read_requests, try_except.
  rewrite (bind_ext _ (for_each requests (handle_request agent)) _
             (fun _ => append_op_result OpTrue) _
             (eq_sym (handle_requests_events requests (rc_state c)))
             (fun _ _ => eq_refl)).
  reflexivity.
Qed.

Lemma invoke_calls {O} name (m : PyCallable) args kwargs (w : World) :
  w_calls (invoke (O := O) name m args kwargs w).1.1 =
  w_calls w ++ [mkInvocation name args kwargs].
Proof.
  rewrite invoke_run. cbn zeta. destruct (call m args kwargs _). reflexivity.
Qed.

(** Committing an id that is not tracked changes nothing and calls
    nothing. *)
Lemma commit_record_unknown (record_id : Z) (s : ReadState) :
  read_records s !! record_id = None ->
  commit_record (O := SourceResponse) agent record_id s = (s, [], Ok tt).
Proof.
  intros Hnone. rewrite commit_record_run, Hnone, delete_id by assumption.
  destruct s; reflexivity.
Qed.

(** A failure report calls the hook whether or not the id is tracked: for
    an unknown id the record passed is [None]. *)
Lemma report_permanent_failure_unknown (failure : PermanentFailure)
    (s : ReadState) (m : PyCallable) :
  read_records s !! PermanentFailure_record_id failure = None ->
  agent_attrs agent "permanent_failure" = Some (Callable m) ->
  2 <= length (signature_parameters m) ->
  w_calls (rs_world
    (report_permanent_failure (O := SourceResponse) agent failure s).1.1) =
  w_calls (rs_world s) ++
  [mkInvocation "permanent_failure"
     [ObjNone;
      ObjException (RuntimeError (PermanentFailure_error_message failure))] []].
Proof.
  intros Hnone Hattr Hlen. rewrite report_permanent_failure_run, Hnone.
  unfold call_method_if_exists. rewrite Hattr. cbn [from_option].
  destruct (decide _) as [_|Hgt]; [| cbn in Hgt; lia].
  match goal with |- context [invoke ?n m ?a ?k ?w] =>
    pose proof (invoke_calls (O := SourceResponse) n m a k w) as Hcalls;
    destruct (invoke (O := SourceResponse) n m a k w) as [[w1 o1] x] end.
  exact Hcalls.
Qed.

(** ** Schema registry: what holds of [to_grpc_value] *)

(** A schema seen for the first time gets the next id and one
    announcement carrying that id. *)
Lemma to_grpc_value_first_encoding (self : AgentService) schema datum payload :
  schemas self !! to_parsing_canonical_form schema = None ->
  schemaless_writer schema datum = Ok payload ->
  let id := (schema_id self + 1)%Z in
  to_grpc_value self (PyAvroValue schema datum) =
    (set_schemas self id (<[to_parsing_canonical_form schema := id]> (schemas self)),
     Ok (Some (mkSchema id (encode_utf8 (to_parsing_canonical_form schema))),
         Some (mkValue id (Some (avro_value payload))))).
Proof. intros Hnew Hw. cbn. rewrite Hnew, Hw. reflexivity. Qed.

(** A registered schema is not announced again; the id attached is the
    counter [schema_id self], whatever id the schema was registered under. *)
Lemma to_grpc_value_later_encoding (self : AgentService) schema datum payload id :
  schemas self !! to_parsing_canonical_form schema = Some id ->
  schemaless_writer schema datum = Ok payload ->
  to_grpc_value self (PyAvroValue schema datum) =
    (self, Ok (None, Some (mkValue (schema_id self) (Some (avro_value payload))))).
Proof. intros Hold Hw. cbn. rewrite Hold, Hw. reflexivity. Qed.

(** * Further properties *)

#[local] Abbreviation Frame := (Frame (AgentState := AgentState)).

(** ** Invariants through the monad *)

Lemma keeps_ret {S O A} (P : S -> Prop) (a : A) : keeps P (ret (O := O) a).
Proof. intros s Hs. exact Hs. Qed.

Lemma keeps_raise {S O A} (P : S -> Prop) (e : PyExc) :
  keeps P (raise (O := O) (A := A) e).
Proof. intros s Hs. exact Hs. Qed.

Lemma keeps_gets {S O A} (P : S -> Prop) (f : S -> A) : keeps P (gets (O := O) f).
Proof. intros s Hs. exact Hs. Qed.

Lemma keeps_yield {S O} (P : S -> Prop) (o : O) : keeps P (yield o).
Proof. intros s Hs. exact Hs. Qed.

Lemma keeps_of_result {S O A} (P : S -> Prop) (r : Result A) :
  keeps P (of_result (O := O) r).
Proof. intros s Hs. exact Hs. Qed.

Lemma keeps_modify {S O} (P : S -> Prop) (f : S -> S) :
  (forall s, P s -> P (f s)) -> keeps P (modify (O := O) f).
Proof. intros Hf s Hs. exact (Hf s Hs). Qed.

Lemma keeps_bind {S O A B} (P : S -> Prop) (m : M S O A) (k : A -> M S O B) :
  keeps P m -> (forall a, keeps P (k a)) -> keeps P (m ≫= k).
Proof.
  intros Hm Hk s Hs. rewrite bind_run. specialize (Hm s Hs).
  destruct (m s) as [[s1 o1] [a|e]]; [| exact Hm].
  specialize (Hk a s1 Hm). destruct (k a s1) as [[s2 o2] r]. exact Hk.
Qed.

Lemma keeps_try_except {S O A} (P : S -> Prop) (m : M S O A)
    (h : PyExc -> M S O A) :
  keeps P m -> (forall e, keeps P (h e)) -> keeps P (try_except m h).
Proof.
  intros Hm Hh s Hs. unfold try_except. specialize (Hm s Hs).
  destruct (m s) as [[s1 o1] [a|e]]; [exact Hm |].
  specialize (Hh e s1 Hm). destruct (h e s1) as [[s2 o2] r]. exact Hh.
Qed.

Lemma keeps_for_each {S O A} (P : S -> Prop) (l : list A)
    (body : A -> M S O unit) :
  (forall x, keeps P (body x)) -> keeps P (for_each l body).
Proof.
  intros Hb. induction l as [|x l IH]; [apply keeps_ret |].
  cbn [for_each]. change (bind ?m ?k) with (m ≫= k).
  apply keeps_bind; [apply Hb | intros _; exact IH].
Qed.

Lemma keeps_zoom {S U O A} (P : S -> Prop) (Q : U -> Prop) (view : S -> U)
    (update : U -> S -> S) (m : M U O A) :
  (forall s, P s -> Q (view s)) ->
  (forall t s, P s -> Q t -> P (update t s)) ->
  keeps Q m -> keeps P (zoom view update m).
Proof.
  intros Hv Hu Hm s Hs. unfold zoom. specialize (Hm (view s) (Hv s Hs)).
  destruct (m (view s)) as [[t o] r]. exact (Hu t s Hs Hm).
Qed.

(** ** What every handler keeps of the service *)

Lemma keeps_to_grpc_value_m {O} (Q : AgentService -> Prop) (v : PyValue) :
  stable Q -> keeps Q (to_grpc_value_m (O := O) v).
Proof.
  intros [Hv _] self Hs. unfold to_grpc_value_m. specialize (Hv self v Hs).
  destruct (to_grpc_value self v) as [self' r]. exact Hv.
Qed.

Lemma keeps_to_grpc_headers {O} (Q : AgentService -> Prop)
    (hs : list (string * PyValue)) :
  stable Q -> keeps Q (to_grpc_headers (O := O) hs).
Proof.
  intros HQ. induction hs as [|[name v] hs IH]; [apply keeps_ret |].
  cbn [to_grpc_headers]. apply keeps_bind; [apply keeps_to_grpc_value_m, HQ |].
  intros [schema g]. apply keeps_bind; [exact IH |].
  intros [schemas headers]. apply keeps_ret.
Qed.

Lemma keeps_to_grpc_record {O} (Q : AgentService -> Prop) (record : RecordObj) :
  stable Q -> keeps Q (to_grpc_record (O := O) record).
Proof.
  intros HQ. destruct record as [r|t]; [| apply keeps_raise].
  cbn [to_grpc_record].
  apply keeps_bind; [apply keeps_to_grpc_value_m, HQ |]. intros [s1 v1].
  apply keeps_bind; [apply keeps_to_grpc_value_m, HQ |]. intros [s2 v2].
  apply keeps_bind; [apply keeps_to_grpc_headers, HQ |]. intros [s3 v3].
  apply keeps_bind; [apply keeps_of_result |]. intros timestamp.
  apply keeps_ret.
Qed.

(** The property of the service, seen from the world. *)
Lemma keeps_on_service {O A} (Q : AgentService -> Prop)
    (m : M AgentService O A) :
  keeps Q m -> keeps (fun w : World => Q (w_service w)) (on_service m).
Proof.
  intros Hm. unfold on_service.
  apply (keeps_zoom _ Q); [auto | intros t s _ Ht; exact Ht | exact Hm].
Qed.

Lemma keeps_on_agent {O A} (Q : AgentService -> Prop)
    (f : AgentState -> AgentState * Result A) :
  keeps (fun w : World => Q (w_service w)) (on_agent (O := O) f).
Proof.
  intros w Hw. unfold on_agent. destruct (f (w_agent w)) as [a r]. exact Hw.
Qed.

Lemma keeps_call_method_if_exists {O} (Q : AgentService -> Prop) (klass : Klass)
    method args kwargs :
  keeps (fun w : World => Q (w_service w))
    (call_method_if_exists (O := O) klass method args kwargs).
Proof.
  intros w Hw. unfold call_method_if_exists.
  destruct (klass method) as [[m|o]|]; try exact Hw.
  destruct (decide _); rewrite invoke_run; cbn zeta;
    destruct (call m _ kwargs _); exact Hw.
Qed.

Lemma keeps_apply_schema {O} (Q : AgentService -> Prop) (schema : option Schema) :
  stable Q ->
  keeps (fun w : World => Q (w_service w)) (apply_schema (O := O) schema).
Proof.
  intros [_ Hc]. destruct schema as [s|]; [| apply keeps_ret].
  cbn [apply_schema]. apply keeps_bind; [apply keeps_of_result |]. intros json.
  apply keeps_bind; [apply keeps_of_result |]. intros parsed.
  apply keeps_modify. intros w Hw. cbn. apply Hc, Hw.
Qed.

Lemma keeps_decode_record {O} (Q : AgentService -> Prop) (record : GrpcRecord) :
  keeps (fun w : World => Q (w_service w)) (decode_record (O := O) record).
Proof.
  unfold decode_record. apply keeps_bind; [apply keeps_gets |].
  intros self. apply keeps_of_result.
Qed.

Lemma keeps_in_world {O A} (P : World -> Prop) (m : M World O A) :
  keeps P m -> keeps (fun f : Frame => P f.1) (in_world m).
Proof.
  intros Hm. unfold in_world.
  apply (keeps_zoom _ P); [auto | intros t s _ Ht; exact Ht | exact Hm].
Qed.

Lemma keeps_process_record (Q : AgentService -> Prop) (source_record : GrpcRecord) :
  stable Q ->
  keeps (fun w : World => Q (w_service w)) (process_record agent source_record).
Proof.
  intros HQ w Hw. unfold process_record.
  set (P := fun f : Frame => Q (w_service f.1)).
  assert (Hk : keeps P
    (try_except (process_try agent source_record)
       (fun e => modify (set_error (str_exc e));; yield_result))).
  { apply keeps_try_except.
    - unfold process_try.
      apply keeps_bind; [apply (keeps_in_world (fun w => Q (w_service w))),
                           keeps_decode_record |]. intros record.
      apply keeps_bind.
      { apply (keeps_in_world (fun w => Q (w_service w))). unfold await_process.
        apply keeps_bind; [apply keeps_on_agent |].
        intros [records|resolved]; [apply keeps_ret | apply keeps_of_result]. }
      intros items. apply keeps_bind.
      + apply keeps_for_each. intros item.
        apply keeps_bind.
        { apply (keeps_in_world (fun w => Q (w_service w))), keeps_on_service,
            keeps_to_grpc_record, HQ. }
        intros [schemas g]. apply keeps_bind.
        { apply keeps_for_each. intros schema. apply keeps_yield. }
        intros _. apply keeps_modify. intros f Hf. exact Hf.
      + intros _. unfold yield_result.
        apply keeps_bind; [apply keeps_gets | intros res; apply keeps_yield].
    - intros e. apply keeps_bind; [apply keeps_modify; intros f Hf; exact Hf |].
      intros _. unfold yield_result.
      apply keeps_bind; [apply keeps_gets | intros res; apply keeps_yield]. }
  match goal with |- context [try_except ?m ?h ?s] =>
    specialize (Hk s Hw); destruct (try_except m h s) as [[f o] r] end.
  exact Hk.
Qed.

Lemma keeps_process (Q : AgentService -> Prop) (requests : list ProcessorRequest) :
  stable Q ->
  keeps (fun w : World => Q (w_service w)) (process agent requests).
Proof.
  intros HQ. unfold process. apply keeps_for_each. intros request.
  unfold process_request. apply keeps_bind; [apply keeps_apply_schema, HQ |].
  intros _. apply keeps_for_each. intros record.
  apply keeps_process_record, HQ.
Qed.

Lemma keeps_write (Q : AgentService -> Prop) (requests : list SinkRequest) :
  stable Q ->
  keeps (fun w : World => Q (w_service w)) (write agent requests).
Proof.
  intros HQ. unfold write. apply keeps_for_each. intros request.
  unfold write_request. apply keeps_bind; [apply keeps_apply_schema, HQ |].
  intros _. destruct (SinkRequest_record request) as [record|]; [| apply keeps_ret].
  unfold write_record. apply keeps_try_except.
  - apply keeps_bind; [apply keeps_decode_record |]. intros r.
    apply keeps_bind; [| intros _; apply keeps_yield].
    unfold await_write. apply keeps_bind; [apply keeps_on_agent |].
    intros [|resolved]; [apply keeps_ret | apply keeps_of_result].
  - intros e. apply keeps_yield.
Qed.

Lemma keeps_in_read_world {O A} (P : World -> Prop) (m : M World O A) :
  keeps P m -> keeps (fun s : ReadState => P (rs_world s)) (in_read_world m).
Proof.
  intros Hm. unfold in_read_world.
  apply (keeps_zoom _ P); [auto | intros t s _ Ht; exact Ht | exact Hm].
Qed.

Lemma keeps_ack_of_event (Q : AgentService -> Prop) (ev : ReadEvent) :
  keeps (fun s : ReadState => Q (w_service (rs_world s))) (ack_of_event agent ev).
Proof.
  destruct ev as [| record_id | failure |]; cbn [ack_of_event].
  - apply keeps_ret.
  - intros s Hs. rewrite commit_record_run.
    destruct (read_records s !! record_id) as [record|]; [| exact Hs].
    pose proof (keeps_call_method_if_exists (O := SourceResponse) Q
                  (agent_attrs agent) "commit" [ObjRecord record] []
                  (rs_world s) Hs) as Hk.
    destruct (call_method_if_exists _ _ _ _ _) as [[w o] x]. exact Hk.
  - intros s Hs. rewrite report_permanent_failure_run.
    match goal with |- context [call_method_if_exists ?k ?n ?a ?kw ?w] =>
      pose proof (keeps_call_method_if_exists (O := SourceResponse) Q k n a kw w Hs)
        as Hk;
      destruct (call_method_if_exists (O := SourceResponse) k n a kw w)
        as [[w' o] x] end.
    exact Hk.
  - intros s Hs. exact Hs.
Qed.

Lemma keeps_marshal_records (Q : AgentService -> Prop) (records : list RecordObj) :
  stable Q ->
  keeps (fun s : ReadState => Q (w_service (rs_world s))) (marshal_records records).
Proof.
  intros HQ. induction records as [|record records IH]; [apply keeps_ret |].
  cbn [marshal_records]. apply keeps_bind.
  { apply (keeps_in_read_world (fun w => Q (w_service w))), keeps_on_service,
      keeps_to_grpc_record, HQ. }
  intros [schemas g]. apply keeps_bind.
  { apply keeps_for_each. intros schema. apply keeps_yield. }
  intros _. apply keeps_bind; [exact IH | intros gs; apply keeps_ret].
Qed.

Lemma keeps_assign_record_ids (Q : AgentService -> Prop)
    (records : list RecordObj) (gs : list GrpcRecord) :
  keeps (fun s : ReadState => Q (w_service (rs_world s)))
    (assign_record_ids (O := SourceResponse) records gs).
Proof.
  revert gs. induction records as [|record records IH]; intros gs.
  { apply keeps_ret. }
  destruct gs as [|g gs]; [apply keeps_raise |]. cbn [assign_record_ids].
  apply keeps_bind; [apply keeps_modify; intros s Hs; exact Hs |]. intros _.
  apply keeps_bind; [apply keeps_gets |]. intros record_id.
  apply keeps_bind; [apply IH | intros rest; apply keeps_ret].
Qed.

Lemma keeps_read_iteration (Q : AgentService -> Prop) :
  stable Q ->
  keeps (fun s : ReadState => Q (w_service (rs_world s))) (read_iteration agent).
Proof.
  intros HQ. unfold read_iteration. apply keeps_bind; [apply keeps_gets |].
  intros [|[|e] ops]; [| apply keeps_ret | apply keeps_raise].
  apply keeps_bind.
  { apply (keeps_in_read_world (fun w => Q (w_service w))), keeps_on_agent. }
  intros [|item items]; [apply keeps_ret |].
  apply keeps_bind; [apply keeps_marshal_records, HQ |]. intros gs.
  apply keeps_bind; [apply keeps_assign_record_ids |]. intros gs'.
  apply keeps_bind; [apply keeps_yield | intros _; apply keeps_ret].
Qed.

Lemma keeps_read_step (Q : AgentService -> Prop) (c : ReadCall) (ev : ReadEvent) :
  stable Q ->
  Q (w_service (rs_world (rc_state c))) ->
  Q (w_service (rs_world (rc_state (read_step agent c ev)))).
Proof.
  intros HQ Hc.
  assert (Hack : forall m,
            keeps (fun s : ReadState => Q (w_service (rs_world s))) m ->
            Q (w_service (rs_world (rc_state (ack_step m c))))).
  { intros m Hm. unfold ack_step. destruct (op_result (rc_state c)); [| exact Hc].
    pose proof (keeps_try_except _ m
                  (fun e => append_op_result (OpException e)) Hm
                  (fun e s Hs => Hs) (rc_state c) Hc) as Hk.
    destruct (try_except _ _ _) as [[s o] x]. exact Hk. }
  destruct ev as [| record_id | failure |]; cbn [read_step].
  - unfold emit_step. destruct (rc_emit c); try exact Hc.
    pose proof (keeps_read_iteration Q HQ (rc_state c) Hc) as Hk.
    destruct (read_iteration agent (rc_state c)) as [[s o] x]. exact Hk.
  - apply (Hack _ (keeps_ack_of_event Q (EvCommit record_id))).
  - apply (Hack _ (keeps_ack_of_event Q (EvPermanentFailure failure))).
  - apply (Hack _ (keeps_ack_of_event Q EvEndOfRequests)).
Qed.

Lemma keeps_read (Q : AgentService -> Prop) (w : World) (events : list ReadEvent) :
  stable Q ->
  Q (w_service w) ->
  Q (w_service (rs_world (rc_state (read agent w events)))).
Proof.
  intros HQ Hw. unfold read.
  induction events as [|ev events IH] using rev_ind; [exact Hw |].
  rewrite fold_left_app. cbn. apply keeps_read_step; assumption.
Qed.

(** ** The outbound schema registry *)

Lemma to_grpc_value_registry_ok (self : AgentService) (v : PyValue) :
  registry_ok self -> registry_ok (to_grpc_value self v).1.
Proof.
  intros Hok. destruct v; cbn; try exact Hok.
  - destruct (in_int64 z); exact Hok.
  - destruct (schemas self !! to_parsing_canonical_form schema) as [id|] eqn:Hc.
    + destruct (schemaless_writer schema value); exact Hok.
    + assert (Hnew : registry_ok
                (set_schemas self (schema_id self + 1)
                   (<[to_parsing_canonical_form schema := (schema_id self + 1)%Z]>
                      (schemas self)))).
      { destruct Hok as (H0 & Hrange & Hinj & Hsurj). unfold registry_ok. cbn.
        split; [lia |]. split; [| split].
        - intros s id. rewrite lookup_insert. destruct (decide _).
          + intros [= <-]. lia.
          + intros Hs. specialize (Hrange s id Hs). lia.
        - intros s1 s2 id. rewrite !lookup_insert.
          destruct (decide _) as [<-|Hn1], (decide _) as [<-|Hn2]; try reflexivity.
          + intros [= <-] Hs. specialize (Hrange _ _ Hs). lia.
          + intros Hs [= <-]. specialize (Hrange _ _ Hs). lia.
          + apply Hinj.
        - intros id Hid. destruct (decide (id = schema_id self + 1)%Z) as [->|Hne].
          + exists (to_parsing_canonical_form schema). apply lookup_insert_eq.
          + destruct (Hsurj id) as [s Hs]; [lia |]. exists s.
            rewrite lookup_insert_ne; [exact Hs |]. intros <-. congruence. }
      destruct (schemaless_writer schema value); exact Hnew.
  - destruct (json_dumps (PyDict d)); exact Hok.
  - destruct (json_dumps (PyList l)); exact Hok.
Qed.

Lemma registry_ok_init : registry_ok AgentService_init.
Proof.
  split; [cbn; lia |]. split; [| split].
  - intros s id Hs. cbn in Hs. rewrite lookup_empty in Hs. discriminate.
  - intros s1 s2 id Hs. cbn in Hs. rewrite lookup_empty in Hs. discriminate.
  - intros id Hid. cbn in Hid. lia.
Qed.

Lemma registry_ok_stable : stable registry_ok.
Proof.
  split; [apply to_grpc_value_registry_ok |].
  intros self id s Hok. exact Hok.
Qed.

Lemma to_grpc_value_extends (self : AgentService) (v : PyValue) :
  registry_extends self (to_grpc_value self v).1 /\
  client_schemas (to_grpc_value self v).1 = client_schemas self.
Proof.
  assert (Hrefl : registry_extends self self) by (split; [reflexivity | lia]).
  destruct v; cbn; try (split; [exact Hrefl | reflexivity]).
  - destruct (in_int64 z); split; (exact Hrefl || reflexivity).
  - destruct (schemas self !! to_parsing_canonical_form schema) as [id|] eqn:Hc.
    + destruct (schemaless_writer schema value); split; (exact Hrefl || reflexivity).
    + assert (Hext : registry_extends self
                (set_schemas self (schema_id self + 1)
                   (<[to_parsing_canonical_form schema := (schema_id self + 1)%Z]>
                      (schemas self)))).
      { split; [apply insert_subseteq, Hc | cbn; lia]. }
      destruct (schemaless_writer schema value); split; (exact Hext || reflexivity).
  - destruct (json_dumps (PyDict d)); split; (exact Hrefl || reflexivity).
  - destruct (json_dumps (PyList l)); split; (exact Hrefl || reflexivity).
Qed.

Lemma registry_extends_stable (self0 : AgentService) :
  stable (registry_extends self0).
Proof.
  split.
  - intros self v [Hsub Hle].
    destruct (to_grpc_value_extends self v) as [[Hsub' Hle'] _].
    split; [etransitivity; eassumption | lia].
  - intros self id s Hext. exact Hext.
Qed.

(** X1: the registry stays a one-to-one map of the registered schemas onto
    [1 .. schema_id] through every handler: no id is given to two schemas
    and none is skipped, whatever the agent and the peer do. *)
Theorem registry_invariant (w : World) (requests : list ProcessorRequest)
    (sink_requests : list SinkRequest) (events : list ReadEvent) :
  registry_ok (w_service w) ->
  registry_ok (w_service (process agent requests w).1.1) /\
  registry_ok (w_service (write agent sink_requests w).1.1) /\
  registry_ok (w_service (rs_world (rc_state (read agent w events)))).
Proof.
  intros Hok. split; [| split].
  - exact (keeps_process registry_ok requests registry_ok_stable w Hok).
  - exact (keeps_write registry_ok sink_requests registry_ok_stable w Hok).
  - exact (keeps_read registry_ok w events registry_ok_stable Hok).
Qed.

(** X2: the registry only grows: a schema registered before a handler ran
    has the same id after it, and the counter never goes down. *)
Theorem registry_append_only (w : World) (requests : list ProcessorRequest)
    (sink_requests : list SinkRequest) (events : list ReadEvent)
    (s : string) (id : Z) :
  schemas (w_service w) !! s = Some id ->
  schemas (w_service (process agent requests w).1.1) !! s = Some id /\
  schemas (w_service (write agent sink_requests w).1.1) !! s = Some id /\
  schemas (w_service (rs_world (rc_state (read agent w events)))) !! s = Some id /\
  (schema_id (w_service w) <= schema_id (w_service (process agent requests w).1.1))%Z /\
  (schema_id (w_service w) <= schema_id (w_service (write agent sink_requests w).1.1))%Z /\
  (schema_id (w_service w) <=
   schema_id (w_service (rs_world (rc_state (read agent w events)))))%Z.
Proof.
  intros Hs.
  assert (Hrefl : registry_extends (w_service w) (w_service w))
    by (split; [reflexivity | lia]).
  destruct (keeps_process _ requests (registry_extends_stable (w_service w)) w Hrefl)
    as [Hp1 Hp2].
  destruct (keeps_write _ sink_requests (registry_extends_stable (w_service w)) w Hrefl)
    as [Hw1 Hw2].
  destruct (keeps_read _ w events (registry_extends_stable (w_service w)) Hrefl)
    as [Hr1 Hr2].
  repeat split; try assumption; eapply lookup_weaken; eassumption.
Qed.

(** *** Announcements *)

Lemma to_grpc_value_m_run {O} (v : PyValue) (self : AgentService) :
  to_grpc_value_m (O := O) v self =
  ((to_grpc_value self v).1, [], (to_grpc_value self v).2).
Proof. unfold to_grpc_value_m. destruct (to_grpc_value self v). reflexivity. Qed.

Lemma utf8_round_trip (s : string) : decode_utf8 (encode_utf8 s) = s.
Proof. apply string_of_list_byte_of_string. Qed.

Lemma announced_nil (self : AgentService) : announced self [] self.
Proof.
  split; [reflexivity |]. split; [cbn; lia |]. split; [reflexivity |].
  intros x Hx. inversion Hx.
Qed.

Lemma announced_app (self self1 self2 : AgentService) (l1 l2 : list Schema) :
  announced self l1 self1 -> announced self1 l2 self2 ->
  announced self (l1 ++ l2) self2.
Proof.
  intros (Hids1 & Hn1 & Hsub1 & Hreg1) (Hids2 & Hn2 & Hsub2 & Hreg2).
  unfold announced. rewrite map_app, length_app, Nat2Z.inj_add.
  split; [| split; [| split]].
  - rewrite seqZ_app by lia. rewrite Hids1, Hids2, Hn1. do 2 f_equal. lia.
  - lia.
  - etransitivity; eassumption.
  - intros a Ha. apply elem_of_app in Ha as [Ha | Ha].
    + eapply lookup_weaken; [apply Hreg1, Ha | exact Hsub2].
    + apply Hreg2, Ha.
Qed.

Lemma to_grpc_value_announced (self : AgentService) (v : PyValue) self' a w :
  to_grpc_value self v = (self', Ok (a, w)) ->
  announced self (schema_list a) self'.
Proof.
  pose proof (announced_nil self) as Hnone.
  destruct v; cbn; try (intros [= <- <- _]; exact Hnone); try discriminate.
  - destruct (in_int64 z); [intros [= <- <- _]; exact Hnone | discriminate].
  - destruct (schemas self !! to_parsing_canonical_form schema) as [id|] eqn:Hc;
      destruct (schemaless_writer schema value); try discriminate;
      intros [= <- <- _]; [exact Hnone |].
    split; [reflexivity |]. split; [cbn; lia |].
    split; [apply insert_subseteq, Hc |].
    intros x Hx. apply list_elem_of_singleton in Hx as ->.
    cbn [Schema_value Schema_schema_id schemas set_schemas].
    rewrite utf8_round_trip. apply lookup_insert_eq.
  - destruct (json_dumps (PyDict d)); [intros [= <- <- _]; exact Hnone | discriminate].
  - destruct (json_dumps (PyList l)); [intros [= <- <- _]; exact Hnone | discriminate].
Qed.

Lemma to_grpc_headers_announced {O} (hs : list (string * PyValue)) :
  forall (self self' : AgentService) o schemas headers,
  to_grpc_headers (O := O) hs self = (self', o, Ok (schemas, headers)) ->
  announced self schemas self'.
Proof.
  induction hs as [|[name v] hs IH]; intros self self' o schemas headers.
  { intros [= <- _ <- _]. apply announced_nil. }
  cbn [to_grpc_headers]. rewrite bind_run, to_grpc_value_m_run.
  destruct (to_grpc_value self v) as [self1 [[a w]|e]] eqn:Hv; cbn [fst snd];
    [| discriminate].
  rewrite bind_run.
  destruct (to_grpc_headers hs self1) as [[self2 o2] [[schemas2 headers2]|e]] eqn:Hhs;
    [| discriminate].
  cbn. intros [= <- _ <- _].
  eapply announced_app; [eapply to_grpc_value_announced, Hv | eapply IH, Hhs].
Qed.

Lemma to_grpc_record_announced {O} (record : RecordObj)
    (self self' : AgentService) (o : list O) (schemas0 : list Schema)
    (g : GrpcRecord) :
  to_grpc_record (O := O) record self = (self', o, Ok (schemas0, g)) ->
  announced self schemas0 self'.
Proof.
  destruct record as [r|t]; [| discriminate]. cbn [to_grpc_record].
  rewrite bind_run, to_grpc_value_m_run.
  destruct (to_grpc_value self (rec_value r)) as [self1 [[a1 w1]|e]] eqn:Hv;
    cbn [fst snd]; [| discriminate].
  rewrite bind_run, to_grpc_value_m_run.
  destruct (to_grpc_value self1 (rec_key r)) as [self2 [[a2 w2]|e]] eqn:Hk;
    cbn [fst snd]; [| discriminate].
  rewrite bind_run.
  destruct (to_grpc_headers (rec_headers r) self2)
    as [[self3 o3] [[schemas3 headers3]|e]] eqn:Hh; [| discriminate].
  rewrite bind_run. unfold of_result.
  destruct (timestamp_field (rec_timestamp r)) as [timestamp|e]; [| discriminate].
  cbn. intros [= <- _ <- _].
  eapply announced_app; [eapply to_grpc_value_announced, Hv |].
  eapply announced_app; [eapply to_grpc_value_announced, Hk |].
  eapply to_grpc_headers_announced, Hh.
Qed.

(** *** Which schemas a record announces *)

Lemma first_seen_app (seen : gset string) (l1 l2 : list string) :
  first_seen seen (l1 ++ l2) =
  first_seen seen l1 ++ first_seen (seen ∪ list_to_set l1) l2.
Proof.
  revert seen. induction l1 as [|s l1 IH]; intros seen; cbn [app first_seen].
  - f_equal. set_solver.
  - destruct (decide (s ∈ seen)) as [Hin | Hnew]; rewrite IH.
    + do 2 f_equal. set_solver.
    + cbn [app]. do 3 f_equal. set_solver.
Qed.

(** The announcement of one value: its schema, when it has one that the
    registry does not know; the registry then knows it. *)
Lemma to_grpc_value_texts (self : AgentService) (v : PyValue) self' a w :
  to_grpc_value self v = (self', Ok (a, w)) ->
  map announced_text (schema_list a) =
    first_seen (dom (schemas self)) (structured_schema v) /\
  dom (schemas self') = dom (schemas self) ∪ list_to_set (structured_schema v).
Proof.
  assert (Hnone : map announced_text (schema_list None) = [] /\
                  dom (schemas self) = dom (schemas self) ∪ list_to_set [])
    by (split; [reflexivity | set_solver]).
  destruct v; cbn [to_grpc_value scalar structured_schema first_seen];
    try (intros [= <- <- _]; exact Hnone); try discriminate.
  - destruct (in_int64 z); [intros [= <- <- _]; exact Hnone | discriminate].
  - destruct (schemas self !! to_parsing_canonical_form schema) as [id|] eqn:Hc;
      destruct (schemaless_writer schema value); try discriminate;
      intros [= <- <- _].
    + assert (Hin : to_parsing_canonical_form schema ∈ dom (schemas self))
        by (apply elem_of_dom; eauto).
      destruct (decide _) as [_ | Hn]; [| contradiction].
      split; [reflexivity | set_solver].
    + assert (Hout : to_parsing_canonical_form schema ∉ dom (schemas self))
        by (apply not_elem_of_dom; exact Hc).
      destruct (decide _) as [Hin | _]; [contradiction |].
      cbn [schema_list map schemas set_schemas].
      unfold announced_text. cbn [Schema_value]. rewrite utf8_round_trip.
      split; [reflexivity |]. rewrite dom_insert_L. set_solver.
  - destruct (json_dumps (PyDict d)); [intros [= <- <- _]; exact Hnone | discriminate].
  - destruct (json_dumps (PyList l)); [intros [= <- <- _]; exact Hnone | discriminate].
Qed.

Lemma to_grpc_headers_texts {O} (hs : list (string * PyValue)) :
  forall (self self' : AgentService) o schemas0 headers,
  to_grpc_headers (O := O) hs self = (self', o, Ok (schemas0, headers)) ->
  map announced_text schemas0 =
    first_seen (dom (schemas self)) (flat_map (fun h => structured_schema h.2) hs).
Proof.
  induction hs as [|[name v] hs IH]; intros self self' o schemas0 headers.
  { intros [= _ _ <- _]. reflexivity. }
  cbn [to_grpc_headers]. rewrite bind_run, to_grpc_value_m_run.
  destruct (to_grpc_value self v) as [self1 [[a w]|e]] eqn:Hv; cbn [fst snd];
    [| discriminate].
  rewrite bind_run.
  destruct (to_grpc_headers hs self1) as [[self2 o2] [[schemas2 headers2]|e]] eqn:Hhs;
    [| discriminate].
  cbn. intros [= _ _ <- _].
  destruct (to_grpc_value_texts _ _ _ _ _ Hv) as [Ha Hdom].
  rewrite map_app, first_seen_app, Ha, (IH _ _ _ _ _ Hhs), Hdom. reflexivity.
Qed.

(** X3: when [to_grpc_record] succeeds, what it announces are the schemas
    of the record's structured values that the registry did not know, each
    once, in the order value, key, headers; the announcements carry the
    ids that follow the old counter, in a row; the counter advanced by
    exactly their number; and each announcement is filed in the registry
    under the id it carries. *)
Theorem to_grpc_record_announcements {O} (r : SimpleRecord)
    (self self' : AgentService) (o : list O) (schemas0 : list Schema)
    (g : GrpcRecord) :
  to_grpc_record (O := O) (IsRecord r) self = (self', o, Ok (schemas0, g)) ->
  map announced_text schemas0 =
    first_seen (dom (schemas self)) (structured_schemas r) /\
  map Schema_schema_id schemas0 =
    seqZ (schema_id self + 1) (Z.of_nat (length schemas0)) /\
  schema_id self' = (schema_id self + Z.of_nat (length schemas0))%Z /\
  forall a, a ∈ schemas0 ->
    schemas self' !! announced_text a = Some (Schema_schema_id a).
Proof.
  intros Hrun.
  destruct (to_grpc_record_announced _ _ _ _ _ _ Hrun) as (Hids & Hn & _ & Hreg).
  split; [| auto]. clear Hids Hn Hreg. revert Hrun.
  cbn [to_grpc_record]. rewrite bind_run, to_grpc_value_m_run.
  destruct (to_grpc_value self (rec_value r)) as [self1 [[a1 w1]|e]] eqn:Hv;
    cbn [fst snd]; [| discriminate].
  rewrite bind_run, to_grpc_value_m_run.
  destruct (to_grpc_value self1 (rec_key r)) as [self2 [[a2 w2]|e]] eqn:Hk;
    cbn [fst snd]; [| discriminate].
  rewrite bind_run.
  destruct (to_grpc_headers (rec_headers r) self2)
    as [[self3 o3] [[schemas3 headers3]|e]] eqn:Hh; [| discriminate].
  rewrite bind_run. unfold of_result.
  destruct (timestamp_field (rec_timestamp r)) as [timestamp|e]; [| discriminate].
  cbn. intros [= _ _ <- _].
  destruct (to_grpc_value_texts _ _ _ _ _ Hv) as [Ha1 Hdom1].
  destruct (to_grpc_value_texts _ _ _ _ _ Hk) as [Ha2 Hdom2].
  unfold structured_schemas.
  rewrite !map_app, !first_seen_app, Ha1, Ha2, (to_grpc_headers_texts _ _ _ _ _ _ Hh).
  rewrite Hdom2, Hdom1. do 3 f_equal; set_solver.
Qed.

(** X4: the id attached to a structured value is the id its schema is
    registered under exactly when the schema was new or was the one
    registered last. *)
Theorem avro_id_matches_registry (self self' : AgentService)
    (schema : AvroSchema) (datum : AvroDatum) (a : option Schema) (w : Value) :
  to_grpc_value self (PyAvroValue schema datum) = (self', Ok (a, Some w)) ->
  schemas self' !! to_parsing_canonical_form schema = Some (Value_schema_id w) <->
  (schemas self !! to_parsing_canonical_form schema = None \/
   schemas self !! to_parsing_canonical_form schema = Some (schema_id self)).
Proof.
  cbn. destruct (schemas self !! to_parsing_canonical_form schema) as [id|] eqn:Hc;
    destruct (schemaless_writer schema datum); try discriminate;
    intros [= <- _ <-]; cbn.
  - rewrite Hc. split; [intros [= ->]; right; reflexivity |].
    intros [Hn | [= ->]]; [discriminate | reflexivity].
  - rewrite lookup_insert_eq. split; [left; reflexivity | reflexivity].
Qed.

(** X5: when [fastavro] refuses the payload of a value whose schema is new,
    the schema is registered all the same and the announcement is lost:
    the next value of that schema goes out under the new id without any
    announcement. *)
Theorem failed_write_registers_silently (self : AgentService)
    (schema : AvroSchema) (datum datum' : AvroDatum) (e : PyExc)
    (payload : bytes) :
  schemas self !! to_parsing_canonical_form schema = None ->
  schemaless_writer schema datum = Raise e ->
  schemaless_writer schema datum' = Ok payload ->
  exists self1,
    to_grpc_value self (PyAvroValue schema datum) = (self1, Raise e) /\
    schemas self1 !! to_parsing_canonical_form schema = Some (schema_id self + 1)%Z /\
    to_grpc_value self1 (PyAvroValue schema datum') =
      (self1, Ok (None, Some (mkValue (schema_id self + 1)
                                (Some (avro_value payload))))).
Proof.
  intros Hnew Hfail Hok. eexists. cbn. rewrite Hnew, Hfail.
  split; [reflexivity |]. cbn. rewrite lookup_insert_eq, Hok.
  split; reflexivity.
Qed.

(** *** Scalars *)

Lemma scalar_kind_encode (self : AgentService) (v : PyValue) :
  scalar_kind v ->
  exists w, to_grpc_value self v = (self, Ok (None, w)) /\
    forall peer, from_grpc_value peer (Some (read_value_field w)) = Ok v.
Proof.
  destruct v; cbn; try contradiction; intros Hs;
    try (eexists; split; [reflexivity | intros peer; reflexivity]).
  rewrite Hs. eexists; split; [reflexivity | intros peer; reflexivity].
Qed.

(** X6: a wire value in one of the variants [to_grpc_value] uses for
    scalars decodes to a value that encodes to the same variant and
    payload, without announcement and without touching the registry. *)
Theorem encode_decode_scalar (peer self : AgentService) (w : Value)
    (v : TypeOneof) :
  Value_type_oneof w = Some v ->
  scalar_variant v ->
  exists d, from_grpc_value peer (Some w) = Ok d /\
    to_grpc_value self d = (self, Ok (None, Some (mkValue 0 (Some v)))).
Proof.
  intros Hw Hv. unfold from_grpc_value. rewrite Hw.
  destruct v; cbn in Hv; try contradiction;
    try (eexists; split; reflexivity).
  eexists. split; [reflexivity |]. cbn. rewrite Hv. reflexivity.
Qed.

Lemma scalar_headers_encode {O} (self : AgentService)
    (hs : list (string * PyValue)) :
  Forall (fun h => scalar_kind h.2) hs ->
  exists headers,
    to_grpc_headers (O := O) hs self = (self, [], Ok ([], headers)) /\
    forall peer, from_grpc_headers peer headers = Ok hs.
Proof.
  induction 1 as [|[name v] hs Hv _ (headers & Hrun & Hback)].
  { exists []. split; [reflexivity | intros peer; reflexivity]. }
  destruct (scalar_kind_encode self v Hv) as (w & Henc & Hdec).
  exists (mkHeader name w :: headers). split.
  - cbn [to_grpc_headers]. rewrite bind_run, to_grpc_value_m_run, Henc.
    cbn [fst snd]. rewrite bind_run, Hrun. reflexivity.
  - intros peer. cbn [from_grpc_headers Header_value Header_name].
    rewrite Hdec. cbn [Result_bind]. rewrite Hback. reflexivity.
Qed.

Lemma scalar_record_encode {O} (self : AgentService) (r : SimpleRecord) :
  scalar_record r ->
  exists g,
    to_grpc_record (O := O) (IsRecord r) self = (self, [], Ok ([], g)) /\
    GrpcRecord_record_id g = 0%Z /\
    forall peer id,
      from_grpc_record peer (set_record_id g id) =
        Ok (mkRecordWithId id (normalize_origin r)).
Proof.
  intros (Hv & Hk & Hh & Ht).
  assert (Hts : timestamp_field (rec_timestamp r) = Ok (rec_timestamp r)).
  { unfold timestamp_field. destruct (rec_timestamp r) as [t|]; [| reflexivity].
    rewrite Ht. reflexivity. }
  destruct (scalar_kind_encode self (rec_value r) Hv) as (wv & Hencv & Hdecv).
  destruct (scalar_kind_encode self (rec_key r) Hk) as (wk & Henck & Hdeck).
  destruct (scalar_headers_encode (O := O) self (rec_headers r) Hh)
    as (headers & Hench & Hdech).
  eexists. split; [| split].
  - cbn [to_grpc_record]. rewrite bind_run, to_grpc_value_m_run, Hencv.
    cbn [fst snd]. rewrite bind_run, to_grpc_value_m_run, Henck.
    cbn [fst snd]. rewrite bind_run, Hench. rewrite bind_run. unfold of_result.
    rewrite Hts. reflexivity.
  - reflexivity.
  - intros peer id. unfold from_grpc_record, set_record_id.
    cbn [GrpcRecord_value GrpcRecord_key GrpcRecord_headers GrpcRecord_origin
         GrpcRecord_timestamp GrpcRecord_record_id].
    rewrite Hdecv. cbn [Result_bind]. rewrite Hdeck. cbn [Result_bind].
    rewrite Hdech. cbn [Result_bind]. unfold normalize_origin.
    do 3 f_equal. destruct (rec_origin r) as [o|]; cbn [default]; [| reflexivity].
    reflexivity.
Qed.

(** X7: a record whose value, key and header values are scalars and whose
    timestamp, if it has one, is within the int64 range goes on the wire
    without announcement and without touching the service, and
    any peer decodes the wire record, under whatever id it was given, to
    the same value, key, headers and timestamp; the origin comes back too,
    except that an empty origin comes back as none. *)
Theorem scalar_record_round_trip {O} (self : AgentService) (r : SimpleRecord) :
  scalar_record r ->
  exists g,
    to_grpc_record (O := O) (IsRecord r) self = (self, [], Ok ([], g)) /\
    forall peer id,
      from_grpc_record peer (set_record_id g id) =
        Ok (mkRecordWithId id (normalize_origin r)).
Proof.
  intros Hr. destruct (scalar_record_encode (O := O) self r Hr) as (g & Hg & _ & Hback).
  exists g. split; assumption.
Qed.

(** ** Inbound announcements *)

(** X8: an announcement that parses replaces whatever the inbound cache
    held under its id and touches nothing else; a structured value that
    names the id is then decoded with the schema just announced. *)
Theorem announce_then_decode {O} (w : World) (s : Schema) (json : PyValue)
    (parsed : AvroSchema) (payload : bytes) :
  json_loads (decode_utf8 (Schema_value s)) = Ok json ->
  parse_schema json = Ok parsed ->
  exists w',
    apply_schema (O := O) (Some s) w = (w', [], Ok tt) /\
    client_schemas (w_service w') =
      <[Schema_schema_id s := parsed]> (client_schemas (w_service w)) /\
    schemas (w_service w') = schemas (w_service w) /\
    schema_id (w_service w') = schema_id (w_service w) /\
    w_agent w' = w_agent w /\
    from_grpc_value (w_service w')
      (Some (mkValue (Schema_schema_id s) (Some (avro_value payload)))) =
      match schemaless_reader payload parsed with
      | Ok datum => Ok (PyAvroValue parsed datum)
      | Raise e => Raise e
      end.
Proof.
  intros Hj Hp. eexists. cbn [apply_schema]. run. rewrite Hj, Hp.
  split; [reflexivity |]. cbn. rewrite lookup_insert_eq. auto.
Qed.

Lemma apply_schema_fails {O} (schema : option Schema) (e : PyExc) (w : World) :
  announcement_fails schema e ->
  apply_schema (O := O) schema w = (w, [], Raise e).
Proof.
  intros (s & -> & [Hj | (json & Hj & Hp)]); cbn [apply_schema]; run.
  - rewrite Hj. reflexivity.
  - rewrite Hj, Hp. reflexivity.
Qed.

(** X9: an announcement that does not parse ends the stream with the
    parser's exception, on [process] and on [write] alike: the records of
    that request and every later request are not handled, and nothing is
    answered for them. *)
Theorem malformed_announcement_aborts (w w1 : World) (e : PyExc) :
  (forall (pre post : list ProcessorRequest) (q : ProcessorRequest) o1,
     process agent pre w = (w1, o1, Ok tt) ->
     announcement_fails (ProcessorRequest_schema q) e ->
     process agent (pre ++ q :: post) w = (w1, o1, Raise e)) /\
  (forall (pre post : list SinkRequest) (q : SinkRequest) o1,
     write agent pre w = (w1, o1, Ok tt) ->
     announcement_fails (SinkRequest_schema q) e ->
     write agent (pre ++ q :: post) w = (w1, o1, Raise e)).
Proof.
  split; intros pre post q o1 Hpre Hbad.
  - unfold process in *. rewrite for_each_app, bind_run, Hpre, for_each_cons.
    unfold process_request at 1. rewrite bind_run, (apply_schema_fails _ e w1 Hbad).
    rewrite app_nil_r. reflexivity.
  - unfold write in *. rewrite for_each_app, bind_run, Hpre, for_each_cons.
    unfold write_request at 1. rewrite bind_run, (apply_schema_fails _ e w1 Hbad).
    rewrite app_nil_r. reflexivity.
Qed.

(** X11: a record that does not decode, for one by an unannounced schema
    id, is answered with the decoder's error under its id and never
    reaches the agent: the world is as it was. *)
Theorem undecodable_record_not_delivered (record : GrpcRecord) (w : World)
    (e : PyExc) :
  from_grpc_record (w_service w) record = Raise e ->
  process_record agent record w = (w, [error_result record e], Ok tt) /\
  write_record agent record w =
    (w, [mkSinkResponse (GrpcRecord_record_id record) (Some (str_exc e))], Ok tt).
Proof.
  intros Hdec. split.
  - unfold process_record, process_try, in_world, decode_record, yield_result,
      error_result. run. cbn [fst snd]. rewrite Hdec. reflexivity.
  - unfold write_record, decode_record. run. rewrite Hdec. reflexivity.
Qed.

(** ** The shape of the answers *)

Lemma for_each_yield {S O A} (f : A -> O) (l : list A) (s : S) :
  for_each l (fun x => yield (f x)) s = (s, map f l, Ok tt).
Proof.
  induction l as [|x l IH]; [reflexivity |].
  rewrite for_each_cons. unfold yield at 1. rewrite IH. reflexivity.
Qed.

(** The loop of [process] over the records the agent returned. *)
#[local] Abbreviation marshal_outputs items :=
  (for_each items (fun record : AgentItem =>
     '(schemas, grpc_record) ←
        in_world (on_service (to_grpc_record (wrap_in_record record)));
     for_each schemas (fun schema => yield (ProcessorResponse_schema schema));;
     modify (append_record grpc_record))).

Lemma in_world_run {O A} (m : M World O A) (f : Frame) :
  in_world m f = let '(w, o, r) := m f.1 in ((w, f.2), o, r).
Proof. reflexivity. Qed.

Lemma on_service_run {O A} (m : M AgentService O A) (w : World) :
  on_service m w =
  let '(self, o, r) := m (w_service w) in (set_service self w, o, r).
Proof. reflexivity. Qed.

Lemma decode_record_run {O} (record : GrpcRecord) (w : World) :
  decode_record (O := O) record w = (w, [], from_grpc_record (w_service w) record).
Proof. reflexivity. Qed.

Lemma await_process_run (record : RecordWithId) (w : World) :
  await_process agent record w =
  let '(a, r) := agent_process agent record (w_agent w) in
  (set_agent a w, [],
   match r with
   | Ok (ProcessValue items) => Ok items
   | Ok (ProcessFuture resolved) => resolved
   | Raise e => Raise e
   end).
Proof.
  unfold await_process. rewrite bind_run. unfold on_agent.
  destruct (agent_process agent record (w_agent w)) as [a [[items|resolved]|e]];
    reflexivity.
Qed.

Lemma marshal_outputs_shape (items : list AgentItem) (f : Frame) :
  exists f' anns r,
    marshal_outputs items f = (f', map ProcessorResponse_schema anns, r) /\
    ProcessorResult_record_id f'.2 = ProcessorResult_record_id f.2.
Proof.
  revert f. induction items as [|item items IH]; intros f.
  { exists f, [], (Ok tt). split; reflexivity. }
  rewrite for_each_cons, bind_run, in_world_run, on_service_run.
  pose proof (to_grpc_record_out (O := ProcessorResponse) (wrap_in_record item)
                (w_service f.1)) as Hout.
  destruct (to_grpc_record (wrap_in_record item) (w_service f.1))
    as [[self o] [[schemas g]|e]]; cbn in Hout; subst o.
  - cbn beta iota zeta. rewrite bind_run, for_each_yield. unfold modify at 1.
    match goal with |- context [for_each items ?b ?f1] =>
      destruct (IH f1) as (f' & anns & r & -> & Hid) end.
    exists f', (schemas ++ anns), r. split.
    + cbn. rewrite app_nil_r, map_app. reflexivity.
    + exact Hid.
  - exists (set_service self f.1, f.2), [], (Raise e). split; reflexivity.
Qed.

Lemma yield_result_run (f : Frame) :
  yield_result f = (f, [ProcessorResponse_results [f.2]], Ok tt).
Proof. reflexivity. Qed.

Lemma process_try_shape (source_record : GrpcRecord) (f : Frame) :
  exists f' anns r,
    process_try agent source_record f =
      (f', map ProcessorResponse_schema anns ++
           match r with
           | Ok _ => [ProcessorResponse_results [f'.2]]
           | Raise _ => []
           end, r) /\
    ProcessorResult_record_id f'.2 = ProcessorResult_record_id f.2.
Proof.
  unfold process_try.
  rewrite bind_run, in_world_run, decode_record_run. cbn [fst snd].
  destruct (from_grpc_record (w_service f.1) source_record) as [record|e].
  2: { exists f, [], (Raise e). destruct f. split; reflexivity. }
  rewrite bind_run, in_world_run, await_process_run. cbn [fst snd].
  destruct (agent_process agent record (w_agent f.1)) as [a x].
  assert (Hitems : forall items : list AgentItem,
    exists f' anns r,
      (marshal_outputs items ≫= fun _ => yield_result) (set_agent a f.1, f.2) =
        (f', map ProcessorResponse_schema anns ++
             match r with
             | Ok _ => [ProcessorResponse_results [f'.2]]
             | Raise _ => []
             end, r) /\
      ProcessorResult_record_id f'.2 = ProcessorResult_record_id f.2).
  { intros items. rewrite bind_run.
    destruct (marshal_outputs_shape items (set_agent a f.1, f.2))
      as (f' & anns & r & -> & Hid).
    destruct r as [[]|e].
    - rewrite yield_result_run. exists f', anns, (Ok tt). split; [reflexivity | exact Hid].
    - exists f', anns, (Raise e). rewrite app_nil_r. split; [reflexivity | exact Hid]. }
  destruct x as [[items|[items|e]]|e]; cbn beta iota zeta.
  - destruct (Hitems items) as (f' & anns & r & -> & Hid).
    exists f', anns, r. split; [reflexivity | exact Hid].
  - destruct (Hitems items) as (f' & anns & r & -> & Hid).
    exists f', anns, r. split; [reflexivity | exact Hid].
  - exists (set_agent a f.1, f.2), [], (Raise e). split; reflexivity.
  - exists (set_agent a f.1, f.2), [], (Raise e). split; reflexivity.
Qed.

Lemma process_record_shape (source_record : GrpcRecord) (w : World) :
  exists w' anns res,
    process_record agent source_record w =
      (w', map ProcessorResponse_schema anns ++ [ProcessorResponse_results [res]],
       Ok tt) /\
    ProcessorResult_record_id res = GrpcRecord_record_id source_record.
Proof.
  unfold process_record, try_except.
  match goal with |- context [process_try agent source_record ?f0] =>
    destruct (process_try_shape source_record f0) as (f' & anns & r & -> & Hid) end.
  destruct r as [[]|e].
  - exists f'.1, anns, f'.2. split; [reflexivity | exact Hid].
  - rewrite bind_run. unfold modify at 1. rewrite yield_result_run.
    eexists _, anns, _. split; [rewrite app_nil_r; reflexivity | exact Hid].
Qed.

#[local] Arguments result_ids : simpl never.

Lemma result_ids_app (o1 o2 : list ProcessorResponse) :
  result_ids (o1 ++ o2) = result_ids o1 ++ result_ids o2.
Proof. apply flat_map_app. Qed.

Lemma result_ids_schemas (anns : list Schema) :
  result_ids (map ProcessorResponse_schema anns) = [].
Proof. induction anns; [reflexivity | assumption]. Qed.

Lemma process_records_ids (records : list GrpcRecord) (w : World) :
  exists w' o,
    for_each records (process_record agent) w = (w', o, Ok tt) /\
    result_ids o = map GrpcRecord_record_id records.
Proof.
  revert w. induction records as [|r records IH]; intros w.
  { eexists _, _. split; reflexivity. }
  rewrite for_each_cons.
  destruct (process_record_shape r w) as (w1 & anns & res & -> & Hid).
  destruct (IH w1) as (w2 & o2 & -> & Hids).
  eexists _, _. split; [reflexivity |].
  rewrite !result_ids_app, result_ids_schemas, Hids.
  change (result_ids [ProcessorResponse_results [res]])
    with [ProcessorResult_record_id res].
  rewrite Hid. reflexivity.
Qed.

(** X10: on a Processor stream whose announcements parse, the results
    answer the inbound records one for one and in order: the ids of the
    results are the ids of the records received, whatever the agent did
    with each. *)
Theorem one_result_per_record (requests : list ProcessorRequest) (w : World) :
  Forall (fun q => parses (ProcessorRequest_schema q)) requests ->
  result_ids (process agent requests w).1.2 =
    map GrpcRecord_record_id (flat_map ProcessorRequest_records requests).
Proof.
  intros Hok. revert w. unfold process.
  induction Hok as [|q requests Hq _ IH]; intros w; [reflexivity |].
  rewrite for_each_cons. unfold process_request at 1. rewrite bind_run.
  destruct (apply_schema_parses (O := ProcessorResponse) _ w Hq) as (w0 & ->).
  destruct (process_records_ids (ProcessorRequest_records q) w0)
    as (w1 & o1 & -> & Hids).
  specialize (IH w1). destruct (for_each requests _ w1) as [[w2 o2] r2].
  cbn in *. rewrite result_ids_app, Hids, IH, map_app. reflexivity.
Qed.

Lemma write_record_shape (record : GrpcRecord) (w : World) :
  exists w' err,
    write_record agent record w =
      (w', [mkSinkResponse (GrpcRecord_record_id record) err], Ok tt).
Proof.
  unfold write_record, decode_record, await_write. run.
  destruct (from_grpc_record (w_service w) record) as [r|e];
    [| eexists _, _; reflexivity].
  destruct (agent_write agent r (w_agent w)) as [a [[|[[]|e]]|e]];
    eexists _, _; reflexivity.
Qed.

(** X13: on a Sink stream whose announcements parse, there is one response
    for each request that carries a record, in order and under the
    record's id, and none for a request without record. *)
Theorem one_response_per_record (requests : list SinkRequest) (w : World) :
  Forall (fun q => parses (SinkRequest_schema q)) requests ->
  map SinkResponse_record_id (write agent requests w).1.2 =
    sink_request_ids requests.
Proof.
  intros Hok. revert w. unfold write.
  induction Hok as [|q requests Hq _ IH]; intros w; [reflexivity |].
  rewrite for_each_cons. unfold write_request at 1. rewrite bind_run.
  destruct (apply_schema_parses (O := SinkResponse) _ w Hq) as (w0 & ->).
  unfold sink_request_ids. cbn [flat_map].
  destruct (SinkRequest_record q) as [record|].
  - destruct (write_record_shape record w0) as (w1 & err & ->).
    specialize (IH w1). destruct (for_each requests _ w1) as [[w2 o2] r2].
    cbn in *. rewrite IH. reflexivity.
  - cbn. specialize (IH w0). destruct (for_each requests _ w0) as [[w2 o2] r2].
    cbn in *. exact IH.
Qed.

(** ** What a Processor result carries *)

Lemma set_service_same (w : World) : set_service (w_service w) w = w.
Proof. destruct w; reflexivity. Qed.

Lemma set_record_id_same (g : GrpcRecord) :
  set_record_id g (GrpcRecord_record_id g) = g.
Proof. destruct g; reflexivity. Qed.

Lemma marshal_outputs_scalar (items : list AgentItem) :
  Forall (fun item => exists r, wraps item r) items ->
  forall f : Frame,
  exists gs,
    marshal_outputs items f =
      ((f.1, mkProcessorResult (ProcessorResult_record_id f.2)
               (ProcessorResult_error f.2) (ProcessorResult_records f.2 ++ gs)),
       [], Ok tt) /\
    Forall2 carries gs items.
Proof.
  induction 1 as [|item items (r & Hwrap & Hscalar) _ IH]; intros f.
  { exists []. rewrite app_nil_r. destruct f as [w []]. split; [reflexivity | constructor]. }
  destruct (scalar_record_encode (O := ProcessorResponse) (w_service f.1) r Hscalar)
    as (g & Hg & Hid & Hback).
  rewrite for_each_cons, bind_run, in_world_run, on_service_run, Hwrap, Hg.
  cbn beta iota zeta. rewrite bind_run, for_each_yield. unfold modify at 1.
  rewrite set_service_same.
  destruct (IH (append_record g (f.1, f.2))) as (gs & -> & Hall).
  exists (g :: gs). split.
  - cbn. rewrite <- app_assoc. reflexivity.
  - constructor; [| exact Hall]. exists r. split; [split; assumption |].
    intros peer. rewrite <- (Hback peer 0%Z), <- Hid, set_record_id_same.
    reflexivity.
Qed.

Lemma process_record_returns (source_record : GrpcRecord) (w : World)
    (record : RecordWithId) (a' : AgentState) (items : list AgentItem) :
  from_grpc_record (w_service w) source_record = Ok record ->
  process_returns agent record (w_agent w) a' items ->
  process_record agent source_record w =
    (let '(f, o, r) :=
       try_except (marshal_outputs items ≫= fun _ => yield_result)
         (fun e => modify (set_error (str_exc e));; yield_result)
         (set_agent a' w,
          mkProcessorResult (GrpcRecord_record_id source_record) None []) in
     (f.1, o, r)).
Proof.
  intros Hdec Hret. unfold process_record, try_except, process_try.
  rewrite bind_run, in_world_run, decode_record_run. cbn [fst snd]. rewrite Hdec.
  rewrite bind_run, in_world_run, await_process_run. cbn [fst snd].
  destruct Hret as [-> | ->]; cbn beta iota zeta;
    match goal with |- context [mbind ?k ?m ?f0] =>
      destruct (mbind k m f0) as [[f1 o1] r1] end;
    reflexivity.
Qed.

(** X12: when the agent returns records made of scalars, their
    timestamps within the int64 range, the result for the inbound record
    carries no error and one wire record per returned
    record, in order, each decoding back to the record it stands for;
    nothing is announced and the service is untouched. *)
Theorem process_result_carries_outputs (source_record : GrpcRecord) (w : World)
    (record : RecordWithId) (a' : AgentState) (items : list AgentItem) :
  from_grpc_record (w_service w) source_record = Ok record ->
  process_returns agent record (w_agent w) a' items ->
  Forall (fun item => exists r, wraps item r) items ->
  exists gs,
    process_record agent source_record w =
      (set_agent a' w,
       [ProcessorResponse_results
          [mkProcessorResult (GrpcRecord_record_id source_record) None gs]],
       Ok tt) /\
    Forall2 carries gs items.
Proof.
  intros Hdec Hret Hitems.
  rewrite (process_record_returns _ _ _ _ _ Hdec Hret). unfold try_except.
  rewrite bind_run.
  destruct (marshal_outputs_scalar items Hitems
              (set_agent a' w,
               mkProcessorResult (GrpcRecord_record_id source_record) None []))
    as (gs & -> & Hall).
  exists gs. split; [reflexivity | exact Hall].
Qed.


(** ** Source: what is tracked *)

Lemma tracks_more_same (s s' : ReadState) :
  last_record_id s' = last_record_id s ->
  read_records s' = read_records s ->
  tracks_more s s' 0.
Proof.
  intros Hl Hr. unfold tracks_more. rewrite Hl, Hr. split; [cbn; lia |].
  split; [intros id r Hid; left; exact Hid |].
  intros id [Hid | Hid]; [exact Hid | lia].
Qed.

Lemma marshal_records_all_records (records : list RecordObj) (s : ReadState)
    (gs : list GrpcRecord) :
  (marshal_records records s).2 = Ok gs ->
  Forall (fun r => exists record, r = IsRecord record) records.
Proof.
  revert s gs. induction records as [|record records IH]; intros s gs; [constructor |].
  cbn [marshal_records]. rewrite bind_run. unfold in_read_world, on_service, zoom.
  destruct record as [r|t]; [| discriminate].
  destruct (to_grpc_record (IsRecord r) (w_service (rs_world s)))
    as [[self o] [[schemas g]|e]]; [| discriminate].
  rewrite bind_run, (yield_schemas_run schemas). rewrite bind_run.
  match goal with |- context [marshal_records records ?s1] =>
    specialize (IH s1); destruct (marshal_records records s1) as [[s2 o2] [gs2|e]] end;
    [| discriminate].
  intros _. constructor; [eauto | eapply IH; reflexivity].
Qed.

Lemma assign_record_ids_tracks (records : list RecordObj) :
  forall (gs : list GrpcRecord) (s : ReadState),
  length gs = length records ->
  Forall (fun r => exists record, r = IsRecord record) records ->
  exists s' gs',
    assign_record_ids (O := SourceResponse) records gs s = (s', [], Ok gs') /\
    tracks_more s s' (length records) /\
    rs_world s' = rs_world s /\ op_result s' = op_result s.
Proof.
  induction records as [|record records IH]; intros gs s Hlen Hrecs.
  { exists s, gs. split; [reflexivity |].
    split; [apply tracks_more_same; reflexivity | split; reflexivity]. }
  destruct gs as [|g gs]; [discriminate |]. injection Hlen as Hlen.
  apply Forall_cons in Hrecs as [Hrec Hrecs].
  cbn [assign_record_ids]. run.
  destruct (IH gs (track record s) Hlen Hrecs)
    as (s' & gs' & -> & (Hlast & Hsub & Hsup) & Hw & Hop).
  eexists _, _. split; [reflexivity |]. unfold track in *.
  cbn [last_record_id read_records rs_world op_result length] in *.
  split; [| split; assumption]. split; [lia |]. split.
  - intros id r Hid. destruct (Hsub id r Hid) as [Hold | [Hrange Hr]].
    + apply lookup_insert_Some in Hold as [[<- <-] | [_ Hold]].
      * right. split; [lia | exact Hrec].
      * left. exact Hold.
    + right. split; [lia | exact Hr].
  - intros id Hid. apply Hsup.
    destruct (decide (id = last_record_id s + 1)%Z) as [-> | Hne].
    + left. rewrite lookup_insert_eq. eauto.
    + destruct Hid as [Hid | Hid].
      * left. rewrite lookup_insert_ne by congruence. exact Hid.
      * right. lia.
Qed.

(** One turn of the emit loop only adds to what is tracked. *)
Lemma read_iteration_tracks (s : ReadState) :
  exists n, tracks_more s (read_iteration agent s).1.1 n /\
    op_result (read_iteration agent s).1.1 = op_result s.
Proof.
  assert (Hsame : forall (s' : ReadState),
            last_record_id s' = last_record_id s ->
            read_records s' = read_records s -> op_result s' = op_result s ->
            exists n, tracks_more s s' n /\ op_result s' = op_result s).
  { intros s' Hl Hr Hop. exists 0. split; [apply tracks_more_same |]; assumption. }
  unfold read_iteration, in_read_world. run.
  destruct (op_result s) as [|[|e] ops] eqn:Hop;
    try (apply Hsame; cbn; congruence).
  destruct (agent_read agent (w_agent (rs_world s))) as [a [items|e]];
    [| apply Hsame; cbn; congruence].
  destruct items as [|item items]; [apply Hsame; cbn; congruence |].
  set (records := map wrap_in_record (item :: items)).
  match goal with |- context [marshal_records records ?s1] => set (s0 := s1) end.
  destruct (marshal_records_spec records s0) as (_ & Hl & Hr & Hop0 & Hlen).
  pose proof (marshal_records_all_records records s0) as Hall.
  destruct (marshal_records records s0) as [[s1 o1] [gs|e]];
    cbn [fst snd] in Hl, Hr, Hop0, Hlen, Hall;
    [| apply Hsame; subst s0; cbn in *; congruence].
  destruct (assign_record_ids_tracks records gs s1 (Hlen gs eq_refl) (Hall gs eq_refl))
    as (s2 & gs' & -> & (Hlast & Hsub & Hsup) & Hw & Hop2).
  exists (length records). cbn [fst snd]. subst s0.
  cbn [last_record_id read_records op_result] in *.
  split; [| congruence].
  unfold tracks_more. rewrite <- Hl, <- Hr. auto.
Qed.

Lemma ack_of_event_records (ev : ReadEvent) (s : ReadState) :
  last_record_id (ack_of_event agent ev s).1.1 = last_record_id s /\
  (ack_of_event agent ev s).1.2 = [] /\
  read_records (ack_of_event agent ev s).1.1 =
    match ev with
    | EvCommit record_id => delete record_id (read_records s)
    | EvPermanentFailure failure =>
      delete (PermanentFailure_record_id failure) (read_records s)
    | _ => read_records s
    end /\
  (ev <> EvEndOfRequests -> op_result (ack_of_event agent ev s).1.1 = op_result s).
Proof.
  destruct ev as [| record_id | failure |]; cbn [ack_of_event].
  - repeat split.
  - rewrite commit_record_run. destruct (read_records s !! record_id) eqn:Hin.
    + destruct (call_method_if_exists _ _ _ _ _) as [[w o] x]. repeat split.
    + cbn. rewrite delete_id by assumption. repeat split.
  - rewrite report_permanent_failure_run.
    destruct (call_method_if_exists _ _ _ _ _) as [[w o] x]. repeat split.
  - repeat split. intros Hne. contradiction.
Qed.

(** An acknowledgement step removes at most the id it names. *)
Lemma ack_step_records (ev : ReadEvent) (c : ReadCall) :
  let c' := ack_step (ack_of_event agent ev) c in
  last_record_id (rc_state c') = last_record_id (rc_state c) /\
  rc_out c' = rc_out c /\ rc_emit c' = rc_emit c /\
  (forall id r, read_records (rc_state c') !! id = Some r ->
     read_records (rc_state c) !! id = Some r) /\
  (forall id, ~ names_id id ev -> is_Some (read_records (rc_state c) !! id) ->
     is_Some (read_records (rc_state c') !! id)).
Proof.
  cbn zeta. unfold ack_step. destruct (op_result (rc_state c)); [| auto 10].
  unfold try_except.
  destruct (ack_of_event_records ev (rc_state c)) as (Hl & Ho & Hr & _).
  destruct (ack_of_event agent ev (rc_state c)) as [[s o] [[]|e]];
    cbn [fst snd] in *; subst o; cbn; rewrite app_nil_r, Hr;
    (split; [exact Hl |]); (split; [reflexivity |]); (split; [reflexivity |]);
    (split; [intros id r | intros id Hn]);
    destruct ev as [| record_id | failure |]; cbn in *; auto;
    try (rewrite lookup_delete_Some; tauto);
    try (rewrite lookup_delete_is_Some; intros Hs; split; [congruence | exact Hs]).
Qed.

Lemma read_step_tracked (c : ReadCall) (ev : ReadEvent) :
  let c' := read_step agent c ev in
  (last_record_id (rc_state c) <= last_record_id (rc_state c'))%Z /\
  (forall id r, read_records (rc_state c') !! id = Some r ->
     read_records (rc_state c) !! id = Some r \/
     ((last_record_id (rc_state c) < id <= last_record_id (rc_state c'))%Z /\
      exists record, r = IsRecord record)) /\
  (forall id, ~ names_id id ev ->
     is_Some (read_records (rc_state c) !! id) \/
     (last_record_id (rc_state c) < id <= last_record_id (rc_state c'))%Z ->
     is_Some (read_records (rc_state c') !! id)).
Proof.
  cbn zeta.
  assert (Hack : is_ack ev ->
    (last_record_id (rc_state c) <=
     last_record_id (rc_state (ack_step (ack_of_event agent ev) c)))%Z /\
    (forall id r,
       read_records (rc_state (ack_step (ack_of_event agent ev) c)) !! id = Some r ->
       read_records (rc_state c) !! id = Some r \/
       ((last_record_id (rc_state c) < id <=
         last_record_id (rc_state (ack_step (ack_of_event agent ev) c)))%Z /\
        exists record, r = IsRecord record)) /\
    (forall id, ~ names_id id ev ->
       is_Some (read_records (rc_state c) !! id) \/
       (last_record_id (rc_state c) < id <=
        last_record_id (rc_state (ack_step (ack_of_event agent ev) c)))%Z ->
       is_Some (read_records (rc_state (ack_step (ack_of_event agent ev) c)) !! id))).
  { intros _. destruct (ack_step_records ev c) as (Hl & _ & _ & Hsub & Hsup).
    rewrite Hl. split; [lia |]. split.
    - intros id r Hid. left. apply Hsub, Hid.
    - intros id Hn [Hid | Hid]; [apply Hsup; assumption | lia]. }
  destruct ev as [| record_id | failure |];
    try (rewrite read_step_ack by exact I; apply Hack; exact I).
  cbn [read_step]. unfold emit_step.
  destruct (rc_emit c);
    try (split; [lia |]; split; [intros id r Hid; left; exact Hid |];
         intros id _ [Hid | Hid]; [exact Hid | lia]).
  destruct (read_iteration_tracks (rc_state c)) as (n & (Hl & Hsub & Hsup) & _).
  destruct (read_iteration agent (rc_state c)) as [[s o] x].
  cbn [fst snd rc_state] in *. rewrite Hl.
  split; [lia |]. split; [exact Hsub | intros id _; apply Hsup].
Qed.

(** *** The record a commit passes is the one [agent.read] returned *)

Lemma assign_record_ids_stores (records : list RecordObj) :
  forall (gs : list GrpcRecord) (s : ReadState),
  length gs = length records ->
  exists s' gs',
    assign_record_ids (O := SourceResponse) records gs s = (s', [], Ok gs') /\
    forall (k : nat) (r : RecordObj), records !! k = Some r ->
      read_records s' !! (last_record_id s + 1 + Z.of_nat k)%Z = Some r.
Proof.
  assert (Hold : forall records (gs : list GrpcRecord) (s : ReadState) id,
            (id <= last_record_id s)%Z ->
            read_records (assign_record_ids (O := SourceResponse) records gs s).1.1
              !! id = read_records s !! id).
  { clear. induction records as [|record records IH]; intros gs s id Hid;
      [reflexivity |].
    destruct gs as [|g gs]; [reflexivity |]. cbn [assign_record_ids]. run.
    specialize (IH gs (track record s) id).
    destruct (assign_record_ids records gs (track record s)) as [[s1 o1] [x|e]];
      cbn [fst snd] in *; (rewrite IH by (cbn; lia));
      apply lookup_insert_ne; lia. }
  induction records as [|record records IH]; intros gs s Hlen.
  { exists s, gs. split; [reflexivity |]. intros k r Hk. discriminate. }
  destruct gs as [|g gs]; [discriminate |]. injection Hlen as Hlen.
  cbn [assign_record_ids]. run.
  pose proof (Hold records gs (track record s) (last_record_id s + 1)%Z) as Hhead.
  destruct (IH gs (track record s) Hlen) as (s' & gs' & Hrun & Hnew).
  rewrite Hrun in *. cbn [fst snd] in Hhead.
  eexists _, _. split; [reflexivity |]. intros [|k] r Hk.
  - injection Hk as <-. replace (last_record_id s + 1 + Z.of_nat 0)%Z
      with (last_record_id s + 1)%Z by lia.
    rewrite Hhead by (cbn; lia). apply lookup_insert_eq.
  - specialize (Hnew k r Hk). cbn [track last_record_id] in Hnew.
    replace (last_record_id s + 1 + Z.of_nat (S k))%Z
      with (last_record_id s + 1 + 1 + Z.of_nat k)%Z by lia.
    exact Hnew.
Qed.

(** A turn of the emit loop that completes puts the batch on the wire
    under the next ids and tracks each record [agent.read] returned, as
    wrapped by [wrap_in_record], under the id of its place in the batch. *)
Lemma read_iteration_stores (s : ReadState) (a : AgentState)
    (items : list AgentItem) :
  op_result s = [] ->
  agent_read agent (w_agent (rs_world s)) = (a, Ok items) ->
  (read_iteration agent s).2 = Ok Continue ->
  emitted_ids (read_iteration agent s).1.2 =
    seqZ (last_record_id s + 1) (Z.of_nat (length items)) /\
  last_record_id (read_iteration agent s).1.1 =
    (last_record_id s + Z.of_nat (length items))%Z /\
  forall (k : nat) (item : AgentItem), items !! k = Some item ->
    read_records (read_iteration agent s).1.1
      !! (last_record_id s + 1 + Z.of_nat k)%Z = Some (wrap_in_record item).
Proof.
  intros Halive Hread. unfold read_iteration, in_read_world. run.
  rewrite Halive, Hread. destruct items as [|item items].
  { intros _. cbn. split; [reflexivity |]. split; [lia |]. intros k x Hk. discriminate. }
  set (records := map wrap_in_record (item :: items)).
  match goal with |- context [marshal_records records ?s1] => set (s0 := s1) end.
  destruct (marshal_records_spec records s0) as (Ho & Hl & _ & _ & Hlen).
  destruct (marshal_records records s0) as [[s1 o1] [gs|e]]; cbn in Ho, Hl, Hlen;
    [| discriminate].
  destruct (assign_record_ids_spec records gs s1 (Hlen gs eq_refl))
    as (s2 & gs' & Hrun & Hids & Hlast & _).
  destruct (assign_record_ids_stores records gs s1 (Hlen gs eq_refl))
    as (s2' & gs'' & Hrun' & Hstore).
  rewrite Hrun in Hrun'. injection Hrun' as <- <-. rewrite Hrun. intros _.
  assert (Hn : length records = length (item :: items)) by apply length_map.
  cbn [fst snd app]. rewrite emitted_ids_app, Ho. cbn [app].
  change (emitted_ids [SourceResponse_records gs'])
    with (map GrpcRecord_record_id gs' ++ []).
  rewrite app_nil_r, Hids, Hlast, Hl, Hn.
  subst s0. cbn [last_record_id]. split; [reflexivity |]. split; [reflexivity |].
  intros k x Hk. cbn [last_record_id] in Hl. rewrite <- Hl. apply Hstore.
  unfold records. rewrite list_lookup_fmap, Hk. reflexivity.
Qed.

(** An entry stays as it is while no event names its id. *)
Lemma read_steps_keep_entry (evs : list ReadEvent) :
  forall (c : ReadCall) (id : Z) (r : RecordObj),
  read_records (rc_state c) !! id = Some r ->
  (id <= last_record_id (rc_state c))%Z ->
  Forall (fun ev => ~ names_id id ev) evs ->
  read_records (rc_state (fold_left (read_step agent) evs c)) !! id = Some r.
Proof.
  induction evs as [|ev evs IH]; intros c id r Hin Hle Hno; [exact Hin |].
  apply Forall_cons in Hno as [Hev Hno]. cbn [fold_left].
  destruct (read_step_tracked c ev) as (Hmono & Hsub & Hsup).
  apply IH; [| lia | exact Hno].
  destruct (Hsup id Hev (or_introl (mk_is_Some _ _ Hin))) as [r' Hr'].
  destruct (Hsub id r' Hr') as [Hold | [Hrange _]]; [congruence | lia].
Qed.

Lemma commit_tracked (c : ReadCall) (record_id : Z) (record : RecordObj) :
  read_records (rc_state c) !! record_id = Some record ->
  op_result (rc_state c) = [] ->
  commit_passes agent c record_id record.
Proof.
  intros Hin Halive. unfold commit_passes. cbn zeta. cbn [read_step].
  unfold ack_step, try_except. rewrite Halive, commit_record_run, Hin.
  unfold call_method_if_exists.
  destruct (agent_attrs agent "commit") as [[m|o]|] eqn:Hattr;
    [| cbn; (split; [reflexivity |]); (split; [apply app_nil_r |]); discriminate ..].
  destruct (decide (length [ObjRecord record] <= length (signature_parameters m)))
    as [Hle|Hgt]; rewrite invoke_run; cbn zeta; cbn [w_agent add_call].
  - destruct (call m [ObjRecord record] [] (w_agent (rs_world (rc_state c))))
      as [a [x|e]] eqn:Hcall;
      cbn; (split; [reflexivity |]); (split; [apply app_nil_r |]);
      intros m' [= <-] _; rewrite Hcall; split; reflexivity.
  - destruct (call m _ [] (w_agent (rs_world (rc_state c)))) as [a [x|e]];
      cbn; (split; [reflexivity |]); (split; [apply app_nil_r |]);
      intros m' [= <-] Hm'; cbn in Hgt; lia.
Qed.

(** C1: in every run of a [read] call, from any state of the service,
    the record ids put on the wire are 1, 2, ..., [last_record_id] in
    this order, the i-th (from 0) being i + 1: each call counts from 1 on
    its own. Committing an id that is tracked removes that entry and no
    other, and calls the agent's [commit] hook, when it takes a parameter,
    once with the record stored under the id. That record is the one the
    agent returned: when a turn of the emit loop gets [items] from
    [agent.read] and completes, the batch goes out under the next
    [length items] ids, and a later commit of the id of the k-th place,
    whatever happened in between that did not name this id, passes the
    k-th item (as [wrap_in_record] hands it on) to the hook. *)
Theorem read_correlation (w : World) (events : list ReadEvent) :
  let c := read agent w events in
  emitted_ids (rc_out c) = seqZ 1 (last_record_id (rc_state c)) /\
  (forall (i : nat) (id : Z),
     emitted_ids (rc_out c) !! i = Some id -> id = (1 + Z.of_nat i)%Z) /\
  (forall (record_id : Z) (record : RecordObj),
     read_records (rc_state c) !! record_id = Some record ->
     op_result (rc_state c) = [] ->
     commit_passes agent c record_id record) /\
  forall (a : AgentState) (items : list AgentItem) (k : nat) (item : AgentItem)
         (later : list ReadEvent),
    rc_emit c = Emitting ->
    op_result (rc_state c) = [] ->
    agent_read agent (w_agent (rs_world (rc_state c))) = (a, Ok items) ->
    items !! k = Some item ->
    let record_id := (last_record_id (rc_state c) + 1 + Z.of_nat k)%Z in
    let c1 := read_step agent c EvIteration in
    rc_emit c1 = Emitting ->
    Forall (fun ev => ~ names_id record_id ev) later ->
    let c2 := fold_left (read_step agent) later c1 in
    op_result (rc_state c2) = [] ->
    emitted_ids (rc_out c1) =
      emitted_ids (rc_out c) ++
      seqZ (last_record_id (rc_state c) + 1) (Z.of_nat (length items)) /\
    read_records (rc_state c2) !! record_id = Some (wrap_in_record item) /\
    commit_passes agent c2 record_id (wrap_in_record item).
Proof.
  intros c. split; [apply read_sequential |]. split.
  { intros i id. unfold c. rewrite (proj2 (read_sequential w events)).
    intros Hi. apply lookup_seqZ in Hi. tauto. }
  split; [intros record_id record; apply commit_tracked |].
  intros a items k item later Hemit Halive Hread Hk record_id c1 Hemit1 Hno c2
    Halive2.
  assert (Hturn : (read_iteration agent (rc_state c)).2 = Ok Continue /\
                  rc_state c1 = (read_iteration agent (rc_state c)).1.1 /\
                  rc_out c1 = rc_out c ++ (read_iteration agent (rc_state c)).1.2).
  { subst c1. cbn [read_step] in *. unfold emit_step in *. rewrite Hemit in *.
    destruct (read_iteration agent (rc_state c)) as [[s1 o1] [[|]|e]];
      cbn in Hemit1; try discriminate. repeat split. }
  destruct Hturn as (Hok & Hstate & Hout).
  destruct (read_iteration_stores (rc_state c) a items Halive Hread Hok)
    as (Hids & Hlast & Hstore).
  assert (Hin : read_records (rc_state c2) !! record_id =
                Some (wrap_in_record item)).
  { apply read_steps_keep_entry; [| | exact Hno].
    - rewrite Hstate. apply Hstore, Hk.
    - rewrite Hstate, Hlast. apply lookup_lt_Some in Hk. unfold record_id. lia. }
  split; [rewrite Hout, emitted_ids_app, Hids; reflexivity |].
  split; [exact Hin |]. apply commit_tracked; assumption.
Qed.

(** X15: in every run of [read], whatever is tracked is a record, and its
    id is one of the ids that went out on the wire. *)
Theorem tracked_ids_were_emitted (w : World) (events : list ReadEvent)
    (id : Z) (r : RecordObj) :
  let c := read agent w events in
  read_records (rc_state c) !! id = Some r ->
  id ∈ emitted_ids (rc_out c) /\ exists record, r = IsRecord record.
Proof.
  cbn zeta. intros Hid.
  assert (Hinv : (1 <= id <= last_record_id (rc_state (read agent w events)))%Z /\
                 exists record, r = IsRecord record).
  { revert id r Hid. unfold read.
    induction events as [|ev events IH] using rev_ind; intros id r Hid.
    { cbn in Hid. rewrite lookup_empty in Hid. discriminate. }
    rewrite fold_left_app in *. cbn [fold_left] in *.
    destruct (read_step_tracked (fold_left (read_step agent) events (read_init w)) ev)
      as (Hle & Hsub & _).
    destruct (Hsub id r Hid) as [Hold | [Hrange Hr]].
    - destruct (IH id r Hold) as [Hrange Hr]. split; [lia | exact Hr].
    - split; [| exact Hr].
      assert (0 <= last_record_id
                     (rc_state (fold_left (read_step agent) events (read_init w))))%Z
        by apply (read_sequential w events).
      lia. }
  destruct Hinv as [Hrange Hr]. split; [| exact Hr].
  rewrite (proj2 (read_sequential w events)). apply elem_of_seqZ. lia.
Qed.

(** X16: a record stays tracked until it is acknowledged: in every run of
    [read], an id that went out on the wire and that no commit or failure
    message has named is still in the map. *)
Theorem unacknowledged_stays_tracked (w : World) (events : list ReadEvent)
    (id : Z) :
  let c := read agent w events in
  id ∈ emitted_ids (rc_out c) ->
  Forall (fun ev => ~ names_id id ev) events ->
  is_Some (read_records (rc_state c) !! id).
Proof.
  cbn zeta. intros Hid.
  rewrite (proj2 (read_sequential w events)) in Hid. apply elem_of_seqZ in Hid.
  assert (Hrange : (1 <= id <= last_record_id (rc_state (read agent w events)))%Z)
    by lia.
  clear Hid. revert Hrange. unfold read.
  induction events as [|ev events IH] using rev_ind; intros Hrange Hnone.
  { cbn in Hrange. lia. }
  apply Forall_app in Hnone as [Hnone Hev].
  apply Forall_cons in Hev as [Hev _].
  rewrite fold_left_app in *. cbn [fold_left] in *.
  destruct (read_step_tracked (fold_left (read_step agent) events (read_init w)) ev)
    as (Hle & _ & Hsup).
  apply Hsup; [exact Hev |].
  destruct (decide (id <= last_record_id
              (rc_state (fold_left (read_step agent) events (read_init w))))%Z)
    as [Hold | Hnew].
  - left. apply IH; [lia | exact Hnone].
  - right. lia.
Qed.

(** ** Source: how a [read] call ends *)





Lemma marshal_records_not_record (records : list RecordObj) (s : ReadState)
    (t : string) :
  NotRecord t ∈ records -> exists e, (marshal_records records s).2 = Raise e.
Proof.
  intros Hin. destruct (marshal_records records s).2 as [gs|e] eqn:Hm; [| eauto].
  apply marshal_records_all_records in Hm.
  rewrite Forall_forall in Hm. destruct (Hm _ Hin) as [record Hr]. discriminate.
Qed.

(** X19: a batch is emitted whole or not at all: when one item that
    [agent.read] returned is not a record, the call fails and no record of
    the batch is put on the wire or tracked, and the id counter stays. *)
Theorem bad_batch_is_dropped (c : ReadCall) (a : AgentState)
    (items : list AgentItem) (t : string) :
  rc_emit c = Emitting ->
  op_result (rc_state c) = [] ->
  agent_read agent (w_agent (rs_world (rc_state c))) = (a, Ok items) ->
  ItemOther t ∈ items ->
  let c' := read_step agent c EvIteration in
  (exists e, rc_emit c' = Emit_failed e) /\
  emitted_ids (rc_out c') = emitted_ids (rc_out c) /\
  read_records (rc_state c') = read_records (rc_state c) /\
  last_record_id (rc_state c') = last_record_id (rc_state c).
Proof.
  intros Hemit Halive Hread Hin. cbn zeta. cbn [read_step].
  unfold emit_step. rewrite Hemit. unfold read_iteration, in_read_world. run.
  rewrite Halive, Hread. destruct items as [|item items]; [inversion Hin |].
  set (records := map wrap_in_record (item :: items)).
  match goal with |- context [marshal_records records ?s1] => set (s0 := s1) end.
  assert (Hbad : NotRecord t ∈ records).
  { apply (list_elem_of_fmap_2 wrap_in_record) in Hin. exact Hin. }
  destruct (marshal_records_not_record records s0 t Hbad) as [e He].
  destruct (marshal_records_spec records s0) as (Ho & Hl & Hr & _ & _).
  destruct (marshal_records records s0) as [[s1 o1] x]. cbn [fst snd] in *.
  subst x. cbn. rewrite emitted_ids_app, Ho, app_nil_r.
  split; [eauto |]. split; [reflexivity |]. subst s0. cbn in *. auto.
Qed.

(** ** Source: the acknowledgement task *)

Lemma acks_run (evs : list ReadEvent) :
  Forall (fun ev => ev <> EvEndOfRequests) evs ->
  forall s : ReadState,
  exists s' r,
    for_each evs (ack_of_event agent) s = (s', [], r) /\
    op_result s' = op_result s /\ last_record_id s' = last_record_id s.
Proof.
  induction 1 as [|ev evs Hne _ IH]; intros s.
  { exists s, (Ok tt). repeat split. }
  rewrite for_each_cons.
  destruct (ack_of_event_records ev s) as (Hl & Ho & _ & Hop).
  specialize (Hop Hne).
  destruct (ack_of_event agent ev s) as [[s1 o1] [[]|e]]; cbn [fst snd] in *; subst o1.
  - destruct (IH s1) as (s' & r & -> & Hop' & Hl').
    exists s', r. split; [reflexivity | split; congruence].
  - exists s1, (Raise e). repeat split; assumption.
Qed.

(** X20: [handle_read_requests] never raises and yields nothing: whatever
    the hooks do, it ends by appending exactly one outcome to
    [read_result], [True] or the exception of a hook. *)
Theorem handle_read_requests_reports_once (requests : list SourceRequest)
    (s : ReadState) :
  exists s' x,
    handle_read_requests (O := SourceResponse) agent requests s =
      (s', [], Ok tt) /\
    op_result s' = op_result s ++ [x] /\
    last_record_id s' = last_record_id s.
Proof.
  unfold handle_read_requests, try_except. rewrite bind_run.
  rewrite handle_requests_events.
  destruct (acks_run (flat_map request_events requests)) with (s := s)
    as (s1 & r & -> & Hop & Hl).
  { eapply Forall_impl; [apply request_events_acks |]. intros ev [_ Hne]. exact Hne. }
  destruct r as [[]|e]; cbn.
  - eexists _, OpTrue. rewrite Hop. repeat split. exact Hl.
  - eexists _, (OpException e). rewrite Hop. repeat split. exact Hl.
Qed.

(** X21: the first hook that raises stops the acknowledgement task: the
    rest of that request and all later requests are not handled, so the
    records they name stay tracked, and the exception is what the task
    reports. *)
Theorem failing_hook_stops_acknowledgements (pre post : list SourceRequest)
    (q : SourceRequest) (s s1 s2 : ReadState) (o1 o2 : list SourceResponse)
    (e : PyExc) :
  for_each pre (handle_request agent) s = (s1, o1, Ok tt) ->
  handle_request agent q s1 = (s2, o2, Raise e) ->
  (handle_read_requests (O := SourceResponse) agent (pre ++ q :: post) s).1.1 =
    failed_with e s2 /\
  (handle_read_requests (O := SourceResponse) agent (pre ++ q :: post) s).2 =
    Ok tt.
Proof.
  intros Hpre Hq. unfold handle_read_requests, try_except.
  rewrite bind_run, for_each_app, bind_run, Hpre, for_each_cons, Hq.
  split; reflexivity.
Qed.

(** X22: committing is idempotent: after a commit of an id, whether its
    hook returned or raised, a second commit of the same id changes
    nothing and calls nothing. *)
Theorem commit_is_idempotent (record_id : Z) (s : ReadState) :
  let s1 := (commit_record (O := SourceResponse) agent record_id s).1.1 in
  commit_record (O := SourceResponse) agent record_id s1 = (s1, [], Ok tt).
Proof.
  cbn zeta. apply commit_record_unknown.
  destruct (ack_of_event_records (EvCommit record_id) s) as (_ & _ & Hr & _).
  cbn [ack_of_event] in Hr. rewrite Hr. apply lookup_delete_eq.
Qed.

(** ** Dispatch *)

(** When the callable declares at least as many parameters as there are
    arguments, the helper makes exactly one call, with all the arguments,
    and its outcome, value or exception, is the call's. *)
Lemma call_method_if_exists_passes_all {O} (klass : Klass) (method : string)
    (m : PyCallable) (args : list PyObj) (kwargs : list (string * PyObj))
    (w : World) :
  klass method = Some (Callable m) ->
  length args <= length (signature_parameters m) ->
  call_method_if_exists (O := O) klass method args kwargs w =
    (set_agent (call m args kwargs (w_agent w)).1
       (add_call (mkInvocation method args kwargs) w),
     [], (call m args kwargs (w_agent w)).2).
Proof.
  intros Hattr Hle. unfold call_method_if_exists. rewrite Hattr.
  destruct (decide _) as [_|Hn]; [| contradiction].
  rewrite invoke_run. cbn zeta.
  destruct (call m args kwargs _) as [a r]. reflexivity.
Qed.

(** ** The class path *)

Lemma str_split_no_sep (sep : ascii) (s : string) :
  ~ In sep (list_ascii_of_string s) -> str_split sep s = [s].
Proof.
  induction s as [|c s IH]; [reflexivity |]. cbn. intros Hno.
  destruct (decide (c = sep)) as [-> | _]; [tauto |].
  rewrite IH by tauto. reflexivity.
Qed.

Lemma append_nil_l (s : string) : (EmptyString ++ s)%string = s.
Proof. reflexivity. Qed.

Lemma append_cons (x : ascii) (a b : string) :
  (String x a ++ b)%string = String x (a ++ b).
Proof. reflexivity. Qed.

Lemma str_split_last (sep : ascii) (m c : string) :
  ~ In sep (list_ascii_of_string c) ->
  exists p pre, str_split sep (m ++ String sep c) = (p :: pre) ++ [c].
Proof.
  intros Hno. induction m as [|x m (p & pre & IH)].
  - rewrite append_nil_l. cbn [str_split].
    destruct (decide (sep = sep)); [| congruence].
    rewrite str_split_no_sep by assumption. exists EmptyString, []. reflexivity.
  - rewrite append_cons. cbn [str_split]. destruct (decide (x = sep)).
    + rewrite IH. exists EmptyString, (p :: pre). reflexivity.
    + rewrite IH. cbn. exists (String x p), pre. reflexivity.
Qed.

Lemma length_append (a b : string) :
  String.length (a ++ b) = String.length a + String.length b.
Proof.
  induction a as [|x a IH]; [reflexivity |].
  rewrite append_cons. cbn [String.length]. rewrite IH. reflexivity.
Qed.

Lemma substring_prefix (a b : string) :
  substring 0 (String.length a) (a ++ b) = a.
Proof.
  induction a as [|x a IH].
  - rewrite append_nil_l. destruct b; reflexivity.
  - rewrite append_cons. cbn [String.length substring]. rewrite IH. reflexivity.
Qed.

(** X23: [init_agent] splits a dotted path at its last dot into the module
    name and the class name; a path without dot gives the class name and
    an empty module name. *)
Theorem init_agent_names_split (module_name class_name : string) :
  ~ In "."%char (list_ascii_of_string class_name) ->
  init_agent_names (module_name ++ String "."%char class_name) =
    (module_name, class_name) /\
  init_agent_names class_name = (EmptyString, class_name).
Proof.
  intros Hno. unfold init_agent_names, str_drop_last. split.
  - destruct (str_split_last "."%char module_name class_name Hno) as (p & pre & ->).
    rewrite last_snoc. cbn [from_option id]. f_equal.
    rewrite length_append. cbn [String.length].
    replace (String.length module_name + S (String.length class_name) -
             (String.length class_name + 1)) with (String.length module_name) by lia.
    apply substring_prefix.
  - rewrite str_split_no_sep by assumption. cbn [last from_option id]. f_equal.
    replace (String.length class_name - (String.length class_name + 1)) with 0 by lia.
    destruct class_name; reflexivity.
Qed.

(** ** No schema id is announced twice *)

Lemma rising_le (lo hi : Z) (l : list Z) : rising lo l hi -> (lo <= hi)%Z.
Proof.
  revert lo. induction l as [|x l IH]; intros lo; cbn; [tauto |].
  intros [Hlt Hr]. specialize (IH x Hr). lia.
Qed.

Lemma rising_app (a b c : Z) (l1 l2 : list Z) :
  rising a l1 b -> rising b l2 c -> rising a (l1 ++ l2) c.
Proof.
  revert a. induction l1 as [|x l1 IH]; intros a; cbn.
  - intros Hab. destruct l2 as [|y l2]; cbn; [lia |]. intros [Hlt Hr].
    split; [lia | exact Hr].
  - intros [Hlt Hr] H2. split; [exact Hlt | apply IH; assumption].
Qed.

Lemma rising_seqZ (lo : Z) (n : nat) :
  rising lo (seqZ (lo + 1) (Z.of_nat n)) (lo + Z.of_nat n).
Proof.
  revert lo. induction n as [|n IH]; intros lo.
  - rewrite seqZ_nil by lia. cbn. lia.
  - rewrite seqZ_cons by lia. cbn [rising]. split; [lia |].
    replace (Z.pred (Z.of_nat (S n))) with (Z.of_nat n) by lia.
    replace (lo + Z.of_nat (S n))%Z with ((lo + 1) + Z.of_nat n)%Z by lia.
    replace (Z.succ (lo + 1)) with (lo + 1 + 1)%Z by lia.
    apply IH.
Qed.

Lemma rising_bounds (lo hi : Z) (l : list Z) :
  rising lo l hi -> Forall (fun x => (lo < x <= hi)%Z) l.
Proof.
  revert lo. induction l as [|x l IH]; intros lo; cbn; [constructor |].
  intros [Hlt Hr]. constructor.
  - apply rising_le in Hr. lia.
  - eapply Forall_impl; [apply IH, Hr |]. cbn. intros y Hy. lia.
Qed.

Lemma rising_NoDup (lo hi : Z) (l : list Z) : rising lo l hi -> NoDup l.
Proof.
  revert lo. induction l as [|x l IH]; intros lo; cbn; [constructor |].
  intros [Hlt Hr]. constructor; [| eapply IH, Hr].
  intros Hin. apply rising_bounds in Hr. rewrite Forall_forall in Hr.
  specialize (Hr x Hin). lia.
Qed.

Lemma rises_quiet {S O A} (ids : O -> list Z) (ctr : S -> Z) (m : M S O A) :
  (forall s, (m s).1.2 = [] /\ (ctr s <= ctr (m s).1.1)%Z) -> rises ids ctr m.
Proof. intros Hm s. destruct (Hm s) as [-> Hle]. exact Hle. Qed.

Lemma rises_bind {S O A B} (ids : O -> list Z) (ctr : S -> Z) (m : M S O A)
    (k : A -> M S O B) :
  rises ids ctr m -> (forall a, rises ids ctr (k a)) -> rises ids ctr (m ≫= k).
Proof.
  intros Hm Hk s. rewrite bind_run. specialize (Hm s).
  destruct (m s) as [[s1 o1] [a|e]]; [| exact Hm].
  specialize (Hk a s1). destruct (k a s1) as [[s2 o2] r]. cbn [fst snd] in *.
  rewrite flat_map_app. eapply rising_app; eassumption.
Qed.

Lemma rises_try_except {S O A} (ids : O -> list Z) (ctr : S -> Z) (m : M S O A)
    (h : PyExc -> M S O A) :
  rises ids ctr m -> (forall e, rises ids ctr (h e)) ->
  rises ids ctr (try_except m h).
Proof.
  intros Hm Hh s. unfold try_except. specialize (Hm s).
  destruct (m s) as [[s1 o1] [a|e]]; [exact Hm |].
  specialize (Hh e s1). destruct (h e s1) as [[s2 o2] r]. cbn [fst snd] in *.
  rewrite flat_map_app. eapply rising_app; eassumption.
Qed.

Lemma rises_for_each {S O A} (ids : O -> list Z) (ctr : S -> Z) (l : list A)
    (body : A -> M S O unit) :
  (forall x, rises ids ctr (body x)) -> rises ids ctr (for_each l body).
Proof.
  intros Hb. induction l as [|x l IH].
  - intros s. cbn. lia.
  - cbn [for_each]. change (bind ?m ?k) with (m ≫= k).
    apply rises_bind; [apply Hb | intros _; exact IH].
Qed.

(** Marshalling one record and yielding its announcements. *)
Lemma rises_marshal {S O B} (ids : O -> list Z) (of_schema : Schema -> O)
    (view : S -> AgentService) (update : AgentService -> S -> S)
    (record : RecordObj) (m0 : M S O (list Schema * GrpcRecord))
    (k : GrpcRecord -> M S O B) :
  (forall s, m0 s =
     let '(self, o, r) := to_grpc_record record (view s) in (update self s, o, r)) ->
  (forall a, ids (of_schema a) = [Schema_schema_id a]) ->
  (forall self s, view (update self s) = self) ->
  (forall g, rises ids (fun s => schema_id (view s)) (k g)) ->
  rises ids (fun s => schema_id (view s))
    ('(schemas, grpc_record) ← m0;
     for_each schemas (fun schema => yield (of_schema schema));;
     k grpc_record).
Proof.
  intros Hm0 Hids Hview Hk s. rewrite bind_run, Hm0.
  pose proof (to_grpc_record_out (O := O) record (view s)) as Hout.
  pose proof (keeps_to_grpc_record (O := O) (registry_extends (view s)) record
                (registry_extends_stable (view s)) (view s)) as Hext.
  destruct (to_grpc_record record (view s)) as [[self o] [[schemas g]|e]] eqn:Hrun;
    cbn [fst snd] in *; subst o.
  - rewrite bind_run, for_each_yield.
    specialize (Hk g (update self s)).
    destruct (k g (update self s)) as [[s2 o2] r]. cbn [fst snd] in *.
    rewrite !flat_map_app. cbn [flat_map app].
    eapply rising_app; [| rewrite Hview in Hk; exact Hk].
    destruct (to_grpc_record_announced _ _ _ _ _ _ Hrun) as (Hi & Hn & _).
    assert (Hmap : flat_map ids (map of_schema schemas) =
                   map Schema_schema_id schemas).
    { clear -Hids. induction schemas as [|a l IH]; [reflexivity |].
      cbn. rewrite Hids, IH. reflexivity. }
    rewrite Hmap, Hi, Hn. apply rising_seqZ.
  - cbn. rewrite Hview. apply Hext. split; [reflexivity | lia].
Qed.

Lemma rises_yield_result :
  rises announced_by_processor (fun f : Frame => schema_id (w_service f.1))
    yield_result.
Proof. intros f. rewrite yield_result_run. cbn. lia. Qed.

Lemma rises_process_try (source_record : GrpcRecord) :
  rises announced_by_processor (fun f : Frame => schema_id (w_service f.1))
    (process_try agent source_record).
Proof.
  unfold process_try. apply rises_bind.
  { apply rises_quiet. intros f. rewrite in_world_run, decode_record_run.
    cbn. split; [reflexivity | lia]. }
  intros record. apply rises_bind.
  { apply rises_quiet. intros f. rewrite in_world_run, await_process_run.
    destruct (agent_process agent record (w_agent f.1)) as [a x].
    cbn. split; [reflexivity | lia]. }
  intros items. apply rises_bind; [| intros _; apply rises_yield_result].
  apply rises_for_each. intros item.
  apply (rises_marshal announced_by_processor ProcessorResponse_schema
           (fun f : Frame => w_service f.1)
           (fun self (f : Frame) => (set_service self f.1, f.2))
           (wrap_in_record item)).
  - intros f. rewrite in_world_run, on_service_run.
    destruct (to_grpc_record _ _) as [[self o] r]. reflexivity.
  - reflexivity.
  - reflexivity.
  - intros g. apply rises_quiet. intros f. cbn. split; [reflexivity | lia].
Qed.

Lemma rises_process_record (source_record : GrpcRecord) :
  rises announced_by_processor (fun w : World => schema_id (w_service w))
    (process_record agent source_record).
Proof.
  intros w. unfold process_record.
  assert (Hh : forall e,
            rises announced_by_processor
              (fun f : Frame => schema_id (w_service f.1))
              (modify (set_error (str_exc e));; yield_result)).
  { intros e. apply rises_bind; [| intros _; apply rises_yield_result].
    apply rises_quiet. intros f. cbn. split; [reflexivity | lia]. }
  pose proof (rises_try_except announced_by_processor
                (fun f : Frame => schema_id (w_service f.1))
                (process_try agent source_record) _
                (rises_process_try source_record) Hh) as Hk.
  match goal with |- context [try_except ?m ?h ?f0] =>
    specialize (Hk f0); destruct (try_except m h f0) as [[f o] r] end.
  exact Hk.
Qed.

Lemma rises_apply_schema {O} (ids : O -> list Z) (schema : option Schema) :
  rises ids (fun w : World => schema_id (w_service w)) (apply_schema schema).
Proof.
  apply rises_quiet. intros w. destruct schema as [s|]; cbn [apply_schema].
  - run. destruct (json_loads _) as [json|e]; [| cbn; split; [reflexivity | lia]].
    destruct (parse_schema json) as [parsed|e]; cbn; split; (reflexivity || lia).
  - cbn. split; [reflexivity | lia].
Qed.

(** X24: on a Processor stream the ids of the schema announcements rise
    strictly, from above the counter the stream started with up to the
    counter it ends with: no id is announced twice, and none that was
    registered before the stream is announced again. *)
Theorem processor_announcements_rise (requests : list ProcessorRequest)
    (w : World) :
  rising (schema_id (w_service w))
    (flat_map announced_by_processor (process agent requests w).1.2)
    (schema_id (w_service (process agent requests w).1.1)) /\
  NoDup (flat_map announced_by_processor (process agent requests w).1.2).
Proof.
  assert (Hr : rises announced_by_processor
                 (fun w : World => schema_id (w_service w))
                 (process agent requests)).
  { unfold process. apply rises_for_each. intros request.
    unfold process_request. apply rises_bind; [apply rises_apply_schema |].
    intros _. apply rises_for_each. intros record. apply rises_process_record. }
  split; [apply Hr | eapply rising_NoDup, Hr].
Qed.

Lemma assign_record_ids_quiet (records : list RecordObj) :
  forall (gs : list GrpcRecord) (s : ReadState),
  (assign_record_ids (O := SourceResponse) records gs s).1.2 = [] /\
  rs_world (assign_record_ids (O := SourceResponse) records gs s).1.1 = rs_world s.
Proof.
  induction records as [|record records IH]; intros gs s; [split; reflexivity |].
  destruct gs as [|g gs]; [split; reflexivity |].
  cbn [assign_record_ids]. run. specialize (IH gs (track record s)).
  destruct (assign_record_ids records gs (track record s)) as [[s1 o1] [x|e]];
    cbn [fst snd] in *; destruct IH as [-> ->]; split; reflexivity.
Qed.

Lemma rises_marshal_records (records : list RecordObj) :
  rises announced_by_source
    (fun s : ReadState => schema_id (w_service (rs_world s)))
    (marshal_records records).
Proof.
  induction records as [|record records IH].
  { intros s. cbn. lia. }
  cbn [marshal_records].
  apply (rises_marshal announced_by_source SourceResponse_schema
           (fun s : ReadState => w_service (rs_world s))
           (fun self (s : ReadState) =>
              mkReadState (set_service self (rs_world s)) (read_records s)
                (op_result s) (last_record_id s)) record).
  - intros s. unfold in_read_world, on_service, zoom.
    destruct (to_grpc_record _ _) as [[self o] r]. reflexivity.
  - reflexivity.
  - reflexivity.
  - intros g. apply rises_bind; [exact IH |]. intros gs s. cbn. lia.
Qed.

Lemma rises_read_iteration :
  rises announced_by_source
    (fun s : ReadState => schema_id (w_service (rs_world s)))
    (read_iteration agent).
Proof.
  unfold read_iteration. apply rises_bind.
  { intros s. cbn. lia. }
  intros [|[|e] ops]; try (intros s; cbn; lia).
  apply rises_bind.
  { apply rises_quiet. intros s. unfold in_read_world, on_agent, zoom.
    destruct (agent_read agent _) as [a r]. cbn. split; [reflexivity | lia]. }
  intros [|item items]; [intros s; cbn; lia |].
  apply rises_bind; [apply rises_marshal_records |]. intros gs.
  apply rises_bind.
  { apply rises_quiet. intros s.
    destruct (assign_record_ids_quiet (map wrap_in_record (item :: items)) gs s)
      as [-> ->]. split; [reflexivity | lia]. }
  intros gs'. apply rises_bind; intros; intros s; cbn; lia.
Qed.

(** X25: in every run of a [read] call the ids of the schema announcements
    rise strictly, from above the counter the call started with up to the
    counter now: no id is announced twice on the stream. *)
Theorem source_announcements_rise (w : World) (events : list ReadEvent) :
  let c := read agent w events in
  rising (schema_id (w_service w)) (flat_map announced_by_source (rc_out c))
    (schema_id (w_service (rs_world (rc_state c)))) /\
  NoDup (flat_map announced_by_source (rc_out c)).
Proof.
  cbn zeta.
  assert (Hr : rising (schema_id (w_service w))
                 (flat_map announced_by_source (rc_out (read agent w events)))
                 (schema_id (w_service (rs_world (rc_state (read agent w events)))))).
  { unfold read. induction events as [|ev events IH] using rev_ind.
    { cbn. lia. }
    rewrite fold_left_app. cbn [fold_left].
    set (c := fold_left (read_step agent) events (read_init w)) in *.
    assert (Hack : is_ack ev ->
              rising (schema_id (w_service w))
                (flat_map announced_by_source (rc_out (read_step agent c ev)))
                (schema_id (w_service (rs_world (rc_state (read_step agent c ev)))))).
    { intros Hev.
      pose proof (keeps_read_step
                    (registry_extends (w_service (rs_world (rc_state c)))) c ev
                    (registry_extends_stable _)
                    (conj (reflexivity _) (Z.le_refl _))) as [_ Hle].
      rewrite read_step_ack in * by assumption.
      destruct (ack_step_records ev c) as (_ & -> & _).
      rewrite <- (app_nil_r (flat_map _ _)).
      eapply rising_app; [exact IH | exact Hle]. }
    destruct ev as [| record_id | failure |]; try (apply Hack; exact I).
    cbn [read_step]. unfold emit_step. destruct (rc_emit c); try exact IH.
    pose proof (rises_read_iteration (rc_state c)) as Hit.
    destruct (read_iteration agent (rc_state c)) as [[s o] x].
    cbn [fst snd rc_out rc_state] in *. rewrite flat_map_app.
    eapply rising_app; eassumption. }
  split; [exact Hr | eapply rising_NoDup, Hr].
Qed.

End Properties.

(** * Evaluation on the concrete agent *)

Section Evaluation.
#[local] Existing Instance sample_types.
#[local] Existing Instance sample_libs.

(** C2: schema A is registered under id 1 and B under id 2; the second
    value of schema A is sent without announcement, as it should be, but
    with id 2, the id of B. *)
Theorem reencoded_schema_gets_latest_id :
  let '(self, results) :=
    encode3 (PyAvroValue schema_a payload) (PyAvroValue schema_b payload)
      (PyAvroValue schema_a payload) in
  results =
    [Ok (Some (mkSchema 1 (encode_utf8 schema_a)),
         Some (mkValue 1 (Some (avro_value payload))));
     Ok (Some (mkSchema 2 (encode_utf8 schema_b)),
         Some (mkValue 2 (Some (avro_value payload))));
     Ok (None, Some (mkValue 2 (Some (avro_value payload))))] /\
  schemas self !! schema_a = Some 1%Z /\
  schemas self !! schema_b = Some 2%Z.
Proof. vm_compute. auto. Qed.

(** C9: [crash_process] never ends the process: looking up [os.exit]
    raises [AttributeError]. When the agent's [main] raises, the thread
    started for it logs the failure, ends with that [AttributeError], and
    the process is still running. *)
Theorem main_failure_leaves_process_running :
  (forall w : World (AgentState := nat),
     crash_process (O := unit) w =
       (add_log "ERROR" "Main method with an error. Exiting process." w, [],
        Raise os_exit_error)) /\
  match call_method_new_thread_if_exists (O := unit) (agent_attrs sample_agent)
          "main" [ObjFunction "crash_process"] [] with
  | Some thread =>
    let '(w, _, r) := thread sample_world in
    w_calls w = [mkInvocation "main" [] []] /\
    w_log w = [("INFO", "Starting main method from thread");
               ("ERROR", "boom");
               ("ERROR", "Main method with an error. Exiting process.")] /\
    r = Raise os_exit_error /\
    w_status w = Running
  | None => False
  end.
Proof. split; [intros w; reflexivity | vm_compute; auto]. Qed.

(** C5: on a fresh [read] call no id is tracked, yet a permanent-failure
    message for id 42 calls the agent's [permanent_failure] hook, with
    [None] for the record; the hook's exception then ends the stream. *)
Theorem permanent_failure_unknown_id_calls_hook :
  let c := read sample_agent sample_world [EvPermanentFailure failure_42] in
  read_records (rc_state (read_init sample_world)) !! 42%Z = None /\
  w_calls (rs_world (rc_state c)) =
    [mkInvocation "permanent_failure"
       [ObjNone; ObjException (RuntimeError "gone")] []] /\
  op_result (rc_state c) =
    [OpException (AttributeError "'NoneType' object has no attribute 'value'")] /\
  rc_emit (read sample_agent sample_world
             [EvPermanentFailure failure_42; EvIteration]) =
    Emit_failed (AttributeError "'NoneType' object has no attribute 'value'").
Proof. vm_compute. auto. Qed.

(** C10: a hook declared [def init(self, config, *, strict=False)] has
    one positional parameter, fewer than the two arguments it is
    dispatched with; the helper counts the keyword-only parameter too,
    finds two parameters for two arguments and passes both, so the call
    raises [TypeError]; called with the first argument only, as many as
    it has positional parameters, the hook runs. *)
Theorem keyword_only_parameter_is_counted :
  echo_attrs "init" = Some (Callable strict_init) /\
  declared_positional_count (signature_parameters strict_init) = 1 /\
  length init_args = 2 /\
  call_method_if_exists (O := unit) echo_attrs "init" init_args [] sample_world =
    (add_call (mkInvocation "init" init_args []) sample_world, [],
     Raise (TypeError
       "EchoAgent.init() takes 2 positional arguments but 3 were given")) /\
  call strict_init (take 1 init_args) [] (w_agent sample_world) = (1, Ok ObjNone).
Proof. vm_compute. auto 6. Qed.

(** ** Values that do not come back as they were *)

(** C3, as stated, fails. A second value of schema A, encoded after one
    of schema B, carries id 2; the cache of a peer that applied both
    announcements holds the announced schema B under that id, and the
    value comes back with schema B. And the mapping [{1: 'a'}] travels as
    the text of [{'1': 'a'}], which is what it is decoded to. *)
Lemma decode_encode_not_identity :
  (encode3 avro_a avro_b avro_a).2 =
    [Ok (Some announce_a, Some (mkValue 1 (Some (avro_value payload))));
     Ok (Some announce_b, Some (mkValue 2 (Some (avro_value payload))));
     Ok (None, Some (mkValue 2 (Some (avro_value payload))))] /\
  client_schemas peer_ab !! 2%Z = Some schema_b /\
  from_grpc_value peer_ab (Some (mkValue 2 (Some (avro_value payload)))) =
    Ok avro_b /\
  avro_b <> avro_a /\
  to_grpc_value (H := json_types) (H0 := json_libs) AgentService_init int_key_dict =
    (AgentService_init,
     Ok (None, Some (mkValue 0 (Some (json_value (json_object [(KeyInt 1, "a")])))))) /\
  json_object [(KeyInt 1, "a")] = json_object [(KeyStr "1", "a")] /\
  from_grpc_value (H := json_types) (H0 := json_libs) AgentService_init
    (Some (mkValue 0 (Some (json_value (json_object [(KeyInt 1, "a")]))))) =
    Ok str_key_dict /\
  str_key_dict <> int_key_dict.
Proof.
  split; [vm_compute; reflexivity |]. split; [vm_compute; reflexivity |].
  split; [vm_compute; reflexivity |]. split; [discriminate |].
  split; [reflexivity |]. split; [vm_compute; reflexivity |].
  split; [vm_compute; reflexivity | discriminate].
Qed.

(** ** An exception whose [str(e)] is empty *)

(** C4, as stated, fails: the sample agent's [process] raises an
    [AssertionError] without message on record 7; the result for id 7
    carries the error [""], which is set and empty. *)
Lemma process_error_can_be_empty :
  from_grpc_record (w_service sample_world) record_7 = Ok (decoded 7 PyNone) /\
  process_fails sample_agent (decoded 7 PyNone) 0 0 assertion_error /\
  process_record sample_agent record_7 sample_world =
    (sample_world, [ProcessorResponse_results [mkProcessorResult 7 (Some "") []]],
     Ok tt) /\
  ~ (exists msg, msg <> "" /\
       (process_record sample_agent record_7 sample_world).1.2 =
         [ProcessorResponse_results [mkProcessorResult 7 (Some msg) []]]).
Proof.
  split; [reflexivity |]. split; [left; reflexivity |]. split; [reflexivity |].
  intros (msg & Hne & Heq). vm_compute in Heq.
  injection Heq as <-. apply Hne. reflexivity.
Qed.

(** C7, as stated, fails: the sample agent's [write] raises an
    [AssertionError] without message on record 7; the response for id 7
    carries the error [""]. *)
Lemma write_error_can_be_empty :
  from_grpc_record (w_service sample_world) record_7 = Ok (decoded 7 PyNone) /\
  write_fails sample_agent (decoded 7 PyNone) 0 0 assertion_error /\
  write_record sample_agent record_7 sample_world =
    (sample_world, [mkSinkResponse 7 (Some "")], Ok tt) /\
  ~ (exists msg, msg <> "" /\
       (write_record sample_agent record_7 sample_world).1.2 =
         [mkSinkResponse 7 (Some msg)]).
Proof.
  split; [reflexivity |]. split; [left; reflexivity |]. split; [reflexivity |].
  intros (msg & Hne & Heq). vm_compute in Heq.
  injection Heq as <-. apply Hne. reflexivity.
Qed.

(** ** The theorems at concrete inputs *)

Lemma from_grpc_value_unannounced_schema_witness :
  Value_type_oneof unannounced_value = Some (avro_value payload) /\
  client_schemas AgentService_init !! Value_schema_id unannounced_value = None /\
  from_grpc_value AgentService_init (Some unannounced_value) =
    Raise (KeyError 5) /\
  forall x, from_grpc_value AgentService_init (Some unannounced_value) <> Ok x.
Proof.
  split; [reflexivity |]. split; [reflexivity |].
  apply (from_grpc_value_unannounced_schema AgentService_init unannounced_value
           payload); reflexivity.
Defined.

Lemma decode_encode_witness :
  encodable avro_a /\
  client_schemas peer_knows_a !! 1%Z = Some schema_a /\
  to_grpc_value AgentService_init avro_a =
    (mkAgentService 1 (<[schema_a := 1%Z]> ∅) ∅,
     Ok (Some announce_a, Some (mkValue 1 (Some (avro_value payload))))) /\
  from_grpc_value peer_knows_a (Some (mkValue 1 (Some (avro_value payload)))) =
    Ok avro_a.
Proof.
  assert (He : encodable avro_a) by (exists payload; reflexivity).
  assert (Hc : client_schemas peer_knows_a !! 1%Z = Some schema_a)
    by (vm_compute; reflexivity).
  split; [exact He |]. split; [exact Hc |]. split; [reflexivity |].
  destruct (decode_encode AgentService_init peer_knows_a avro_a He)
    as (self' & schema & wire & Henc & _ & _ & Havro).
  cbn in Henc. injection Henc as _ _ <-.
  destruct (Havro schema_a payload schema_a eq_refl Hc) as (b & Hb & _ & Hiff).
  injection Hb as <-. apply Hiff. split; reflexivity.
Defined.

(** Schema A, encoded first and decoded by a peer that got the
    announcement, comes back as it was. *)
Example avro_round_trip :
  from_grpc_value peer_knows_a (Some (mkValue 1 (Some (avro_value payload)))) =
    Ok avro_a /\
  (to_grpc_value AgentService_init avro_a).2 =
    Ok (Some (mkSchema 1 (encode_utf8 schema_a)),
        Some (mkValue 1 (Some (avro_value payload)))).
Proof. split; reflexivity. Qed.

Lemma from_grpc_record_fields_witness :
  exists r, from_grpc_record AgentService_init full_wire_record = Ok r /\
    rec_record_id r = 9%Z /\
    rec_origin (rec_base r) = None /\
    rec_timestamp (rec_base r) = Some 0%Z.
Proof.
  destruct (from_grpc_record_fields AgentService_init full_wire_record)
    as [Hfields Htotal].
  destruct Htotal as [r Hr].
  - exists (PyStr "v"). reflexivity.
  - exists PyNone. reflexivity.
  - repeat constructor. exists (PyInt 3). reflexivity.
  - exists r. split; [exact Hr |]. exact (Hfields r Hr).
Defined.

Lemma process_failure_is_local_witness :
  from_grpc_record (w_service sample_world) record_7 = Ok (decoded 7 PyNone) /\
  process_fails sample_agent (decoded 7 PyNone) (w_agent sample_world) 0
    assertion_error /\
  process_record sample_agent record_7 sample_world =
    (set_agent 0 sample_world, [error_result record_7 assertion_error], Ok tt) /\
  process_request sample_agent (mkProcessorRequest None [record_7; record_8])
    sample_world =
    (let '(w2, o2, r2) :=
       process_request sample_agent (mkProcessorRequest None [record_8])
         (set_agent 0 sample_world) in
     (w2, error_result record_7 assertion_error :: o2, r2)).
Proof.
  assert (Hd : from_grpc_record (w_service sample_world) record_7 =
               Ok (decoded 7 PyNone)) by reflexivity.
  assert (Hf : process_fails sample_agent (decoded 7 PyNone)
                 (w_agent sample_world) 0 assertion_error)
    by (left; reflexivity).
  destruct (process_failure_is_local sample_agent record_7 sample_world
              (decoded 7 PyNone) 0 assertion_error [record_8] Hd Hf)
    as (Hrun & _ & Hnext & _).
  split; [exact Hd |]. split; [exact Hf |]. split; [exact Hrun | exact Hnext].
Defined.

(** The record after the failed one succeeds. *)
Example process_continues_after_failure :
  (process sample_agent [mkProcessorRequest None [record_7; record_8]]
     sample_world).1.2 =
    [ProcessorResponse_results [mkProcessorResult 7 (Some "") []];
     ProcessorResponse_results
       [mkProcessorResult 8 None
          [mkGrpcRecord 0 None (Some (mkValue 0 (Some (string_value "ok")))) []
             "" None]]].
Proof. reflexivity. Qed.

Lemma write_record_response_witness :
  from_grpc_record (w_service sample_world) record_8 = Ok (decoded 8 (PyStr "ok")) /\
  write_succeeds sample_agent (decoded 8 (PyStr "ok")) (w_agent sample_world) 1 /\
  write_record sample_agent record_8 sample_world =
    (set_agent 1 sample_world, [mkSinkResponse 8 None], Ok tt) /\
  from_grpc_record (w_service sample_world) record_7 = Ok (decoded 7 PyNone) /\
  write_fails sample_agent (decoded 7 PyNone) (w_agent sample_world) 0
    assertion_error /\
  write_record sample_agent record_7 sample_world =
    (set_agent 0 sample_world, [mkSinkResponse 7 (Some (str_exc assertion_error))],
     Ok tt).
Proof.
  assert (Hd : from_grpc_record (w_service sample_world) record_8 =
               Ok (decoded 8 (PyStr "ok"))) by reflexivity.
  assert (Hs : write_succeeds sample_agent (decoded 8 (PyStr "ok"))
                 (w_agent sample_world) 1) by (left; reflexivity).
  assert (Hd7 : from_grpc_record (w_service sample_world) record_7 =
                Ok (decoded 7 PyNone)) by reflexivity.
  assert (Hf : write_fails sample_agent (decoded 7 PyNone)
                 (w_agent sample_world) 0 assertion_error)
    by (left; reflexivity).
  destruct (write_record_response sample_agent record_8 sample_world
              (decoded 8 (PyStr "ok")) Hd) as (_ & Hok & _).
  destruct (write_record_response sample_agent record_7 sample_world
              (decoded 7 PyNone) Hd7) as (Hfail & _ & _).
  split; [exact Hd |]. split; [exact Hs |]. split; [exact (Hok 1 Hs) |].
  split; [exact Hd7 |]. split; [exact Hf |].
  exact (proj1 (Hfail 0 assertion_error Hf)).
Defined.

(** The scenario of the Sink: record 7 fails, record 8 succeeds. *)
Example write_7_fails_8_succeeds :
  (write sample_agent
     [mkSinkRequest None (Some record_7); mkSinkRequest None (Some record_8)]
     sample_world).1.2 =
    [mkSinkResponse 7 (Some ""); mkSinkResponse 8 None].
Proof. reflexivity. Qed.

Lemma read_correlation_witness :
  agent_read sample_agent (w_agent sample_world) =
    (1, Ok [ItemRecord (record_of (PyInt 0)); ItemSequence (record_of (PyStr "b"))]) /\
  emitted_ids (rc_out (read sample_agent sample_world [EvIteration])) = [1; 2]%Z /\
  read_records (rc_state (read sample_agent sample_world [EvIteration; EvCommit 1]))
    !! 2%Z = Some (IsRecord (record_of (PyStr "b"))) /\
  w_calls (rs_world (rc_state
    (read sample_agent sample_world [EvIteration; EvCommit 1; EvCommit 2]))) =
    [mkInvocation "commit" [ObjRecord (IsRecord (record_of (PyInt 0)))] [];
     mkInvocation "commit" [ObjRecord (IsRecord (record_of (PyStr "b")))] []] /\
  w_agent (rs_world (rc_state
    (read sample_agent sample_world [EvIteration; EvCommit 1; EvCommit 2]))) = 3.
Proof.
  assert (Hno : Forall (fun ev => ~ names_id (0 + 1 + Z.of_nat 1) ev) [EvCommit 1]).
  { repeat constructor. cbn. lia. }
  destruct (read_correlation sample_agent sample_world []) as (_ & _ & _ & Htie).
  destruct (Htie 1 [ItemRecord (record_of (PyInt 0));
                    ItemSequence (record_of (PyStr "b"))]
              1 (ItemSequence (record_of (PyStr "b"))) [EvCommit 1]
              eq_refl eq_refl eq_refl eq_refl eq_refl Hno eq_refl)
    as (Hids & Hin & _ & _ & Hhook).
  destruct (Hhook sample_commit eq_refl (le_n 1)) as [Hcalls Hstate].
  split; [reflexivity |]. split; [exact Hids |]. split; [exact Hin |].
  split; [exact Hcalls | exact Hstate].
Defined.

(** The Source scenario: a batch of two gets ids 1 and 2; after a commit
    of 1 and a failure report for 2 the map is empty and each hook was
    called once, with the record stored under the id. *)
Example commit_then_failure :
  let c := read sample_agent sample_world
             [EvIteration; EvCommit 1; EvPermanentFailure (mkPermanentFailure 2 "bad")] in
  emitted_ids (rc_out c) = [1; 2]%Z /\
  read_records (rc_state c) = ∅ /\
  op_result (rc_state c) = [] /\
  w_calls (rs_world (rc_state c)) =
    [mkInvocation "commit" [ObjRecord (IsRecord (record_of (PyInt 0)))] [];
     mkInvocation "permanent_failure"
       [ObjRecord (IsRecord (record_of (PyStr "b")));
        ObjException (RuntimeError "bad")] []].
Proof. vm_compute. auto. Qed.

(** ** The further properties at concrete inputs *)

Lemma registry_invariant_witness :
  registry_ok (w_service sample_world) /\
  registry_ok (w_service (process sample_agent [avro_request] sample_world).1.1) /\
  registry_ok (w_service
    (write sample_agent [mkSinkRequest None (Some record_8)] sample_world).1.1) /\
  registry_ok (w_service
    (rs_world (rc_state (read sample_agent sample_world [EvIteration])))).
Proof.
  assert (Hok : registry_ok (w_service sample_world)) by apply registry_ok_init.
  split; [exact Hok |].
  exact (registry_invariant sample_agent sample_world [avro_request]
           [mkSinkRequest None (Some record_8)] [EvIteration] Hok).
Defined.

(** The structured record of [avro_request] comes back under schema id 1,
    announced first. *)
Example process_announces_then_answers :
  (process sample_agent [avro_request] sample_world).1.2 =
    [ProcessorResponse_schema announce_a;
     ProcessorResponse_results
       [mkProcessorResult 1 None
          [mkGrpcRecord 0 None (Some (mkValue 1 (Some (avro_value payload)))) []
             "" None]]].
Proof. vm_compute. reflexivity. Qed.

Lemma registry_append_only_witness :
  schemas (w_service registered_world) !! schema_a = Some 1%Z /\
  schemas (w_service (process sample_agent [avro_request] registered_world).1.1)
    !! schema_a = Some 1%Z /\
  (schema_id (w_service registered_world) <=
   schema_id (w_service (process sample_agent [avro_request] registered_world).1.1))%Z.
Proof.
  assert (Hs : schemas (w_service registered_world) !! schema_a = Some 1%Z)
    by (vm_compute; reflexivity).
  destruct (registry_append_only sample_agent registered_world [avro_request] []
              [] schema_a 1 Hs) as (Hp & _ & _ & Hle & _).
  split; [exact Hs |]. split; [exact Hp | exact Hle].
Defined.

Lemma to_grpc_record_announcements_witness :
  exists self' schemas0 g,
    to_grpc_record (O := unit) (IsRecord two_schema_record) AgentService_init =
      (self', [], Ok (schemas0, g)) /\
    map announced_text schemas0 = [schema_a; schema_b] /\
    map Schema_schema_id schemas0 = [1; 2]%Z /\
    schema_id self' = 2%Z.
Proof.
  destruct (to_grpc_record (O := unit) (IsRecord two_schema_record)
              AgentService_init) as [[self' o] [[schemas0 g]|e]] eqn:Hrun;
    [| vm_compute in Hrun; discriminate].
  pose proof (to_grpc_record_announcements _ _ _ _ _ _ Hrun)
    as (Htexts & Hids & Hn & _).
  vm_compute in Hrun. injection Hrun as <- <- <- <-.
  eexists _, _, _. split; [reflexivity |].
  split; [rewrite Htexts; vm_compute; reflexivity |].
  split; [exact Hids | exact Hn].
Defined.

Lemma avro_id_matches_registry_witness :
  to_grpc_value AgentService_init avro_a =
    (mkAgentService 1 (<[schema_a := 1%Z]> ∅) ∅,
     Ok (Some announce_a, Some (mkValue 1 (Some (avro_value payload))))) /\
  (schemas (mkAgentService 1 (<[schema_a := 1%Z]> ∅) ∅) !! schema_a = Some 1%Z <->
   (schemas AgentService_init !! schema_a = None \/
    schemas AgentService_init !! schema_a = Some 0%Z)).
Proof.
  assert (Hrun : to_grpc_value AgentService_init avro_a =
                 (mkAgentService 1 (<[schema_a := 1%Z]> ∅) ∅,
                  Ok (Some announce_a,
                      Some (mkValue 1 (Some (avro_value payload))))))
    by reflexivity.
  split; [exact Hrun |].
  exact (avro_id_matches_registry AgentService_init _ schema_a payload _ _ Hrun).
Defined.

Lemma failed_write_registers_silently_witness :
  schemas AgentService_init !! schema_a = None /\
  schemaless_writer (PyLibs := strict_libs) schema_a [] =
    Raise (ValueError "no payload") /\
  schemaless_writer (PyLibs := strict_libs) schema_a payload = Ok payload /\
  exists self1,
    to_grpc_value (H0 := strict_libs) AgentService_init (PyAvroValue schema_a []) =
      (self1, Raise (ValueError "no payload")) /\
    schemas self1 !! schema_a = Some 1%Z /\
    to_grpc_value (H0 := strict_libs) self1 avro_a =
      (self1, Ok (None, Some (mkValue 1 (Some (avro_value payload))))).
Proof.
  assert (Hnew : schemas AgentService_init !! schema_a = None) by reflexivity.
  split; [exact Hnew |]. split; [reflexivity |]. split; [reflexivity |].
  exact (failed_write_registers_silently (L := strict_libs) AgentService_init
           schema_a [] payload (ValueError "no payload") payload
           Hnew eq_refl eq_refl).
Defined.

Lemma encode_decode_scalar_witness :
  Value_type_oneof (mkValue 4 (Some (long_value 3))) = Some (long_value 3) /\
  scalar_variant (long_value 3) /\
  exists d,
    from_grpc_value AgentService_init (Some (mkValue 4 (Some (long_value 3)))) =
      Ok d /\
    to_grpc_value AgentService_init d =
      (AgentService_init, Ok (None, Some (mkValue 0 (Some (long_value 3))))).
Proof.
  assert (Hv : scalar_variant (long_value 3)) by reflexivity.
  split; [reflexivity |]. split; [exact Hv |].
  exact (encode_decode_scalar AgentService_init AgentService_init
           (mkValue 4 (Some (long_value 3))) (long_value 3) eq_refl Hv).
Defined.

Lemma scalar_record_round_trip_witness :
  scalar_record scalar_sample /\
  exists g,
    to_grpc_record (O := unit) (IsRecord scalar_sample) AgentService_init =
      (AgentService_init, [], Ok ([], g)) /\
    forall peer id,
      from_grpc_record peer (set_record_id g id) =
        Ok (mkRecordWithId id (normalize_origin scalar_sample)).
Proof.
  assert (Hr : scalar_record scalar_sample).
  { split; [reflexivity |]. split; [exact I |]. repeat constructor. }
  split; [exact Hr |].
  exact (scalar_record_round_trip (O := unit) AgentService_init scalar_sample Hr).
Defined.

(** A timestamp outside the int64 range: the wire record is not built, and
    the Processor answers the inbound record with the error. *)
Example timestamp_out_of_range :
  to_grpc_record (O := unit)
    (IsRecord (mkSimpleRecord (PyStr "v") PyNone [] None (Some (2 ^ 63)%Z)))
    AgentService_init =
    (AgentService_init, [], Raise (ValueError "Value out of range")) /\
  to_grpc_record (O := unit)
    (IsRecord (mkSimpleRecord (PyStr "v") PyNone [] None (Some (2 ^ 63 - 1)%Z)))
    AgentService_init =
    (AgentService_init, [],
     Ok ([], mkGrpcRecord 0 None (Some (mkValue 0 (Some (string_value "v")))) []
               "" (Some (2 ^ 63 - 1)%Z))).
Proof. split; reflexivity. Qed.

(** The empty origin of [scalar_sample] comes back as none. *)
Example empty_origin_is_lost :
  rec_origin scalar_sample = Some "" /\
  rec_origin (normalize_origin scalar_sample) = None.
Proof. split; reflexivity. Qed.

Lemma announce_then_decode_witness :
  json_loads (decode_utf8 (Schema_value announce_a)) = Ok (PyDict schema_a) /\
  parse_schema (PyDict schema_a) = Ok schema_a /\
  exists w',
    apply_schema (O := unit) (Some announce_a) sample_world = (w', [], Ok tt) /\
    from_grpc_value (w_service w')
      (Some (mkValue 1 (Some (avro_value payload)))) = Ok avro_a.
Proof.
  assert (Hj : json_loads (decode_utf8 (Schema_value announce_a)) =
               Ok (PyDict schema_a)) by reflexivity.
  assert (Hp : parse_schema (PyDict schema_a) = Ok schema_a) by reflexivity.
  split; [exact Hj |]. split; [exact Hp |].
  destruct (announce_then_decode (T := sample_types) (L := sample_libs)
              (O := unit) sample_world announce_a _ _ payload Hj Hp)
    as (w' & Hrun & _ & _ & _ & _ & Hdec).
  exists w'. split; [exact Hrun | exact Hdec].
Defined.

Lemma malformed_announcement_aborts_witness :
  process sample_agent [mkProcessorRequest None [record_8]] sample_world =
    (sample_world,
     [ProcessorResponse_results
        [mkProcessorResult 8 None
           [mkGrpcRecord 0 None (Some (mkValue 0 (Some (string_value "ok")))) []
              "" None]]],
     Ok tt) /\
  announcement_fails (Some announce_list)
    (Exc "SchemaParseException" "not a schema") /\
  process sample_agent
    ([mkProcessorRequest None [record_8]] ++
     mkProcessorRequest (Some announce_list) [record_7] ::
     [mkProcessorRequest None [record_8]]) sample_world =
    (sample_world,
     [ProcessorResponse_results
        [mkProcessorResult 8 None
           [mkGrpcRecord 0 None (Some (mkValue 0 (Some (string_value "ok")))) []
              "" None]]],
     Raise (Exc "SchemaParseException" "not a schema")).
Proof.
  assert (Hpre : process sample_agent [mkProcessorRequest None [record_8]]
                   sample_world =
                 (sample_world,
                  [ProcessorResponse_results
                     [mkProcessorResult 8 None
                        [mkGrpcRecord 0 None
                           (Some (mkValue 0 (Some (string_value "ok")))) [] ""
                           None]]],
                  Ok tt)) by reflexivity.
  assert (Hbad : announcement_fails (Some announce_list)
                   (Exc "SchemaParseException" "not a schema")).
  { exists announce_list. split; [reflexivity |]. right.
    eexists. split; reflexivity. }
  split; [exact Hpre |]. split; [exact Hbad |].
  exact (proj1 (malformed_announcement_aborts sample_agent sample_world sample_world
                  (Exc "SchemaParseException" "not a schema"))
           [mkProcessorRequest None [record_8]]
           [mkProcessorRequest None [record_8]]
           (mkProcessorRequest (Some announce_list) [record_7]) _ Hpre Hbad).
Defined.

Lemma one_result_per_record_witness :
  Forall (fun q => parses (ProcessorRequest_schema q))
    [avro_request; mkProcessorRequest None [record_7; record_8]] /\
  result_ids
    (process sample_agent
       [avro_request; mkProcessorRequest None [record_7; record_8]]
       sample_world).1.2 = [1; 7; 8]%Z.
Proof.
  assert (Hok : Forall (fun q => parses (ProcessorRequest_schema q))
                  [avro_request; mkProcessorRequest None [record_7; record_8]]).
  { repeat constructor. eexists _, _. split; reflexivity. }
  split; [exact Hok |].
  exact (one_result_per_record sample_agent
           [avro_request; mkProcessorRequest None [record_7; record_8]]
           sample_world Hok).
Defined.

Lemma undecodable_record_not_delivered_witness :
  from_grpc_record (w_service sample_world) unannounced_record =
    Raise (KeyError 5) /\
  process_record sample_agent unannounced_record sample_world =
    (sample_world,
     [ProcessorResponse_results [mkProcessorResult 3 (Some "5") []]], Ok tt) /\
  write_record sample_agent unannounced_record sample_world =
    (sample_world, [mkSinkResponse 3 (Some "5")], Ok tt).
Proof.
  assert (Hdec : from_grpc_record (w_service sample_world) unannounced_record =
                 Raise (KeyError 5)) by reflexivity.
  split; [exact Hdec |].
  exact (undecodable_record_not_delivered sample_agent unannounced_record
           sample_world (KeyError 5) Hdec).
Defined.

Lemma process_result_carries_outputs_witness :
  from_grpc_record (w_service sample_world) record_8 = Ok (decoded 8 (PyStr "ok")) /\
  process_returns sample_agent (decoded 8 (PyStr "ok")) (w_agent sample_world) 0
    [ItemRecord (record_of (PyStr "ok"))] /\
  Forall (fun item => exists r, wraps item r) [ItemRecord (record_of (PyStr "ok"))] /\
  exists gs,
    process_record sample_agent record_8 sample_world =
      (set_agent 0 sample_world,
       [ProcessorResponse_results [mkProcessorResult 8 None gs]], Ok tt) /\
    Forall2 carries gs [ItemRecord (record_of (PyStr "ok"))].
Proof.
  assert (Hd : from_grpc_record (w_service sample_world) record_8 =
               Ok (decoded 8 (PyStr "ok"))) by reflexivity.
  assert (Hr : process_returns sample_agent (decoded 8 (PyStr "ok"))
                 (w_agent sample_world) 0 [ItemRecord (record_of (PyStr "ok"))])
    by (left; reflexivity).
  assert (Hs : Forall (fun item => exists r, wraps item r)
                 [ItemRecord (record_of (PyStr "ok"))]).
  { repeat constructor. exists (record_of (PyStr "ok")).
    split; [reflexivity |]. repeat constructor. }
  split; [exact Hd |]. split; [exact Hr |]. split; [exact Hs |].
  exact (process_result_carries_outputs sample_agent record_8 sample_world _ 0 _
           Hd Hr Hs).
Defined.


Lemma one_response_per_record_witness :
  Forall (fun q => parses (SinkRequest_schema q))
    [mkSinkRequest None (Some record_7); mkSinkRequest None None;
     mkSinkRequest None (Some record_8)] /\
  map SinkResponse_record_id
    (write sample_agent
       [mkSinkRequest None (Some record_7); mkSinkRequest None None;
        mkSinkRequest None (Some record_8)] sample_world).1.2 = [7; 8]%Z.
Proof.
  assert (Hok : Forall (fun q => parses (SinkRequest_schema q))
                  [mkSinkRequest None (Some record_7); mkSinkRequest None None;
                   mkSinkRequest None (Some record_8)])
    by (repeat constructor).
  split; [exact Hok |].
  exact (one_response_per_record sample_agent _ sample_world Hok).
Defined.

Lemma tracked_ids_were_emitted_witness :
  read_records (rc_state (read sample_agent sample_world [EvIteration])) !! 2%Z =
    Some (IsRecord (record_of (PyStr "b"))) /\
  2%Z ∈ emitted_ids (rc_out (read sample_agent sample_world [EvIteration])) /\
  exists record, IsRecord (record_of (PyStr "b")) = IsRecord record.
Proof.
  assert (Hin : read_records (rc_state (read sample_agent sample_world [EvIteration]))
                  !! 2%Z = Some (IsRecord (record_of (PyStr "b"))))
    by (vm_compute; reflexivity).
  split; [exact Hin |].
  exact (tracked_ids_were_emitted sample_agent sample_world [EvIteration] 2 _ Hin).
Defined.

Lemma unacknowledged_stays_tracked_witness :
  2%Z ∈ emitted_ids
         (rc_out (read sample_agent sample_world [EvIteration; EvCommit 1])) /\
  Forall (fun ev => ~ names_id 2 ev) [EvIteration; EvCommit 1] /\
  is_Some (read_records
             (rc_state (read sample_agent sample_world [EvIteration; EvCommit 1]))
           !! 2%Z).
Proof.
  assert (Hin : 2%Z ∈ emitted_ids
                  (rc_out (read sample_agent sample_world [EvIteration; EvCommit 1]))).
  { vm_compute. apply list_elem_of_In. right. left. reflexivity. }
  assert (Hno : Forall (fun ev => ~ names_id 2 ev) [EvIteration; EvCommit 1]).
  { repeat constructor; cbn; [tauto | lia]. }
  split; [exact Hin |]. split; [exact Hno |].
  exact (unacknowledged_stays_tracked sample_agent sample_world
           [EvIteration; EvCommit 1] 2 Hin Hno).
Defined.



Lemma bad_batch_is_dropped_witness :
  agent_read sloppy_agent (w_agent (rs_world (rc_state (read_init sample_world)))) =
    (1, Ok [ItemRecord (record_of (PyStr "a")); ItemOther "int"]) /\
  ItemOther "int" ∈ [ItemRecord (record_of (PyStr "a")); ItemOther "int"] /\
  (exists e, rc_emit (read_step sloppy_agent (read_init sample_world) EvIteration) =
             Emit_failed e) /\
  emitted_ids (rc_out (read_step sloppy_agent (read_init sample_world) EvIteration)) =
    emitted_ids (rc_out (read_init sample_world)) /\
  read_records (rc_state (read_step sloppy_agent (read_init sample_world) EvIteration)) =
    read_records (rc_state (read_init sample_world)).
Proof.
  assert (Hin : ItemOther "int" ∈
                [ItemRecord (record_of (PyStr "a")); ItemOther "int"]).
  { apply list_elem_of_In. right. left. reflexivity. }
  destruct (bad_batch_is_dropped sloppy_agent (read_init sample_world) 1 _ "int"
              eq_refl eq_refl eq_refl Hin) as (Hfail & Hout & Hrec & _).
  split; [reflexivity |]. split; [exact Hin |]. split; [exact Hfail |].
  split; [exact Hout | exact Hrec].
Defined.

Lemma failing_hook_stops_acknowledgements_witness :
  (handle_request (O := SourceResponse) sample_agent
     (mkSourceRequest [] (Some failure_42))
     (rc_state (read sample_agent sample_world [EvIteration]))).2 =
    Raise (AttributeError "'NoneType' object has no attribute 'value'") /\
  is_Some (read_records
    (handle_read_requests (O := SourceResponse) sample_agent
       ([] ++ mkSourceRequest [] (Some failure_42) :: [mkSourceRequest [1; 2]%Z None])
       (rc_state (read sample_agent sample_world [EvIteration]))).1.1 !! 1%Z).
Proof.
  destruct (handle_request (O := SourceResponse) sample_agent
              (mkSourceRequest [] (Some failure_42))
              (rc_state (read sample_agent sample_world [EvIteration])))
    as [[s2 o2] r] eqn:Hq.
  assert (Hr : r = Raise (AttributeError "'NoneType' object has no attribute 'value'"))
    by (vm_compute in Hq; injection Hq as _ _ <-; reflexivity).
  subst r.
  destruct (failing_hook_stops_acknowledgements sample_agent []
              [mkSourceRequest [1; 2]%Z None] (mkSourceRequest [] (Some failure_42))
              _ _ s2 [] o2 _ eq_refl Hq) as [Hstate _].
  split; [reflexivity |].
  rewrite Hstate. vm_compute in Hq. injection Hq as <- _.
  vm_compute. eauto.
Defined.

Lemma init_agent_names_split_witness :
  ~ In "."%char (list_ascii_of_string "EchoAgent") /\
  init_agent_names "examples.agents.EchoAgent" = ("examples.agents", "EchoAgent") /\
  init_agent_names "EchoAgent" = ("", "EchoAgent").
Proof.
  assert (Hno : ~ In "."%char (list_ascii_of_string "EchoAgent")).
  { cbn. intros H. repeat (destruct H as [H | H]; [discriminate |]). exact H. }
  split; [exact Hno |].
  exact (init_agent_names_split "examples.agents" "EchoAgent" Hno).
Defined.

End Evaluation.
